(** * Vanilla-Agent-Demo: the agent loop and its decision protocol

    A shallow embedding of [src/llm_providers.js] ([tryParseToolCall]) and
    [src/agent.js] ([Agent.sanitizeObservation], [Agent.run]), together with
    the parts of the JavaScript runtime these functions rely on: strings as
    sequences of UTF-16 code units, backtracking regular expressions,
    [JSON.parse], [JSON.stringify], property access and the conversions
    [ToBoolean] and [ToString]. *)

From Stdlib Require Import NArith ZArith List String Ascii Bool Lia.
From stdpp Require Import base option list gmap.

Set Warnings "-register-all,-clear-no-such-hyp".
Local Open Scope N_scope.

(** ** JavaScript strings *)

(** A JavaScript string is a finite sequence of UTF-16 code units. *)
Definition jsstring := list N.

Module JsStr.

(** The code units of an ASCII literal of the source. *)
Definition js (s : string) : jsstring := map N_of_ascii (list_ascii_of_string s).

(** Same, for source literals that contain double quotes: every apostrophe
    of [s] stands for the double quote (code unit 34). *)
Definition jsq (s : string) : jsstring :=
  map (fun c => if c =? 39 then 34 else c) (js s).

Definition eqb (a b : jsstring) : bool := bool_decide (a = b).

(** [WhiteSpace] and [LineTerminator] of ECMAScript: the characters removed
    by [String.prototype.trim] and matched by the class [\s]. *)
Definition is_space (c : N) : bool :=
  existsb (N.eqb c)
    [9; 10; 11; 12; 13; 32; 160; 5760; 8232; 8233; 8239; 8287; 12288; 65279]
  || ((8192 <=? c) && (c <=? 8202)).

(** The first character, if any, is not white space. *)
Definition starts_nonspace (t : jsstring) : Prop :=
  match t with [] => True | c :: _ => is_space c = false end.

Fixpoint trimStart (s : jsstring) : jsstring :=
  match s with
  | c :: s' => if is_space c then trimStart s' else s
  | [] => []
  end.

Definition trimEnd (s : jsstring) : jsstring := rev (trimStart (rev s)).

Definition trim (s : jsstring) : jsstring := trimEnd (trimStart s).

(** [s.slice(0, n)] for [0 <= n]. *)
Definition slice0 (n : nat) (s : jsstring) : jsstring := take n s.

Fixpoint isPrefixOf (p s : jsstring) : bool :=
  match p, s with
  | [], _ => true
  | a :: p', b :: s' => (a =? b) && isPrefixOf p' s'
  | _ :: _, [] => false
  end.

(** [isPrefixOf] up to a relation between the characters of the pattern
    and those of the subject. *)
Fixpoint prefix_by (p : N -> N -> bool) (w s : jsstring) : bool :=
  match w, s with
  | [], _ => true
  | a :: w', b :: s' => p a b && prefix_by p w' s'
  | _ :: _, [] => false
  end.

(** [w] occurs in [s]. *)
Definition contains (w s : jsstring) : Prop := exists a b, s = a ++ w ++ b.

(** [s.includes(p)] *)
Fixpoint includes (p s : jsstring) : bool :=
  isPrefixOf p s ||
  match s with
  | [] => false
  | _ :: s' => includes p s'
  end.

(** Decimal digits of a natural number, as [Number.prototype.toString]
    prints a non-negative integer below 2^53. *)
Fixpoint of_uint (d : Decimal.uint) : jsstring :=
  match d with
  | Decimal.Nil => []
  | Decimal.D0 d' => 48 :: of_uint d'
  | Decimal.D1 d' => 49 :: of_uint d'
  | Decimal.D2 d' => 50 :: of_uint d'
  | Decimal.D3 d' => 51 :: of_uint d'
  | Decimal.D4 d' => 52 :: of_uint d'
  | Decimal.D5 d' => 53 :: of_uint d'
  | Decimal.D6 d' => 54 :: of_uint d'
  | Decimal.D7 d' => 55 :: of_uint d'
  | Decimal.D8 d' => 56 :: of_uint d'
  | Decimal.D9 d' => 57 :: of_uint d'
  end.

Definition of_N (n : N) : jsstring := of_uint (N.to_uint n).

Definition of_nat (n : nat) : jsstring := of_N (N.of_nat n).

(** ASCII case folding. Under the [i] flag (without [u]) a character is
    canonicalized with [toUpperCase], except that a non-ASCII character is
    never mapped to an ASCII one; so against an ASCII letter of a pattern
    only that letter in either case matches. *)
Definition upper (c : N) : N :=
  if (97 <=? c) && (c <=? 122) then c - 32 else c.

(** [s.toLowerCase()] restricted to the ASCII letters. *)
Definition lower (c : N) : N :=
  if (65 <=? c) && (c <=? 90) then c + 32 else c.

End JsStr.

Import JsStr.

(** ** Regular expressions *)

Module Regex.

(** The fragment of the pattern syntax used by the source. [Chr p] is a
    class or a literal, [Star true] is [*] and [Star false] is [*?],
    [Group i] is the [i]-th capturing parenthesis, [Bol] and [Eol] are
    [^] and [$] (no [m] flag). *)
Inductive regex : Type :=
| Eps
| Chr (p : N -> bool)
| Seq (r1 r2 : regex)
| Alt (r1 r2 : regex)
| Star (greedy : bool) (r : regex)
| Group (i : nat) (r : regex)
| Bol
| Eol.

Definition lit (c : N) : regex := Chr (N.eqb c).
Definition lit_i (c : N) : regex := Chr (fun x => upper x =? upper c).
Definition lit_by (p : N -> N -> bool) (c : N) : regex := Chr (p c).
Definition any : regex := Chr (fun _ => true).
Definition space : regex := Chr is_space.
Definition none_of (l : list N) : regex := Chr (fun x => negb (existsb (N.eqb x) l)).
Definition one_of (l : list N) : regex := Chr (fun x => existsb (N.eqb x) l).
Definition opt (r : regex) : regex := Alt r Eps.
Definition plus (r : regex) : regex := Seq r (Star true r).
Definition word (mk : N -> regex) (s : jsstring) : regex :=
  foldr (fun c r => Seq (mk c) r) Eps s.
Definition seqs (l : list regex) : regex := foldr Seq Eps l.

(** Matcher state: the input still to read, the index reached, and the
    captures made so far (latest first). *)
Record mstate : Type := MState {
  rest : jsstring;
  pos : nat;
  caps : list (nat * jsstring);
}.

Definition capture (i : nat) (st st1 : mstate) : mstate :=
  MState (rest st1) (pos st1)
         ((i, take (pos st1 - pos st) (rest st)) :: caps st1).

(** The iterations of a star whose body is matched by [body]: at most [n]
    more, each consuming at least one code unit (an iteration that
    consumes nothing is rejected, as in RepeatMatcher). A greedy star
    tries one more iteration before the continuation, a lazy one after. *)
Fixpoint star_loop (greedy : bool)
         (body : mstate -> (mstate -> option mstate) -> option mstate)
         (k : mstate -> option mstate) (n : nat) (st : mstate) {struct n}
  : option mstate :=
  match n with
  | O => k st
  | S n' =>
      let again :=
        body st (fun st1 =>
          if (length (rest st1) <? length (rest st))%nat
          then star_loop greedy body k n' st1 else None) in
      if greedy then
        match again with
        | Some x => Some x
        | None => k st
        end
      else
        match k st with
        | Some x => Some x
        | None => again
        end
  end.

(** The backtracking matcher of ECMAScript in continuation-passing style:
    [m r st k] tries the alternatives of [r] in priority order and returns
    the first one the continuation [k] accepts. *)
Fixpoint m (r : regex) (st : mstate) (k : mstate -> option mstate) {struct r}
  : option mstate :=
  match r with
  | Eps => k st
  | Chr p =>
      match rest st with
      | c :: s' => if p c then k (MState s' (S (pos st)) (caps st)) else None
      | [] => None
      end
  | Seq r1 r2 => m r1 st (fun st1 => m r2 st1 k)
  | Alt r1 r2 =>
      match m r1 st k with
      | Some x => Some x
      | None => m r2 st k
      end
  | Star greedy r1 => star_loop greedy (m r1) k (S (length (rest st))) st
  | Group i r1 => m r1 st (fun st1 => k (capture i st st1))
  | Bol => if (pos st =? 0)%nat then k st else None
  | Eol => match rest st with [] => k st | _ :: _ => None end
  end.

(** Result of a successful match: where it starts and ends, and the
    captures. *)
Record mresult : Type := MResult {
  m_start : nat;
  m_end : nat;
  m_caps : list (nat * jsstring);
}.

Definition match_at (r : regex) (s : jsstring) (i : nat) : option mresult :=
  match m r (MState s i []) Some with
  | Some st => Some (MResult i (pos st) (caps st))
  | None => None
  end.

(** [RegExp.prototype.exec] without the [g] and [y] flags: the match
    attempts start at index 0, then 1, and so on up to the length. *)
Fixpoint exec_from (r : regex) (s : jsstring) (i : nat) : option mresult :=
  match match_at r s i with
  | Some res => Some res
  | None =>
      match s with
      | [] => None
      | _ :: s' => exec_from r s' (S i)
      end
  end.

Definition exec (r : regex) (s : jsstring) : option mresult := exec_from r s 0.

(** The value of capture [i]; a group that did not take part is the empty
    string in a replacement. *)
Definition cap (i : nat) (res : mresult) : jsstring :=
  match filter (fun p => bool_decide (p.1 = i)) (m_caps res) with
  | (_, s) :: _ => s
  | [] => []
  end.

(** A replacement template: literal text and [$n] references. *)
Inductive ritem : Type :=
| RLit (s : jsstring)
| RCap (i : nat).

Definition expand (t : list ritem) (res : mresult) : jsstring :=
  concat (map (fun it => match it with RLit s => s | RCap i => cap i res end) t).

(** [s.replace(r, t)] for a pattern without the [g] flag: only the first
    match is replaced. *)
Definition replace (r : regex) (t : list ritem) (s : jsstring) : jsstring :=
  match exec r s with
  | Some res =>
      take (m_start res) s ++ expand t res ++ drop (m_end res) s
  | None => s
  end.

(** [s.replace(r, t)] for a pattern with the [g] flag: every match, from
    left to right; after an empty match the search resumes one code unit
    further. [i] is the index of [s] in the whole subject. *)
Fixpoint replace_all_from (fuel : nat) (r : regex) (t : list ritem)
         (s : jsstring) (i : nat) : jsstring :=
  match fuel with
  | O => s
  | S f =>
      match exec_from r s i with
      | Some res =>
          let before := take (m_start res - i) s in
          let after := drop (m_end res - i) s in
          if (m_end res =? m_start res)%nat then
            match after with
            | [] => before ++ expand t res
            | c :: after' =>
                before ++ expand t res ++ c :: replace_all_from f r t after' (S (m_end res))
            end
          else before ++ expand t res ++ replace_all_from f r t after (m_end res)
      | None => s
      end
  end.

Definition replace_all (r : regex) (t : list ritem) (s : jsstring) : jsstring :=
  replace_all_from (S (length s)) r t s 0.

(** A matcher that calls its continuation only on suffixes of the input
    it was given. *)
Definition on_suffix
           (body : mstate -> (mstate -> option mstate) -> option mstate) : Prop :=
  forall st k x, body st k = Some x ->
    exists st1, k st1 = Some x /\ rest st1 `suffix_of` rest st.

(** A matcher whose result depends on its continuation only through the
    states that hold a suffix of the input. *)
Definition suffix_local
           (body : mstate -> (mstate -> option mstate) -> option mstate) : Prop :=
  forall st k1 k2,
    (forall st1, rest st1 `suffix_of` rest st -> k1 st1 = k2 st1) ->
    body st k1 = body st k2.

(** [s.match(r)] without the [g] flag. *)
Definition match_ (r : regex) (s : jsstring) : option mresult := exec r s.

(** The text matched. *)
Definition matched (s : jsstring) (res : mresult) : jsstring :=
  take (m_end res - m_start res) (drop (m_start res) s).

End Regex.

Import Regex.

(** ** Numbers

    Numbers are IEEE doubles in JavaScript. The embedding does not compute
    with them; the few operations the source applies to numbers are taken
    as an interface, and every theorem holds for every implementation. *)
Class NumberOps : Type := {
  number : Type;
  (** [StringToNumber]: the value of a numeric string; a JSON number
      token is one. *)
  number_of_string : jsstring -> number;
  (** [Number(b)] for a BigInt [b]. *)
  number_of_bigint : Z -> number;
  (** [ToBoolean]: false for [+0], [-0] and [NaN]. *)
  number_truthy : number -> bool;
  (** [n > 0] *)
  number_pos : number -> bool;
  (** Neither [NaN] nor an infinity. *)
  number_finite : number -> bool;
  (** [Number::toString] *)
  number_to_string : number -> jsstring;
}.

(** An implementation of the interface that keeps a number as its decimal
    text. It serves to run the definitions on given inputs; it is exact on
    the inputs used below, which compute with no number. It does not round:
    [number_of_bigint] keeps the digits of a BigInt that [Number] would
    round to a double, so it is not used at an input with a BigInt. *)
Definition DecimalText : NumberOps :=
  {| number := jsstring;
     number_of_string := fun s => s;
     number_of_bigint :=
       fun z => (if (z <? 0)%Z then [45] else []) ++ JsStr.of_N (Z.abs_N z);
     number_truthy := fun s => existsb (fun c => (49 <=? c) && (c <=? 57)) s;
     number_pos :=
       fun s => existsb (fun c => (49 <=? c) && (c <=? 57)) s
                && negb (JsStr.isPrefixOf [45] s);
     number_finite := fun _ => true;
     number_to_string := fun s => s |}.

(** ** Completions: a result or a thrown exception *)

Inductive exn : Type :=
| TypeError
| SyntaxError.

Inductive completion (A : Type) : Type :=
| Normal (a : A)
| Throw (e : exn).

Arguments Normal {A} a.
Arguments Throw {A} e.

Definition bind {A B : Type} (c : completion A) (f : A -> completion B) : completion B :=
  match c with
  | Normal a => f a
  | Throw e => Throw e
  end.

(** [try { c } catch (_) { h }] *)
Definition try_catch {A : Type} (c : completion A) (h : completion A) : completion A :=
  match c with
  | Normal a => Normal a
  | Throw _ => h
  end.

Declare Scope js_scope.
Delimit Scope js_scope with js.
Notation "'let*' x ':=' c 'in' k" := (bind c (fun x => k))
  (at level 10, x name, c at level 100, k at level 200) : js_scope.
Local Open Scope js_scope.

(** ** Values *)

Section Values.

Context {NO : NumberOps}.

(** Plain data: the values [JSON.parse] builds, and [undefined]. The
    properties of an object are kept in insertion order. *)
Inductive value : Type :=
| VUndef
| VNull
| VBool (b : bool)
| VNum (n : number)
| VStr (s : jsstring)
| VArr (l : list value)
| VObj (l : list (jsstring * value)).

(** [ToBoolean] *)
Definition truthy (v : value) : bool :=
  match v with
  | VUndef | VNull => false
  | VBool b => b
  | VNum n => number_truthy n
  | VStr s => match s with [] => false | _ :: _ => true end
  | VArr _ | VObj _ => true
  end.

(** [a || b] and [a ?? b] (the right operands of the source have no
    effects). *)
Definition or_ (a b : value) : value := if truthy a then a else b.

Definition nullish (v : value) : bool :=
  match v with VUndef | VNull => true | _ => false end.

Definition coalesce (a b : value) : value := if nullish a then b else a.

(** [v === null] *)
Definition is_null (v : value) : bool :=
  match v with VNull => true | _ => false end.

(** [typeof v === 'string'] and [typeof v === 'object'] (true of [null]). *)
Definition is_string (v : value) : bool :=
  match v with VStr _ => true | _ => false end.

Definition typeof_object (v : value) : bool :=
  match v with VNull | VArr _ | VObj _ => true | _ => false end.

Fixpoint assoc (k : jsstring) (l : list (jsstring * value)) : value :=
  match l with
  | [] => VUndef
  | (k', v) :: l' => if JsStr.eqb k k' then v else assoc k l'
  end.

(** [v.k], for the property names the source reads other than [length]
    ([final], [tool_calls], [tool], [name], [function], [arguments],
    [args], [id], [toolCalls], [stopReason], [stop_reason], [content],
    [message]): an own property of an object, and [undefined] otherwise,
    since no prototype defines one of these names. Reading a property of
    [undefined] or [null] throws. *)
Definition get (v : value) (k : jsstring) : completion value :=
  match v with
  | VUndef | VNull => Throw TypeError
  | VObj l => Normal (assoc k l)
  | VArr _ | VStr _ | VBool _ | VNum _ => Normal VUndef
  end.

(** [v?.k] *)
Definition getq (v : value) (k : jsstring) : value :=
  match get v k with
  | Normal x => x
  | Throw _ => VUndef
  end.

(** The string [ToString] gives where it gives one. An array is joined
    with commas, [undefined] and [null] elements printing as nothing; an
    object without a [toString] member of its own is printed by
    [Object.prototype.toString]. *)
Fixpoint to_string (v : value) : jsstring :=
  match v with
  | VUndef => js "undefined"
  | VNull => js "null"
  | VBool true => js "true"
  | VBool false => js "false"
  | VNum n => number_to_string n
  | VStr s => s
  | VArr l =>
      (fix join (l : list value) : jsstring :=
         match l with
         | [] => []
         | x :: l' =>
             (if nullish x then [] else to_string x) ++
             match l' with [] => [] | _ :: _ => 44 :: join l' end
         end) l
  | VObj _ => js "[object Object]"
  end.

(** Whether a value has a string form. An object that has a member
    [toString] of its own has none: the member is plain data, which cannot
    be called, and [valueOf], inherited or not, gives no primitive either.
    An array is joined, so it has a string form when its elements other
    than [undefined] and [null] have one. *)
Fixpoint printable (v : value) : bool :=
  match v with
  | VArr l =>
      (fix all (l : list value) : bool :=
         match l with
         | [] => true
         | x :: l' => (nullish x || printable x) && all l'
         end) l
  | VObj l => negb (existsb (fun p => JsStr.eqb (js "toString") p.1) l)
  | _ => true
  end.

(** [ToString], as a template literal applies it: a TypeError for a value
    without a string form. *)
Definition ToString (v : value) : completion jsstring :=
  if printable v then Normal (to_string v) else Throw TypeError.

(** [v > 0]: [ToNumber] of [v], which converts an object or an array
    through its string form. *)
Definition to_number_pos (v : value) : completion bool :=
  match v with
  | VUndef | VNull => Normal false
  | VBool b => Normal b
  | VNum n => Normal (number_pos n)
  | VStr s => Normal (number_pos (number_of_string s))
  | VArr _ | VObj _ =>
      let* s := ToString v in Normal (number_pos (number_of_string s))
  end.

(** [v.length > 0] and the text of [v.length], for a [v] that is neither
    [undefined] nor [null]. *)
Definition length_pos (v : value) : completion bool :=
  match v with
  | VArr l => Normal (0 <? length l)%nat
  | VStr s => Normal (0 <? length s)%nat
  | VObj l => to_number_pos (assoc (js "length") l)
  | _ => Normal false
  end.

Definition length_text (v : value) : completion jsstring :=
  match v with
  | VArr l => Normal (of_nat (length l))
  | VStr s => Normal (of_nat (length s))
  | VObj l => ToString (assoc (js "length") l)
  | _ => Normal (js "undefined")
  end.

(** A property of an object literal of the source. *)
Definition prop (k : string) (v : value) : jsstring * value := (js k, v).

End Values.

(** ** JSON *)

Module JSON.
Section JSON.

Context {NO : NumberOps}.

(** *** [JSON.parse] *)

(** JSON white space: tab, line feed, carriage return, space. *)
Definition is_ws (c : N) : bool := (c =? 9) || (c =? 10) || (c =? 13) || (c =? 32).

Fixpoint skip_ws (s : jsstring) : jsstring :=
  match s with
  | c :: s' => if is_ws c then skip_ws s' else s
  | [] => []
  end.

Definition is_digit (c : N) : bool := (48 <=? c) && (c <=? 57).

Definition hexval (c : N) : option N :=
  if is_digit c then Some (c - 48)
  else if (97 <=? c) && (c <=? 102) then Some (c - 87)
  else if (65 <=? c) && (c <=? 70) then Some (c - 55)
  else None.

Definition hex4 (a b c d : N) : option N :=
  match hexval a, hexval b, hexval c, hexval d with
  | Some x, Some y, Some z, Some w => Some (((x * 16 + y) * 16 + z) * 16 + w)
  | _, _, _, _ => None
  end.

(** The character a single-character escape stands for. *)
Definition unescape (c : N) : option N :=
  if c =? 34 then Some 34
  else if c =? 92 then Some 92
  else if c =? 47 then Some 47
  else if c =? 98 then Some 8
  else if c =? 102 then Some 12
  else if c =? 110 then Some 10
  else if c =? 114 then Some 13
  else if c =? 116 then Some 9
  else None.

(** The characters of a string token after its opening quote: the decoded
    string and the input after the closing quote. *)
Fixpoint parse_chars (s : jsstring) : option (jsstring * jsstring) :=
  match s with
  | [] => None
  | c :: s1 =>
      if c =? 34 then Some ([], s1)
      else if c =? 92 then
        match s1 with
        | [] => None
        | e :: s2 =>
            if e =? 117 then
              match s2 with
              | a :: b :: c' :: d :: s3 =>
                  match hex4 a b c' d with
                  | Some u =>
                      match parse_chars s3 with
                      | Some (t, r) => Some (u :: t, r)
                      | None => None
                      end
                  | None => None
                  end
              | _ => None
              end
            else
              match unescape e with
              | Some u =>
                  match parse_chars s2 with
                  | Some (t, r) => Some (u :: t, r)
                  | None => None
                  end
              | None => None
              end
        end
      else if c <? 32 then None
      else
        match parse_chars s1 with
        | Some (t, r) => Some (c :: t, r)
        | None => None
        end
  end.

Fixpoint digits (s : jsstring) : jsstring * jsstring :=
  match s with
  | c :: s' =>
      if is_digit c then let '(ds, r) := digits s' in (c :: ds, r) else ([], s)
  | [] => ([], [])
  end.

(** One or more digits. *)
Definition digits1 (s : jsstring) : option (jsstring * jsstring) :=
  match digits s with
  | ([], _) => None
  | (ds, r) => Some (ds, r)
  end.

(** The token of a number: an optional minus sign, an integer part (a
    single zero, or a non-zero digit and more digits), an optional
    fraction (a point and one or more digits), an optional exponent (e or
    E, an optional sign, one or more digits). Returns the token and the
    input after it. *)
Definition parse_number (s : jsstring) : option (jsstring * jsstring) :=
  let '(sign, s0) :=
    match s with
    | c :: s' => if c =? 45 then ([45], s') else ([], s)
    | [] => ([], s)
    end in
  let int :=
    match s0 with
    | c :: s' =>
        if c =? 48 then Some ([48], s')
        else if is_digit c then let '(ds, r) := digits s' in Some (c :: ds, r)
        else None
    | [] => None
    end in
  match int with
  | None => None
  | Some (i, s1) =>
      let frac :=
        match s1 with
        | c :: s' =>
            if c =? 46 then
              match digits1 s' with
              | Some (ds, r) => Some (46 :: ds, r)
              | None => None
              end
            else Some ([], s1)
        | [] => Some ([], s1)
        end in
      match frac with
      | None => None
      | Some (f, s2) =>
          let exp :=
            match s2 with
            | c :: s' =>
                if (c =? 101) || (c =? 69) then
                  let '(sg, s'') :=
                    match s' with
                    | c' :: t => if (c' =? 43) || (c' =? 45) then ([c'], t) else ([], s')
                    | [] => ([], s')
                    end in
                  match digits1 s'' with
                  | Some (ds, r) => Some (c :: sg ++ ds, r)
                  | None => None
                  end
                else Some ([], s2)
            | [] => Some ([], s2)
            end in
          match exp with
          | None => None
          | Some (e, s3) => Some (sign ++ i ++ f ++ e, s3)
          end
      end
  end.

(** [CreateDataProperty] while an object is built: a repeated key keeps its
    place and takes the later value. *)
Fixpoint obj_set (k : jsstring) (v : value) (l : list (jsstring * value))
  : list (jsstring * value) :=
  match l with
  | [] => [(k, v)]
  | (k', v') :: l' =>
      if JsStr.eqb k k' then (k', v) :: l' else (k', v') :: obj_set k v l'
  end.

(** The JSON grammar by recursive descent. Every call but the first comes
    after at least one character was read or is the first of its level,
    so fuel above twice the length of the text is never used up. *)
Fixpoint parse_value (fuel : nat) (s : jsstring) {struct fuel}
  : option (value * jsstring) :=
  match fuel with
  | O => None
  | S f =>
      match skip_ws s with
      | [] => None
      | c :: s1 =>
          if c =? 123 then
            match skip_ws s1 with
            | c2 :: s2 =>
                if c2 =? 125 then Some (VObj [], s2) else parse_members f s1 []
            | [] => None
            end
          else if c =? 91 then
            match skip_ws s1 with
            | c2 :: s2 =>
                if c2 =? 93 then Some (VArr [], s2) else parse_elements f s1 []
            | [] => None
            end
          else if c =? 34 then
            match parse_chars s1 with
            | Some (t, r) => Some (VStr t, r)
            | None => None
            end
          else if isPrefixOf (js "true") (c :: s1) then Some (VBool true, drop 4 (c :: s1))
          else if isPrefixOf (js "false") (c :: s1) then Some (VBool false, drop 5 (c :: s1))
          else if isPrefixOf (js "null") (c :: s1) then Some (VNull, drop 4 (c :: s1))
          else
            match parse_number (c :: s1) with
            | Some (tok, r) => Some (VNum (number_of_string tok), r)
            | None => None
            end
      end
  end
with parse_elements (fuel : nat) (s : jsstring) (acc : list value) {struct fuel}
  : option (value * jsstring) :=
  match fuel with
  | O => None
  | S f =>
      match parse_value f s with
      | Some (v, s1) =>
          match skip_ws s1 with
          | c :: s2 =>
              if c =? 44 then parse_elements f s2 (acc ++ [v])
              else if c =? 93 then Some (VArr (acc ++ [v]), s2)
              else None
          | [] => None
          end
      | None => None
      end
  end
with parse_members (fuel : nat) (s : jsstring) (acc : list (jsstring * value))
     {struct fuel} : option (value * jsstring) :=
  match fuel with
  | O => None
  | S f =>
      match skip_ws s with
      | c :: s1 =>
          if c =? 34 then
            match parse_chars s1 with
            | Some (k, s2) =>
                match skip_ws s2 with
                | c2 :: s3 =>
                    if c2 =? 58 then
                      match parse_value f s3 with
                      | Some (v, s4) =>
                          match skip_ws s4 with
                          | c3 :: s5 =>
                              if c3 =? 44 then parse_members f s5 (obj_set k v acc)
                              else if c3 =? 125 then Some (VObj (obj_set k v acc), s5)
                              else None
                          | [] => None
                          end
                      | None => None
                      end
                    else None
                | [] => None
                end
            | None => None
            end
          else None
      | [] => None
      end
  end.

(** [JSON.parse(text)]: one value, white space around it, nothing else. *)
Definition parse (text : jsstring) : completion value :=
  match parse_value (2 + 2 * length text) text with
  | Some (v, r) =>
      match skip_ws r with
      | [] => Normal v
      | _ :: _ => Throw SyntaxError
      end
  | None => Throw SyntaxError
  end.

(** [JSON.parse(v)] for a value that may not be a string: the argument is
    converted with [ToString] first. *)
Definition parse_of (v : value) : completion value :=
  let* text := ToString v in parse text.

(** *** [JSON.stringify] *)

Definition hexdigit (n : N) : N := if n <? 10 then 48 + n else 87 + n.

Definition unicode_escape (c : N) : jsstring :=
  [92; 117; hexdigit (c / 4096 mod 16); hexdigit (c / 256 mod 16);
   hexdigit (c / 16 mod 16); hexdigit (c mod 16)].

Definition is_high (c : N) : bool := (55296 <=? c) && (c <=? 56319).
Definition is_low (c : N) : bool := (56320 <=? c) && (c <=? 57343).

Definition quote_unit (c : N) : jsstring :=
  if c =? 8 then [92; 98]
  else if c =? 9 then [92; 116]
  else if c =? 10 then [92; 110]
  else if c =? 12 then [92; 102]
  else if c =? 13 then [92; 114]
  else if c =? 34 then [92; 34]
  else if c =? 92 then [92; 92]
  else if (c <? 32) || is_high c || is_low c then unicode_escape c
  else [c].

(** [QuoteJSONString] without the surrounding quotes: a surrogate pair is
    kept, a lone surrogate is escaped. *)
Fixpoint quote_body (s : jsstring) : jsstring :=
  match s with
  | [] => []
  | h :: s1 =>
      match s1 with
      | l :: s2 =>
          if is_high h && is_low l then h :: l :: quote_body s2
          else quote_unit h ++ quote_body s1
      | [] => quote_unit h
      end
  end.

Definition quote (s : jsstring) : jsstring := 34 :: quote_body s ++ [34].

(** A canonical array index: decimal digits without a leading zero, below
    2^32 - 1. Such keys come first, in ascending order, when the
    properties of an object are enumerated. *)
Definition index_of_key (k : jsstring) : option N :=
  match k with
  | [] => None
  | c :: k' =>
      if forallb is_digit k && negb ((c =? 48) && negb (bool_decide (k' = []))) then
        let n := fold_left (fun a d => a * 10 + (d - 48)) k 0 in
        if n <? 4294967295 then Some n else None
      else None
  end.

Fixpoint insert_index {A : Type} (n : N) (x : A) (l : list (N * A)) : list (N * A) :=
  match l with
  | [] => [(n, x)]
  | (n', x') :: l' =>
      if n <? n' then (n, x) :: l else (n', x') :: insert_index n x l'
  end.

(** [OrdinaryOwnPropertyKeys] on properties given in insertion order. *)
Definition own_properties {A : Type} (l : list (jsstring * A)) : list (jsstring * A) :=
  let idx :=
    fold_left (fun acc p =>
                 match index_of_key p.1 with
                 | Some n => insert_index n p acc
                 | None => acc
                 end) l [] in
  map snd idx ++ filter (fun p => bool_decide (index_of_key p.1 = None)) l.

Fixpoint join (sep : jsstring) (l : list jsstring) : jsstring :=
  match l with
  | [] => []
  | [x] => x
  | x :: l' => x ++ sep ++ join sep l'
  end.

(** [JSON.stringify(v)] without replacer and indentation; [None] is the
    result [undefined]. *)
Fixpoint stringify (v : value) : option jsstring :=
  match v with
  | VUndef => None
  | VNull => Some (js "null")
  | VBool true => Some (js "true")
  | VBool false => Some (js "false")
  | VNum n => Some (if number_finite n then number_to_string n else js "null")
  | VStr s => Some (quote s)
  | VArr l =>
      let items :=
        (fix go (l : list value) : list jsstring :=
           match l with
           | [] => []
           | x :: l' =>
               match stringify x with
               | Some t => t
               | None => js "null"
               end :: go l'
           end) l in
      Some (js "[" ++ join (js ",") items ++ js "]")
  | VObj l =>
      let members :=
        (fix go (l : list (jsstring * value)) : list (jsstring * option jsstring) :=
           match l with
           | [] => []
           | (k, x) :: l' => (k, stringify x) :: go l'
           end) l in
      let shown :=
        omap (fun p => match p.2 with
                       | Some t => Some (quote p.1 ++ js ":" ++ t)
                       | None => None
                       end) (own_properties members) in
      Some (js "{" ++ join (js ",") shown ++ js "}")
  end.

End JSON.
End JSON.

(** ** [src/llm_providers.js] *)

Module Providers.
Section Providers.

Context {NO : NumberOps}.

Definition ws : regex := Star true space.
Definition backticks : regex := word lit (js "```").

(** The fence pattern shared by the two regular expressions below:
    three backticks, an optional [json] in any case, white space, a lazy
    capture of anything, white space, three backticks. *)
Definition fence : regex :=
  seqs [backticks; opt (word lit_i (js "json")); ws;
        Group 1 (Star false any); ws; backticks].

(** The part of [fence] after the opening backticks and the tag. *)
Definition fence_tail : regex :=
  seqs [ws; Group 1 (Star false any); ws; backticks].

(** The pattern of line 47, which has no anchors. *)
Definition fence_anywhere : regex := fence.

(** The pattern of line 37, anchored at both ends. *)
Definition fence_whole : regex := seqs [Bol; fence; Eol].

(** The pattern of line 95: an object with the one key [final] and a
    string, the string captured lazily. *)
Definition final_re : regex :=
  seqs [lit 123; ws; lit 34; word lit (js "final"); lit 34; ws; lit 58; ws;
        lit 34; Group 1 (Star false any); lit 34; ws; lit 125].

Definition quote_mark : regex := one_of [34; 39].

(** The pattern of line 101: a [tool] or [name] key with a quoted name,
    then an [arguments] key with a brace group or a quoted string. *)
Definition tool_re : regex :=
  seqs [lit 123; ws; quote_mark;
        Group 1 (Alt (word lit (js "tool")) (word lit (js "name")));
        quote_mark; ws; lit 58; ws;
        quote_mark; Group 2 (plus (none_of [34; 39])); quote_mark; ws;
        lit 44; ws; quote_mark; word lit (js "arguments"); quote_mark; ws;
        lit 58; ws;
        Group 3 (Alt (seqs [lit 123; Star true (none_of [125]); lit 125])
                     (seqs [lit 34; Star true (none_of [34]); lit 34]));
        ws; lit 125].

(** [robustParseArgs] (lines 33-43). *)
Definition robustParseArgs (val : value) : completion value :=
  if nullish val then Normal (VObj [])
  else if typeof_object val then Normal val
  else
    match val with
    | VStr v =>
        let s := trim (replace fence_whole [RCap 1] (trim v)) in
        try_catch (JSON.parse s)
          (try_catch (let* inner := JSON.parse s in JSON.parse_of inner)
             (Normal (VObj [])))
    | _ => Normal (VObj [])
    end.

(** The three objects [tryParseToolCall] returns. *)
Definition decision (toolCalls content : value) (stopReason : string) : value :=
  VObj [prop "toolCalls" toolCalls; prop "content" content;
        prop "stopReason" (VStr (js stopReason))].

Definition call (id name args : value) : value :=
  VObj [prop "id" id; prop "name" name; prop "args" args].

(** The variants of a Decision among them: one that carries tool calls,
    and one that carries content. *)
Definition is_tool_calls (d : value) : Prop :=
  exists calls, calls <> [] /\ d = decision (VArr calls) VNull "continue".

Definition is_content (d : value) : Prop :=
  exists text reason, d = decision VNull (VStr text) reason.

(** The callback of [obj.tool_calls.map] (lines 61-68); [now] is the
    reading of [Date.now()]. *)
Definition parse_call (now : N) (c : value) (idx : nat) : completion value :=
  let name :=
    or_ (or_ (getq c (js "name")) (getq c (js "tool")))
        (getq (getq c (js "function")) (js "name")) in
  if negb (truthy name) then Normal VNull
  else
    let argsRaw :=
      coalesce
        (coalesce (coalesce (getq c (js "arguments")) (getq c (js "args")))
                  (getq (getq c (js "function")) (js "arguments")))
        (VObj []) in
    let* args := robustParseArgs argsRaw in
    let id :=
      or_ (or_ (getq c (js "id")) name)
          (VStr (js "parsed-" ++ of_N now ++ js "-" ++ of_nat idx)) in
    Normal (call id name args).

(** [l.map(f)] for a callback that takes the element and its index and
    may throw. *)
Fixpoint map_idx {A : Type} (f : value -> nat -> completion A) (l : list value)
         (idx : nat) : completion (list A) :=
  match l with
  | [] => Normal []
  | x :: l' =>
      let* y := f x idx in
      let* ys := map_idx f l' (S idx) in
      Normal (y :: ys)
  end.

(** The strict parse (lines 51-89). [Some d] is [return d]; [None] means
    the block ends without returning. *)
Definition strict (now : N) (cleaned : jsstring) : completion (option value) :=
  let* obj := JSON.parse cleaned in
  let* final := get obj (js "final") in
  match final with
  | VStr f => Normal (Some (decision VNull (VStr f) "final"))
  | _ =>
      let* tool_calls := get obj (js "tool_calls") in
      let* multi :=
        match tool_calls with
        | VArr l =>
            let* mapped := map_idx (parse_call now) l 0 in
            let calls := filter (fun c => truthy c = true) mapped in
            if (0 <? length calls)%nat
            then Normal (Some (decision (VArr calls) VNull "continue"))
            else Normal None
        | _ => Normal None
        end in
      match multi with
      | Some d => Normal (Some d)
      | None =>
          let* tool := get obj (js "tool") in
          let* name := get obj (js "name") in
          if truthy (or_ tool name) then
            let toolName := or_ tool name in
            let* arguments := get obj (js "arguments") in
            let* args := get obj (js "args") in
            let* toolArgs :=
              robustParseArgs (coalesce (coalesce arguments args) (VObj [])) in
            Normal (Some (decision (VArr [call toolName toolName toolArgs])
                                   VNull "continue"))
          else
            match obj with
            | VStr o =>
                if truthy (VStr (trim o))
                then Normal (Some (decision VNull (VStr (trim o)) "continue"))
                else Normal None
            | _ => Normal None
            end
      end
  end.

(** The second heuristic (lines 101-114). *)
Definition heuristic_tool (cleaned : jsstring) : completion (option value) :=
  match match_ tool_re cleaned with
  | Some toolMatch =>
      let jsonString := matched cleaned toolMatch in
      let* parsed := JSON.parse jsonString in
      let* tool := get parsed (js "tool") in
      let* name := get parsed (js "name") in
      let toolName := or_ tool name in
      let* arguments := get parsed (js "arguments") in
      let* toolArgs := robustParseArgs arguments in
      if truthy toolName
      then Normal (Some (decision (VArr [call toolName toolName toolArgs])
                                  VNull "continue"))
      else Normal None
  | None => Normal None
  end.

(** The number of disjoint runs of three backticks in [s], counted from
    the left; [k] is the number of backticks just read. *)
Fixpoint fences (k : nat) (s : jsstring) : nat :=
  match s with
  | [] => 0
  | c :: s' =>
      if c =? 96 then
        if (2 <=? k)%nat then S (fences 0 s') else fences (S k) s'
      else fences 0 s'
  end.

Definition fence_count (s : jsstring) : nat := fences 0 s.

(** [s] begins with [json], in any case. *)
Definition json_tagged (s : jsstring) : bool :=
  prefix_by (fun c x => upper x =? upper c) (js "json") s.

(** How the text after an opening fence begins: with the tag [json], or
    with a body that does not begin so. *)
Definition tag_ok (tag body : jsstring) : Prop :=
  (tag = [] /\ json_tagged body = false) \/
  (json_tagged tag = true /\ length tag = 4%nat).

(** The first step (line 47): the text the later steps work on. *)
Definition cleaned (text : jsstring) : jsstring :=
  trim (replace fence_anywhere [RCap 1] text).

(** The JSON text of an object whose one member [final] is the string [x],
    as [JSON.stringify] writes the string. *)
Definition final_text (x : jsstring) : jsstring :=
  jsq "{'final':" ++ JSON.quote x ++ js "}".

(** The outer [try] block (lines 45-119). *)
Definition attempts (now : N) (text : jsstring) : completion (option value) :=
  let cleaned := cleaned text in
  let* parsed := try_catch (strict now cleaned) (Normal None) in
  match parsed with
  | Some d => Normal (Some d)
  | None =>
      match match_ final_re cleaned with
      | Some finalMatch =>
          Normal (Some (decision VNull (VStr (cap 1 finalMatch)) "final"))
      | None =>
          let* found := heuristic_tool cleaned in
          match found with
          | Some d => Normal (Some d)
          | None =>
              if truthy (VStr cleaned)
              then Normal (Some (decision VNull (VStr cleaned) "continue"))
              else Normal None
          end
      end
  end.

(** [tryParseToolCall(text)] for a string [text] (so that [text || '']
    is [text]). *)
Definition tryParseToolCall (now : N) (text : jsstring) : completion value :=
  let* r := try_catch (attempts now text) (Normal None) in
  match r with
  | Some d => Normal d
  | None => Normal (decision VNull (VStr text) "continue")
  end.

End Providers.
End Providers.

(** ** [src/agent.js]: the observation sanitizer *)

Module Sanitizer.

(** The address of an object. *)
Abbreviation loc := nat (only parsing).

Section Sanitizer.

Context {NO : NumberOps}.

(** What a tool may return: primitives, and references to objects and
    arrays that live in a heap, so that a value may be shared or cyclic.
    [HFun] is a function, which [JSON.stringify] leaves out as the value
    of a member. Objects have no accessors. *)

Inductive hvalue : Type :=
| HUndef
| HNull
| HBool (b : bool)
| HNum (n : number)
| HBigInt (z : Z)
| HStr (s : jsstring)
| HFun
| HRef (l : loc).

Inductive hobject : Type :=
| HObject (props : list (jsstring * hvalue))
| HArray (elems : list hvalue).

Local Abbreviation heap := (gmap loc hobject) (only parsing).

(** A location the heap does not define stands for an object without
    properties. *)
Definition deref (h : heap) (l : loc) : hobject := default (HObject []) (h !! l).

(** The objects of the heap are plain data: none has a member [toJSON]
    that is a function. [JSON.stringify] calls such a method before the
    replacer and serializes what it returns in place of the object; the
    serialization below is that of plain data, and what is stated of a
    serialized text is stated for a heap of plain data. *)
Definition plain_data (h : heap) : Prop :=
  forall l props, h !! l = Some (HObject props) -> (js "toJSON", HFun) ∉ props.

Definition ellipsis : jsstring := [8230].

(** [escAndTrunc] (lines 42-52). Its argument is a string or [undefined]
    ([None]), for which [String(s ?? '')] is the empty string. *)
Definition escAndTrunc (limit : nat) (s : option jsstring) : jsstring :=
  let s := match s with Some s => s | None => [] end in
  let safe :=
    replace_all (lit 62) [RLit (js ">")]
      (replace_all (lit 60) [RLit (js "<")]
         (replace_all (lit 38) [RLit (js "&")] s)) in
  if (limit <? length safe)%nat then slice0 limit safe ++ ellipsis else safe.

Definition circular : jsstring := js "[Circular]".

(** The replacer of lines 65-72; [seen] is the [WeakSet]. *)
Definition replacer (seen : gset loc) (val : hvalue) : hvalue * gset loc :=
  match val with
  | HBigInt z => (HNum (number_of_bigint z), seen)
  | HRef l =>
      if bool_decide (l ∈ seen) then (HStr circular, seen)
      else (val, {[l]} ∪ seen)
  | _ => (val, seen)
  end.

(** Outcome of a serialization: a text or [undefined] with the objects
    seen so far, an exception, or [SStuck] when the fuel given to the
    traversal is used up. *)
Inductive sres : Type :=
| SStuck
| SThrow (e : exn)
| SOk (text : option jsstring) (seen : gset loc).

Definition gap : jsstring := js "  ".

Definition wrap (open close indent stepback : jsstring) (partial : list jsstring)
  : jsstring :=
  match partial with
  | [] => open ++ close
  | _ :: _ =>
      open ++ [10] ++ indent ++ JSON.join ([44; 10] ++ indent) partial
           ++ [10] ++ stepback ++ close
  end.

(** The members of an object, in order: [rec] serializes the value of a
    property, a property whose value serializes to [undefined] is left
    out, and [finish] makes the text of the object from the texts of its
    members. *)
Fixpoint members_loop (rec : gset loc -> hvalue -> sres)
         (finish : list jsstring -> jsstring)
         (ps : list (jsstring * hvalue)) (seen : gset loc)
         (partial : list jsstring) {struct ps} : sres :=
  match ps with
  | [] => SOk (Some (finish partial)) seen
  | (k, x) :: ps' =>
      match rec seen x with
      | SOk (Some t) seen' =>
          members_loop rec finish ps' seen' (partial ++ [JSON.quote k ++ js ": " ++ t])
      | SOk None seen' => members_loop rec finish ps' seen' partial
      | r => r
      end
  end.

(** The elements of an array, in order; an element that serializes to
    [undefined] is written [null]. *)
Fixpoint elements_loop (rec : gset loc -> hvalue -> sres)
         (finish : list jsstring -> jsstring)
         (xs : list hvalue) (seen : gset loc)
         (partial : list jsstring) {struct xs} : sres :=
  match xs with
  | [] => SOk (Some (finish partial)) seen
  | x :: xs' =>
      match rec seen x with
      | SOk (Some t) seen' => elements_loop rec finish xs' seen' (partial ++ [t])
      | SOk None seen' => elements_loop rec finish xs' seen' (partial ++ [js "null"])
      | r => r
      end
  end.

(** [SerializeJSONProperty] of [JSON.stringify(value, replacer, 2)] on the
    value [val] of a property, for plain data (no [toJSON] method is
    looked for): the replacer is applied; an object is serialized member
    by member with the indentation grown by two spaces; [stack] holds the
    objects being serialized, and meeting one of them again is the
    TypeError of a cyclic structure. *)
Fixpoint ser (fuel : nat) (h : heap) (stack : list loc) (indent : jsstring)
         (seen : gset loc) (val : hvalue) {struct fuel} : sres :=
  match fuel with
  | O => SStuck
  | S f =>
      let '(v, seen1) := replacer seen val in
      match v with
      | HUndef | HFun => SOk None seen1
      | HNull => SOk (Some (js "null")) seen1
      | HBool true => SOk (Some (js "true")) seen1
      | HBool false => SOk (Some (js "false")) seen1
      | HNum n =>
          SOk (Some (if number_finite n then number_to_string n else js "null")) seen1
      | HBigInt _ => SThrow TypeError
      | HStr s => SOk (Some (JSON.quote s)) seen1
      | HRef l =>
          if bool_decide (l ∈ stack) then SThrow TypeError
          else
            let stepback := indent in
            let indent := indent ++ gap in
            match deref h l with
            | HObject props =>
                members_loop (ser f h (l :: stack) indent)
                             (wrap (js "{") (js "}") indent stepback)
                             (JSON.own_properties props) seen1 []
            | HArray elems =>
                elements_loop (ser f h (l :: stack) indent)
                              (wrap (js "[") (js "]") indent stepback)
                              elems seen1 []
            end
      end
  end.

(** A reference from the object at [x] to the object at [y]: the value of
    a property or an element. *)
Definition edge (h : heap) (x y : loc) : Prop :=
  match deref h x with
  | HObject props => exists k, (k, HRef y) ∈ props
  | HArray elems => HRef y ∈ elems
  end.

(** Following references from [x] one comes back to an object already met:
    one of [seen], or one on the way. With nothing seen, this says that the
    object at [x] contains a reference to itself, directly or through the
    objects it contains. *)
Inductive returns_to (h : heap) (seen : gset loc) : loc -> Prop :=
| returns_here x : x ∈ seen -> returns_to h seen x
| returns_later x y :
    edge h x y -> returns_to h ({[x]} ∪ seen) y -> returns_to h seen x.

Definition self_referencing (h : heap) (l : loc) : Prop := returns_to h ∅ l.

(** [JSON.stringify(value, replacer, 2)] with a fresh [WeakSet]. No chain
    of nested objects is longer than the number of objects of the heap
    plus one, which is the fuel given. *)
Definition stringify_seen (h : heap) (value : hvalue) : sres :=
  ser (S (S (size h))) h [] [] ∅ value.

(** The fuel is more than the number of objects of the heap not yet seen,
    and the objects being serialized have all been seen. *)
Definition good (fuel : nat) (h : heap) (stack : list loc) (seen : gset loc) : Prop :=
  (size (dom h ∖ seen) < fuel)%nat /\ (forall x, x ∈ stack -> x ∈ seen).

(** [rec] serializes the value [y] to a text in which [w] occurs, whatever
    has been seen in the meantime, as long as [G] holds. *)
Definition marked (rec : gset loc -> hvalue -> sres) (G : gset loc -> Prop)
           (w : jsstring) (seen : gset loc) (y : hvalue) : Prop :=
  forall seen', seen ⊆ seen' -> G seen' ->
    exists t s', rec seen' y = SOk (Some t) s' /\ contains w t.

(** The values [sanitizeObservation] hands to [JSON.stringify]: all but
    [undefined], [null], strings, numbers and booleans. *)
Definition serialized (v : hvalue) : bool :=
  match v with
  | HUndef | HNull | HStr _ | HNum _ | HBool _ => false
  | HBigInt _ | HFun | HRef _ => true
  end.

(** [String(value)] for a primitive. *)
Definition string_of_primitive (value : hvalue) : jsstring :=
  match value with
  | HStr s => s
  | HNum n => number_to_string n
  | HBool true => js "true"
  | HBool false => js "false"
  | _ => []
  end.

(** [sanitizeObservation] (lines 39-79). [String_] is [String(value)] for
    a value that is not one of the primitives above; it runs the
    conversion methods of an object and may throw. *)
Definition sanitizeObservation (String_ : heap -> hvalue -> completion jsstring)
           (limit : nat) (h : heap) (value : hvalue) : jsstring :=
  match value with
  | HUndef | HNull => []
  | HStr _ | HNum _ | HBool _ => escAndTrunc limit (Some (string_of_primitive value))
  | _ =>
      match stringify_seen h value with
      | SOk json _ => escAndTrunc limit json
      | _ =>
          match String_ h value with
          | Normal s => escAndTrunc limit (Some s)
          | Throw _ => []
          end
      end
  end.

End Sanitizer.

(** The objects a value refers to, by address. *)
Abbreviation heap := (gmap loc hobject) (only parsing).

End Sanitizer.

(** ** [src/agent.js]: the loop controller *)

Module Agent.
Section Agent.

Context {NO : NumberOps}.

Import Sanitizer.

(** Everything outside the agent: the planner behind the provider, the
    state the tools share, the clock and the random sources. *)
Context {world : Type}.

(** How the promise of a tool stands when the race of [runWithTimeout]
    is decided: fulfilled, rejected (or thrown) with [e], or still
    pending when the timer fires. *)
Inductive outcome : Type :=
| Resolved (h : heap) (v : hvalue)
| Rejected (e : value)
| Pending.

(** The [function] member of a tool; the description and the usage are
    not read by the agent. *)
Record tool_function : Type := ToolFunction {
  fn_name : jsstring;
  implementation : value -> world -> outcome * world;
}.

Record environment : Type := Environment {
  (** [llmProvider.getCompletion(history, tools)] *)
  getCompletion : list value -> world -> completion value * world;
  (** [crypto.randomUUID], when the runtime has it *)
  randomUUID : option (world -> jsstring * world);
  (** [Date.now()] *)
  Date_now : world -> N;
  (** [Math.random().toString(36).slice(2)] *)
  Math_random36 : world -> jsstring * world;
  (** [String(value)] for an object *)
  String_ : heap -> hvalue -> completion jsstring;
}.

Variable env : environment.

(** The fields of an [Agent]. The two callbacks are modelled by the lists
    of the calls they received; [planned] counts the calls of the
    provider. *)
Record agent : Type := MkAgent {
  tools : list (option tool_function);
  registry : gmap jsstring tool_function;
  history : list value;
  maxTurns : nat;
  toolTimeoutMs : N;
  obsTruncateChars : nat;
  thoughts : list jsstring;
  messages : list (jsstring * jsstring);
  planned : nat;
  w : world;
}.

(** The constructor (lines 6-21): a tool without [function] member
    ([None]) is filtered out, and a later tool replaces an earlier one of
    the same name. *)
Definition new_Agent (tools : list (option tool_function)) (w : world) : agent :=
  {| tools := tools;
     registry := foldl (fun r f => <[fn_name f := f]> r) ∅ (omap id tools);
     history := [];
     maxTurns := 10;
     toolTimeoutMs := 10000;
     obsTruncateChars := 3000;
     thoughts := [];
     messages := [];
     planned := 0;
     w := w |}.

Definition set_history (f : list value -> list value) (a : agent) : agent :=
  MkAgent (tools a) (registry a) (f (history a)) (maxTurns a) (toolTimeoutMs a)
          (obsTruncateChars a) (thoughts a) (messages a) (planned a) (w a).

Definition set_thoughts (f : list jsstring -> list jsstring) (a : agent) : agent :=
  MkAgent (tools a) (registry a) (history a) (maxTurns a) (toolTimeoutMs a)
          (obsTruncateChars a) (f (thoughts a)) (messages a) (planned a) (w a).

Definition set_messages (f : list (jsstring * jsstring) -> list (jsstring * jsstring))
           (a : agent) : agent :=
  MkAgent (tools a) (registry a) (history a) (maxTurns a) (toolTimeoutMs a)
          (obsTruncateChars a) (thoughts a) (f (messages a)) (planned a) (w a).

Definition set_world (x : world) (a : agent) : agent :=
  MkAgent (tools a) (registry a) (history a) (maxTurns a) (toolTimeoutMs a)
          (obsTruncateChars a) (thoughts a) (messages a) (planned a) x.

Definition count_plan (a : agent) : agent :=
  MkAgent (tools a) (registry a) (history a) (maxTurns a) (toolTimeoutMs a)
          (obsTruncateChars a) (thoughts a) (messages a) (S (planned a)) (w a).

(** Methods: the agent is threaded, and a call completes normally or
    throws. *)
Definition M (A : Type) : Type := agent -> completion A * agent.

Definition ret {A : Type} (x : A) : M A := fun a => (Normal x, a).

Definition mbind {A B : Type} (c : M A) (f : A -> M B) : M B :=
  fun a =>
    match c a with
    | (Normal x, a') => f x a'
    | (Throw e, a') => (Throw e, a')
    end.

Definition lift {A : Type} (c : completion A) : M A := fun a => (c, a).

Definition read {A : Type} (f : agent -> A) : M A := fun a => (Normal (f a), a).

Definition modify (f : agent -> agent) : M unit := fun a => (Normal tt, f a).

Notation "'let!' x ':=' c 'in' k" := (mbind c (fun x => k))
  (at level 10, x name, c at level 100, k at level 200).
Notation "c ';;' k" := (mbind c (fun _ => k))
  (at level 100, k at level 200, right associativity).

Definition push (turn : value) : M unit := modify (set_history (fun h => h ++ [turn])).
Definition onThought (t : jsstring) : M unit := modify (set_thoughts (fun l => l ++ [t])).
Definition onMessage (role : string) (t : jsstring) : M unit :=
  modify (set_messages (fun l => l ++ [(js role, t)])).

(** [await this.llmProvider.getCompletion(this.history, this.tools)] *)
Definition plan : M value :=
  fun a =>
    let '(r, w') := getCompletion env (history a) (w a) in
    (r, set_world w' (count_plan a)).

(** A normalized call [{ id, name, args }]. *)
Record ncall : Type := NCall { id : value; name : value; args : value }.

(** The generated id of lines 117-119. *)
Definition generate_id (i idx : nat) : M value :=
  fun a =>
    match randomUUID env with
    | Some uuid =>
        let '(u, w') := uuid (w a) in (Normal (VStr u), set_world w' a)
    | None =>
        let now := Date_now env (w a) in
        let '(r, w') := Math_random36 env (w a) in
        (Normal (VStr (js "call-" ++ of_nat i ++ js "-" ++ of_nat idx ++ js "-"
                          ++ of_N now ++ js "-" ++ r)),
         set_world w' a)
    end.

(** The callback of [toolCalls.map] (lines 102-122). *)
Definition normalize (i : nat) (call : value) (idx : nat) : M ncall :=
  let! n := lift (get call (js "name")) in
  let! t := lift (get call (js "tool")) in
  let name := or_ n t in
  let! a1 := lift (get call (js "args")) in
  let! a2 := lift (get call (js "arguments")) in
  let args := coalesce (coalesce a1 a2) (VObj []) in
  let! args :=
    match args with
    | VStr v =>
        let s := trim (replace Providers.fence_whole [RCap 1] (trim v)) in
        lift (try_catch (JSON.parse s)
                (try_catch (let* inner := JSON.parse s in JSON.parse_of inner)
                   (Normal (VObj []))))
    | _ => ret args
    end in
  let args :=
    if negb (typeof_object args) || is_null args then VObj [] else args in
  let! cid := lift (get call (js "id")) in
  let! id := if truthy cid then ret cid else generate_id i idx in
  ret (NCall id name args).

Fixpoint map_idx {A : Type} (f : value -> nat -> M A) (l : list value) (idx : nat)
  : M (list A) :=
  match l with
  | [] => ret []
  | x :: l' =>
      let! y := f x idx in
      let! ys := map_idx f l' (S idx) in
      ret (y :: ys)
  end.

Definition stringified (v : value) : value :=
  match JSON.stringify v with
  | Some s => VStr s
  | None => VUndef
  end.

Definition stringified_text (v : value) : jsstring := to_string (stringified v).

(** The assistant message of lines 126-133. *)
Definition assistant_calls (normalizedCalls : list ncall) : value :=
  VObj [prop "role" (VStr (js "assistant"));
       prop "content" (VStr []);
       prop "tool_calls" (VArr (map (fun c =>
                      VObj [prop "id" (id c);
                           prop "function" (VObj [prop "name" (name c);
                                  prop "arguments" (stringified (args c))])])
                   normalizedCalls))].

Definition tool_turn (c : ncall) (text : jsstring) : value :=
  VObj [prop "role" (VStr (js "tool"));
       prop "tool_call_id" (id c);
       prop "content" (VStr (js "OBSERVATION[" ++ to_string (name c) ++ js "]: " ++ text))].

(** [this.registry.get(c.name)]: the keys are the names of the tools,
    which are strings. *)
Definition registry_get (a : agent) (n : value) : option tool_function :=
  match n with
  | VStr s => registry a !! s
  | _ => None
  end.

(** [await this.runWithTimeout(fn.implementation(c.args), ms)] inside the
    [try] of lines 151-155: the result, or the text made from the
    exception, which is also the timeout error of line 30. *)
Definition execute (fn : tool_function) (c : ncall) : M (heap * hvalue) :=
  let! ms := read toolTimeoutMs in
  let! o := (fun a => let '(o, w') := implementation fn (args c) (w a) in
                      (Normal o, set_world w' a)) in
  let failed (e : value) : M (heap * hvalue) :=
    let! n := lift (ToString (name c)) in
    let! msg := lift (get e (js "message")) in
    let! reason := lift (ToString msg) in
    ret (∅, HStr (js "Tool '" ++ n ++ js "' failed: " ++ reason)) in
  match o with
  | Resolved h v => ret (h, v)
  | Rejected e => failed e
  | Pending =>
      failed (VObj [prop "message" (VStr (js "tool timeout after " ++ of_N ms ++ js "ms"))])
  end.

(** The body of the loop of lines 136-164. *)
Definition dispatch (c : ncall) : M unit :=
  let! fn := read (fun a => registry_get a (name c)) in
  match fn with
  | None =>
      let! n := lift (ToString (name c)) in
      let msg := js "Unknown tool '" ++ n ++ js "'. Please choose a listed tool." in
      onThought (js "[act] " ++ msg) ;;
      push (tool_turn c msg)
  | Some fn =>
      let! n := lift (ToString (name c)) in
      onThought (js "[act] Executing " ++ n ++ js " " ++ stringified_text (args c)) ;;
      let! result := execute fn c in
      let! limit := read obsTruncateChars in
      let obsText := sanitizeObservation (String_ env) limit result.1 result.2 in
      onThought (js "[observe] " ++ n ++ js " => "
                    ++ slice0 120 obsText
                    ++ (if (120 <? length obsText)%nat then ellipsis else [])) ;;
      push (tool_turn c obsText)
  end.

Fixpoint for_each {A : Type} (f : A -> M unit) (l : list A) : M unit :=
  match l with
  | [] => ret tt
  | x :: l' => f x ;; for_each f l'
  end.

(** How one round of the loop ends: [continue] (or the end of the body),
    or [return]. *)
Inductive control : Type := Continue | Return.

Definition final_words : list jsstring :=
  [js "final"; js "stop"; js "completed"; js "end"; js "done"].

(** [isFinal] (line 177). The words are ASCII and no other character
    lowers to one of their letters, so lowering the ASCII letters gives
    the same answer as [toLowerCase]. A truthy value that is not a string
    has no [toLowerCase] method. *)
Definition isFinal (s : value) : completion bool :=
  match or_ s (VStr []) with
  | VStr x => Normal (bool_decide (map lower x ∈ final_words))
  | _ => Throw TypeError
  end.

(** One round of the loop after the planner has answered with [step]
    (lines 92-187). *)
Definition handle (i : nat) (step : value) : M control :=
  let! tc1 := lift (get step (js "toolCalls")) in
  let! tc2 := lift (get step (js "tool_calls")) in
  let toolCalls := or_ (or_ tc1 tc2) (VArr []) in
  let! sr1 := lift (get step (js "stopReason")) in
  let! sr2 := lift (get step (js "stop_reason")) in
  let stopReason := or_ (or_ sr1 sr2) (VStr (js "continue")) in
  let! content := lift (get step (js "content")) in
  let! proposed := if truthy toolCalls then lift (length_pos toolCalls) else ret false in
  if proposed then
    let! n := lift (length_text toolCalls) in
    onThought (js "[plan] Model proposed " ++ n ++ js " tool call(s).") ;;
    match toolCalls with
    | VArr l =>
        let! mapped := map_idx (normalize i) l 0 in
        let normalizedCalls := filter (fun c => truthy (name c) = true) mapped in
        push (assistant_calls normalizedCalls) ;;
        for_each dispatch normalizedCalls ;;
        ret Continue
    | _ => lift (Throw TypeError)
    end
  else
    match content with
    | VStr (c :: cs) =>
        let! reason := lift (ToString stopReason) in
        onThought (js "[reflect] Model produced content. stopReason=" ++ reason) ;;
        onMessage "agent" (c :: cs) ;;
        push (VObj [prop "role" (VStr (js "assistant")); prop "content" content]) ;;
        let! fin := lift (isFinal stopReason) in
        if fin then ret Return else ret Continue
    | _ =>
        onThought (js "[plan] Model produced no content and no tool. Replanning.") ;;
        push (VObj [prop "role" (VStr (js "assistant"));
                   prop "content" (VStr (js "No valid next action. Replanning with constraints."))]) ;;
        ret Continue
    end.

(** One round of the loop (lines 90-187). *)
Definition round (i : nat) : M control :=
  let! step := plan in
  handle i step.

Definition stuck : jsstring :=
  js "I seem to be stuck in a loop. Please try rephrasing your query.".

(** The [for] loop of line 89 from round [i], with [n] rounds left, and
    the statement after it. *)
Fixpoint rounds (n i : nat) : M unit :=
  match n with
  | O => onMessage "agent" stuck
  | S n' =>
      let! c := round i in
      match c with
      | Return => ret tt
      | Continue => rounds n' (S i)
      end
  end.

(** [run(userInput)] (lines 85-191). *)
Definition run (userInput : jsstring) : M unit :=
  modify (set_history (fun _ => [VObj [prop "role" (VStr (js "user"));
                                      prop "content" (VStr userInput)]])) ;;
  onMessage "user" userInput ;;
  let! n := read maxTurns in
  rounds n 0.

(** The branch of [handle] for tool calls (lines 97-168), when the calls
    are the array [l]. *)
Definition act (i : nat) (l : list value) : M control :=
  onThought (js "[plan] Model proposed " ++ of_nat (length l) ++ js " tool call(s).") ;;
  let! mapped := map_idx (normalize i) l 0 in
  let normalizedCalls := filter (fun c => truthy (name c) = true) mapped in
  push (assistant_calls normalizedCalls) ;;
  for_each dispatch normalizedCalls ;;
  ret Continue.

(** *** What the claims say about a history *)

(** The role of a turn, the ids of the calls an assistant turn issues, and
    the id a tool turn answers. *)
Definition turn_role (t : value) : jsstring :=
  match getq t (js "role") with
  | VStr r => r
  | _ => []
  end.

Definition call_ids (t : value) : list value :=
  match getq t (js "tool_calls") with
  | VArr l => map (fun c => getq c (js "id")) l
  | _ => []
  end.

(** The ids a tool turn may answer after the turn [t], when [ids] were the
    ids before it: those of the last assistant turn, as long as only tool
    turns have followed it. *)
Definition ids_after_turn (ids : list value) (t : value) : list value :=
  if JsStr.eqb (turn_role t) (js "tool") then ids
  else if JsStr.eqb (turn_role t) (js "assistant") then call_ids t
  else [].

Definition ids_after (ids : list value) (h : list value) : list value :=
  foldl ids_after_turn ids h.

(** A turn is in order after turns that leave the ids [ids]: a tool turn
    answers one of them, and an assistant turn has a string as content. *)
Definition turn_ok (ids : list value) (t : value) : Prop :=
  if JsStr.eqb (turn_role t) (js "tool") then getq t (js "tool_call_id") ∈ ids
  else if JsStr.eqb (turn_role t) (js "assistant")
       then is_string (getq t (js "content")) = true
       else True.

(** Every tool turn of [h] answers a call of the assistant turn before it,
    and every assistant turn has a string as content. *)
Fixpoint linked (ids : list value) (h : list value) : Prop :=
  match h with
  | [] => True
  | t :: h' => turn_ok ids t /\ linked (ids_after_turn ids t) h'
  end.

(** *** Reasoning about methods *)

(** [c] leaves the part [proj] of the agent as it is. *)
Definition preserves {A X : Type} (proj : agent -> X) (c : M A) : Prop :=
  forall a, proj (c a).2 = proj a.

(** From an agent with [P], [c] leads to an agent with [Q], however it
    completes. *)
Definition leads {A : Type} (P : agent -> Prop) (c : M A) (Q : agent -> Prop) : Prop :=
  forall a, P a -> Q (c a).2.

(** [c] keeps the invariant [I], however it completes. *)
Definition keeps {A : Type} (I : agent -> Prop) (c : M A) : Prop := leads I c I.

(** A part of the agent that is neither the world, nor the count of the
    plans, nor the thoughts. *)
Definition quiet {X : Type} (proj : agent -> X) : Prop :=
  (forall x a, proj (set_world x a) = proj a) /\
  (forall a, proj (count_plan a) = proj a) /\
  (forall f a, proj (set_thoughts f a) = proj a).

(** The history is in order, and leaves the ids [ids]. *)
Definition in_order (ids : list value) (a : agent) : Prop :=
  linked [] (history a) /\ ids_after [] (history a) = ids.

(** [c] does not end the run: it does not complete with [return]. *)
Definition goes_on (c : M control) : Prop :=
  forall a, (c a).1 <> Normal Return.

End Agent.

Arguments agent {NO} world.
Arguments M {NO} world A.
Arguments environment {NO} world.
Arguments tool_function {NO} world.
End Agent.

(** An object with a long string and a reference to itself, and an object
    with only the reference. *)
Definition long_cyclic : gmap nat (@Sanitizer.hobject DecimalText) :=
  {[ 0%nat := Sanitizer.HObject [(JsStr.js "a", Sanitizer.HStr (repeat 120 3000));
                                 (JsStr.js "self", Sanitizer.HRef 0)] ]}.

Definition small_cyclic : gmap nat (@Sanitizer.hobject DecimalText) :=
  {[ 0%nat := Sanitizer.HObject [(JsStr.js "self", Sanitizer.HRef 0)] ]}.

Definition no_String (h : gmap nat (@Sanitizer.hobject DecimalText))
           (v : @Sanitizer.hvalue DecimalText) : completion jsstring :=
  Throw TypeError.

(** A planner that answers with the texts of [script], one per call, each
    text parsed by [tryParseToolCall], and with the plain content [idle]
    when the script is over; the world is the number of answers given. *)
Definition scripted (script : list jsstring) : Agent.environment (NO := DecimalText) nat :=
  {| Agent.getCompletion := fun _ n =>
       (match script !! n with
        | Some text => Providers.tryParseToolCall 0 text
        | None => Normal (Providers.decision VNull (VStr (JsStr.js "idle")) "continue")
        end, S n);
     Agent.randomUUID := Some (fun n => (JsStr.js "uuid-" ++ JsStr.of_nat n, S n));
     Agent.Date_now := fun _ => 0;
     Agent.Math_random36 := fun n => (JsStr.js "r", n);
     Agent.String_ := no_String |}.

(** A planner that always answers with the plain content [idle] and the
    stopReason [continue]. *)
Definition idle_planner : Agent.environment (NO := DecimalText) nat :=
  {| Agent.getCompletion := fun _ n =>
       (Normal (Providers.decision VNull (VStr (JsStr.js "idle")) "continue"), S n);
     Agent.randomUUID := None;
     Agent.Date_now := fun _ => 0;
     Agent.Math_random36 := fun n => (JsStr.js "r", n);
     Agent.String_ := no_String |}.

(** A name without a string form, as [JSON.parse] builds it from the text
    of a planner, and a planner text that calls a tool of that name. *)
Definition unprintable_name : value (NO := DecimalText) :=
  VObj [prop "toString" (VStr (JsStr.js "x"))].

Definition unprintable_call : jsstring :=
  JsStr.jsq "{'tool':{'toString':'x'},'arguments':{}}".

(** A stand-in for the calculator of the repository. *)
Definition calculator_stub : Agent.tool_function (NO := DecimalText) nat :=
  {| Agent.fn_name := JsStr.js "calculator";
     Agent.implementation := fun _ n =>
       (Agent.Resolved ∅ (Sanitizer.HStr (JsStr.js "Result: 4")), n) |}.

(** Two calls of the same tool, without ids. *)
Definition two_calculator_calls : jsstring :=
  JsStr.jsq "{'tool_calls':[{'name':'calculator','arguments':{'expression':'1+3'}},{'name':'calculator','arguments':{'expression':'2+2'}}]}".

(** The run of the agent on the two calls followed by a final answer. *)
Definition two_calls_run : completion unit * Agent.agent (NO := DecimalText) nat :=
  Agent.run (scripted [two_calculator_calls; JsStr.jsq "{'final':'4'}"])
            (JsStr.js "1+3 and 2+2")
            (Agent.new_Agent [Some calculator_stub] 0%nat).

(** The history [run] leaves is in order when no tool turn answers a call
    that was not issued. *)
Definition ordered {NO : NumberOps} {world : Type} (a : Agent.agent world) : Prop :=
  Agent.linked [] (Agent.history a).


(** ** More of [src/agent.js] and [src/llm_providers.js]: turns, texts and shared objects *)

Section AgentTurns.

Import Sanitizer Agent.

Context {NO : NumberOps} {world : Type}.

(** The three turns [run] writes itself: the user turn of line 86, the
    assistant turn of line 174 and the assistant turn of line 187. *)
Definition user_turn (userInput : jsstring) : value :=
  VObj [prop "role" (VStr (js "user")); prop "content" (VStr userInput)].

Definition content_turn (content : jsstring) : value :=
  VObj [prop "role" (VStr (js "assistant")); prop "content" (VStr content)].

Definition replanning_turn : value :=
  VObj [prop "role" (VStr (js "assistant"));
        prop "content" (VStr (js "No valid next action. Replanning with constraints."))].

(** A decision without tool calls: neither [toolCalls] nor [tool_calls]
    holds a value with a positive length. *)
Definition no_tool_calls (step : value) : Prop :=
  let toolCalls := or_ (or_ (getq step (js "toolCalls")) (getq step (js "tool_calls")))
                       (VArr []) in
  length_pos toolCalls = Normal false.

(** The content of a decision is a non-empty string. *)
Definition has_content (step : value) : bool :=
  match getq step (js "content") with
  | VStr (_ :: _) => true
  | _ => false
  end.

(** A part of the agent that no setter but its own touches: the world, the
    thoughts, the history and the messages may change beside it. *)
Definition steady {X : Type} (proj : agent world -> X) : Prop :=
  (forall x a, proj (set_world x a) = proj a) /\
  (forall f a, proj (set_thoughts f a) = proj a) /\
  (forall f a, proj (set_history f a) = proj a) /\
  (forall f a, proj (set_messages f a) = proj a).

(** [c] only appends to the list [proj] of the agent. *)
Definition grows {A X : Type} (proj : agent world -> list X) (c : M world A) : Prop :=
  forall a, proj a `prefix_of` proj (c a).2.

(** A normalized call as the loop needs it: a truthy name, and arguments
    that are an object or an array. *)
Definition well_formed (c : ncall) : Prop :=
  truthy (name c) = true /\ typeof_object (args c) = true /\ is_null (args c) = false /\
  is_string (stringified (args c)) = true.

(** From an agent with [I], [c] completes normally, and leads to an
    agent with [I]. *)
Definition completes {A : Type} (I : agent world -> Prop) (c : M world A) : Prop :=
  forall a, I a -> exists x a', c a = (Normal x, a') /\ I a'.

(** An entry of the tool calls that the round can take up: it is neither
    [null] nor [undefined], and its name has a string form. *)
Definition readable (call : value) : bool :=
  negb (nullish call) && printable (or_ (getq call (js "name")) (getq call (js "tool"))).

(** A tool whose failures the loop can report: when its promise is
    rejected, it is with a value other than [null] and [undefined] whose
    message has a string form. *)
Definition reportable (fn : tool_function world) : Prop :=
  forall args w0,
    match (implementation fn args w0).1 with
    | Rejected e => nullish e = false /\ printable (getq e (js "message")) = true
    | Resolved _ _ | Pending => True
    end.

(** The turns [run] may write. *)
Definition run_turn (t : value) : Prop :=
  (exists userInput, t = user_turn userInput) \/
  (exists ncs, t = assistant_calls ncs) \/
  (exists c text, t = tool_turn c text) \/
  (exists content, t = content_turn content) \/
  t = replanning_turn.

End AgentTurns.

Section SharedObjects.

Import Sanitizer.

Context {NO : NumberOps}.

(** The object at [l] refers to the object at [c] in two places: under two
    keys, or at two indices. *)
Definition mentions_twice (h : heap) (l c : loc) : Prop :=
  match deref h l with
  | HObject props =>
      exists k1 k2, k1 <> k2 /\ (k1, HRef c) ∈ props /\ (k2, HRef c) ∈ props
  | HArray elems =>
      exists i j, i <> j /\ elems !! i = Some (HRef c) /\ elems !! j = Some (HRef c)
  end.

End SharedObjects.

Section ParserTexts.

Import Providers.

Context {NO : NumberOps}.

(** The value of a text is an object only if the text has a brace, and a
    string only if it has a double quote. *)
Definition scalar_or_array (v : value) : Prop :=
  match v with VObj _ | VStr _ => False | _ => True end.

(** The text [robustParseArgs] and the agent hand to [JSON.parse]: the
    argument text trimmed, without a fence around the whole of it
    (line 37 of [llm_providers.js], line 107 of [agent.js]). *)
Definition unfenced (v : jsstring) : jsstring :=
  trim (replace fence_whole [RCap 1] (trim v)).

(** A text of white space only. *)
Definition blank (s : jsstring) : Prop := Forall (fun c => is_space c = true) s.

(** A text with the object of a final answer in it. *)
Definition with_final (pre X post : jsstring) : jsstring :=
  pre ++ jsq "{'final':'" ++ X ++ jsq "'}" ++ post.

End ParserTexts.

(** ** [src/llm_providers.js]: the prompt and the providers *)

Module Llm.
Section Llm.

Import Providers.

Context {NO : NumberOps}.

(** [a && b] (the right operands of the source have no effects). *)
Definition and_ (a b : value) : value := if truthy a then b else a.

(** *** [buildSystemPrompt] (lines 1-29) *)

(** [t && (t.k || (t.function && t.function.k))]: the member [k] of a tool
    given as a full tool object or as a sanitized spec. *)
Definition tool_member (t : value) (k : string) : value :=
  and_ t (or_ (getq t (js k))
              (and_ (getq t (js "function")) (getq (getq t (js "function")) (js k)))).

(** The fixed text of the prompt, line by line (lines 11-26). *)
Definition prompt_lines : list jsstring :=
  [js "You are an agent that works in an iterative loop: Think -> Act (call a tool) -> Observe -> Repeat, until the task is finished.";
   js "On every turn, respond with EXACTLY ONE JSON object and nothing else. You must choose one of:";
   [];
   js "1) Tool call:";
   jsq "{'tool':'<tool_name>','arguments':{...}}";
   [];
   js "2) Final answer in natural language:";
   jsq "{'final':'<your concise, human" ++ [8209] ++ jsq "readable answer>'}";
   [];
   js "Rules:";
   js "- Use ONLY tools listed below. Do not invent tool names or parameters.";
   jsq "- If no tool is appropriate or the user asks a simple question, reply with {'final':'...'}.";
   jsq "- After I send you an 'Observation: ...' message, use that observation to decide the next action (another tool or a final answer).";
   js "- Do NOT include any text outside the single JSON object.";
   [];
   js "Available Tools:"].

(** What is thrown in this file is an [Error] (or a [TypeError] of the
    runtime), of which the code reads the message only: a failure is kept
    as its message. *)
Inductive result (A : Type) : Type :=
| Ok (a : A)
| Err (message : jsstring).

Arguments Ok {A} a.
Arguments Err {A} message.

Definition rbind {A B : Type} (r : result A) (f : A -> result B) : result B :=
  match r with
  | Ok a => f a
  | Err e => Err e
  end.

Notation "'let?' x ':=' c 'in' k" := (rbind c (fun x => k))
  (at level 10, x name, c at level 100, k at level 200).

(** [l.map(f)] for a callback that may throw: the first failure ends the
    loop. *)
Fixpoint map_result {A B : Type} (f : A -> result B) (l : list A) : result (list B) :=
  match l with
  | [] => Ok []
  | x :: l' =>
      let? y := f x in
      let? ys := map_result f l' in
      Ok (y :: ys)
  end.

(** The places where the runtime throws a TypeError of its own; the text
    of its message is the engine's. *)
Inductive site : Type :=
| NotAFunction (v : value) (k : string)
| ReadOfNullish (v : value) (k : string)
| NotPrintable (v : value)
| Uncaught (e : exn).

Variable engine_message : site -> jsstring.

(** [`${v}`] *)
Definition text_of (v : value) : result jsstring :=
  match ToString v with
  | Normal text => Ok text
  | Throw _ => Err (engine_message (NotPrintable v))
  end.

(** The callback of [map] (lines 4-9). *)
Definition tool_description (t : value) : result jsstring :=
  let name := or_ (tool_member t "name") (VStr (js "unknown")) in
  let description := or_ (tool_member t "description") (VStr []) in
  let usage := or_ (tool_member t "usage") (VStr []) in
  let? name := text_of name in
  let? description := text_of description in
  let? usage := text_of usage in
  Ok (js "- " ++ name ++ js ": " ++ description ++ [10] ++ js "  Usage: " ++ usage).

(** [(tools || []).map(f)] *)
Definition tools_or_empty (tools : value) : result (list value) :=
  if truthy tools then
    match tools with
    | VArr l => Ok l
    | _ => Err (engine_message (NotAFunction tools "map"))
    end
  else Ok [].

Definition buildSystemPrompt (tools : value) : result jsstring :=
  let? l := tools_or_empty tools in
  let? descriptions := map_result tool_description l in
  let toolDescriptions := JSON.join [10] descriptions in
  Ok (JSON.join [10] prompt_lines ++ [10] ++ toolDescriptions ++ [10]).

(** *** The providers and their factory (lines 129-169, 246-253) *)

Inductive provider_kind : Type := Gemini | OpenAi.

Record llm_provider : Type := Provider {
  kind : provider_kind;
  apiKey : value;
  model : value;
  apiUrl : jsstring;
}.




(** [provider === s] for a string literal [s]. *)
Definition is_literal (v : value) (s : string) : bool :=
  match v with
  | VStr x => JsStr.eqb x (js s)
  | _ => false
  end.


(** *** Requests *)

(** What the code reads of a [Response]: [ok], [status], and the outcome
    of [json()], a value or the message of the rejection. *)
Record response : Type := Response {
  ok : bool;
  status : N;
  json : result value;
}.

(** The network and the clock. [fetch url init] resolves to a response or
    rejects with a message; [sleep ms] is the wait of [setTimeout]. *)
Record network (world : Type) : Type := Network {
  fetch : jsstring -> value -> world -> result response * world;
  sleep : N -> world -> world;
  Date_now : world -> N;
}.

Arguments fetch {world} _ _ _ _.
Arguments sleep {world} _ _ _.
Arguments Date_now {world} _ _.

(** [v?.[0]] *)
Definition first (v : value) : value :=
  match v with
  | VArr (x :: _) => x
  | VStr (c :: _) => VStr [c]
  | VObj l => assoc (js "0") l
  | _ => VUndef
  end.

(** [data.k] where [data] may be anything. *)
Definition read_member (data : value) (k : string) : result value :=
  match get data (js k) with
  | Normal v => Ok v
  | Throw _ => Err (engine_message (ReadOfNullish data k))
  end.

(** [(textResponse || '').trim()] *)
Definition trimmed (textResponse : value) : result jsstring :=
  match or_ textResponse (VStr []) with
  | VStr s => Ok (trim s)
  | v => Err (engine_message (NotAFunction v "trim"))
  end.

(** [data.candidates?.[0]?.content?.parts?.[0]?.text ?? ''] and the
    [return] after it (lines 222-223). *)
Definition gemini_text (data : value) : result jsstring :=
  match read_member data "candidates" with
  | Ok candidates =>
      let text :=
        getq (first (getq (getq (first candidates) (js "content")) (js "parts")))
             (js "text") in
      trimmed (coalesce text (VStr []))
  | Err e => Err e
  end.

(** Lines 300-301. *)
Definition openai_text (data : value) : result jsstring :=
  match read_member data "choices" with
  | Ok choices =>
      let found := and_ (and_ choices (first choices)) (getq (first choices) (js "text")) in
      trimmed (if truthy found then getq (first choices) (js "text") else VStr [])
  | Err e => Err e
  end.

(** One request (lines 197-224 and 272-302): [name] is the name of the
    provider in the messages, [text_of] the reading of the text. *)
Definition requestOnce {world : Type} (net : network world) (name : string)
           (text_of : value -> result jsstring) (url : jsstring) (init : value)
           (w : world) : result jsstring * world :=
  match fetch net url init w with
  | (Err e, w1) => (Err e, w1)
  | (Ok response, w1) =>
      if negb (ok response) then
        let message := VStr (js "HTTP " ++ of_N (status response)) in
        let message :=
          match json response with
          | Ok error =>
              or_ (and_ (and_ error (getq error (js "error")))
                        (getq (getq error (js "error")) (js "message")))
                  message
          | Err _ => message
          end in
        (let? text := text_of message in
         Err (js name ++ js " API error: " ++ text), w1)
      else
        match json response with
        | Err e => (Err (js name ++ js " JSON parse error: " ++ e), w1)
        | Ok data => (text_of data, w1)
        end
  end.

(** The decision after the last attempt (lines 238-242 and 316-320). *)
Definition provider_error (name : string) (lastErr : option jsstring) : value :=
  let message :=
    match lastErr with
    | Some m => or_ (VStr m) (VStr (js "unknown error"))
    | None => VStr (js "unknown error")
    end in
  decision VNull
    (VStr (js "[ProviderError " ++ js name ++ js "] " ++ to_string message))
    "continue".

(** The loop of the attempts (lines 226-236 and 304-314), with [n]
    attempts left from attempt number [attempt]. *)
Fixpoint attempts_from {world : Type} (net : network world) (name : string)
         (request : world -> result jsstring * world)
         (n attempt : nat) (lastErr : option jsstring) (w : world) : value * world :=
  match n with
  | O => (provider_error name lastErr, w)
  | S n' =>
      let delay := 200 * 2 ^ N.of_nat attempt in
      match request w with
      | (Ok text, w1) =>
          match tryParseToolCall (Date_now net w1) text with
          | Normal d => (d, w1)
          | Throw e =>
              attempts_from net name request n' (S attempt)
                (Some (engine_message (Uncaught e))) (sleep net delay w1)
          end
      | (Err e, w1) =>
          attempts_from net name request n' (S attempt) (Some e) (sleep net delay w1)
      end
  end.

(** *** [GeminiProvider.getCompletion] (lines 171-243) *)

(** The callback of [fullHistory.map] (lines 175-193). *)
Definition gemini_content (h : value) : value :=
  let content := getq h (js "content") in
  let safeText :=
    if truthy h && is_string content then to_string content
    else if truthy h && negb (nullish content) then
      match ToString content with
      | Normal text => text
      | Throw _ => []
      end
    else [] in
  let role :=
    if truthy h && is_literal (getq h (js "role")) "assistant"
    then js "model" else js "user" in
  VObj [prop "role" (VStr role);
        prop "parts" (VArr [VObj [prop "text" (VStr safeText)]])].

Definition gemini_contents (systemPrompt : jsstring) (history : list value) : list value :=
  let fullHistory :=
    VObj [prop "role" (VStr (js "user")); prop "content" (VStr systemPrompt)] :: history in
  map gemini_content fullHistory.

Definition gemini_init (systemPrompt : jsstring) (history : list value) : value :=
  let body := VObj [prop "contents" (VArr (gemini_contents systemPrompt history))] in
  VObj [prop "method" (VStr (js "POST"));
        prop "headers" (VObj [prop "Content-Type" (VStr (js "application/json"))]);
        prop "body" (Agent.stringified body)].

Definition gemini_getCompletion {world : Type} (net : network world) (p : llm_provider)
           (history : list value) (tools : value) (w : world) : result value * world :=
  match buildSystemPrompt tools with
  | Err e => (Err e, w)
  | Ok systemPrompt =>
      let init := gemini_init systemPrompt history in
      let '(d, w') :=
        attempts_from net "Gemini"
          (requestOnce net "Gemini" gemini_text (apiUrl p) init) 3 0 None w in
      (Ok d, w')
  end.

(** *** [OpenAiProvider.getCompletion] (lines 255-321) *)

(** The callback of [history.map] (line 259). *)
Definition openai_line (h : value) : result jsstring :=
  let? role := read_member h "role" in
  let? role := text_of role in
  let? content := text_of (getq h (js "content")) in
  Ok (role ++ js ": " ++ content).

Fixpoint openai_lines (history : list value) : result (list jsstring) :=
  match history with
  | [] => Ok []
  | h :: rest =>
      match openai_line h with
      | Ok l =>
          match openai_lines rest with
          | Ok ls => Ok (l :: ls)
          | Err e => Err e
          end
      | Err e => Err e
      end
  end.

(** The second argument of [fetch] (lines 273-280); the template literal
    of the [Authorization] header is evaluated at every request. *)
Definition openai_init (p : llm_provider) (fullPrompt : jsstring) : result value :=
  let body :=
    VObj [prop "model" (VStr (js "gpt-3.5-turbo-instruct"));
          prop "prompt" (VStr fullPrompt);
          prop "max_tokens" (VNum (number_of_string (js "1500")));
          prop "temperature" (VNum (number_of_string (js "0.7")));
          prop "stop" (VArr [VStr (10 :: js "user:"); VStr (10 :: js "tool:")])] in
  let? key := text_of (apiKey p) in
  Ok (VObj [prop "method" (VStr (js "POST"));
            prop "headers"
              (VObj [prop "Content-Type" (VStr (js "application/json"));
                     prop "Authorization" (VStr (js "Bearer " ++ key))]);
            prop "body" (Agent.stringified body)]).

Definition openai_request {world : Type} (net : network world) (p : llm_provider)
           (fullPrompt : jsstring) (w : world) : result jsstring * world :=
  match openai_init p fullPrompt with
  | Ok init => requestOnce net "OpenAI" openai_text (apiUrl p) init w
  | Err e => (Err e, w)
  end.

Definition openai_getCompletion {world : Type} (net : network world) (p : llm_provider)
           (history : list value) (tools : value) (w : world) : result value * world :=
  match buildSystemPrompt tools with
  | Err e => (Err e, w)
  | Ok systemPrompt =>
      match openai_lines history with
      | Err e => (Err e, w)
      | Ok lines =>
          let historyString := JSON.join [10] lines in
          let fullPrompt :=
            systemPrompt ++ [10; 10] ++ historyString ++ [10] ++ js "assistant:" in
          let '(d, w') :=
            attempts_from net "OpenAI" (openai_request net p fullPrompt) 3 0 None w in
          (Ok d, w')
      end
  end.

Definition getCompletion {world : Type} (net : network world) (p : llm_provider)
  : list value -> value -> world -> result value * world :=
  match kind p with
  | Gemini => gemini_getCompletion net p
  | OpenAi => openai_getCompletion net p
  end.

(** *** Shapes the statements below speak of *)

(** A tool the prompt can describe: its name, its description and its
    usage, or what stands for a missing one, have a string form. *)
Definition describable (t : value) : bool :=
  printable (or_ (tool_member t "name") (VStr (js "unknown")))
  && printable (or_ (tool_member t "description") (VStr []))
  && printable (or_ (tool_member t "usage") (VStr [])).

(** The tools an agent passes on: an array of tools the prompt can
    describe, or nothing. *)
Definition listed (tools : value) : Prop :=
  truthy tools = false \/
  exists l, tools = VArr l /\ Forall (fun t => describable t = true) l.

(** A turn the prompt of line 259 can quote: it is neither [null] nor
    [undefined], and its role and its content have a string form. *)
Definition quotable (h : value) : bool :=
  negb (nullish h) && printable (getq h (js "role")) && printable (getq h (js "content")).

(** A tool as [tools.js] gives it, without its implementation, and the
    same tool as a sanitized spec. *)
Definition full_tool (name description usage : value) : value :=
  VObj [prop "type" (VStr (js "function"));
        prop "function" (VObj [prop "name" name; prop "description" description;
                               prop "usage" usage])].

Definition tool_spec (name description usage : value) : value :=
  VObj [prop "name" name; prop "description" description; prop "usage" usage].

(** An entry of the [contents] Gemini is sent: a role, and one part with a
    text. *)
Definition gemini_entry (role text : jsstring) : value :=
  VObj [prop "role" (VStr role); prop "parts" (VArr [VObj [prop "text" (VStr text)]])].

(** The environment of an agent whose provider is [p]: [specs] is the
    plain data of the tools the agent passes on. A rejection of
    [getCompletion] is a TypeError of the runtime. *)
Definition provider_environment {world : Type} (net : network world) (p : llm_provider)
           (specs : value)
           (randomUUID : option (world -> jsstring * world))
           (Math_random36 : world -> jsstring * world)
           (String_ : gmap nat Sanitizer.hobject -> Sanitizer.hvalue -> completion jsstring)
  : Agent.environment world :=
  {| Agent.getCompletion := fun history w =>
       match getCompletion net p history specs w with
       | (Ok d, w') => (Normal d, w')
       | (Err _, w') => (Throw TypeError, w')
       end;
     Agent.randomUUID := randomUUID;
     Agent.Date_now := Date_now net;
     Agent.Math_random36 := Math_random36;
     Agent.String_ := String_ |}.

End Llm.

Arguments Ok {A} a.
Arguments Err {A} message.
Arguments network {NO} world.
Arguments Network {NO world} _ _ _.
Arguments fetch {NO world} _ _ _ _.
Arguments sleep {NO world} _ _ _.
Arguments Date_now {NO world} _ _.

End Llm.

(** ** [tools.js]: the calculator and the virtual file system *)

Module Tools.
Section Tools.

Import Sanitizer.

Context {NO : NumberOps}.

Variable engine_message : Llm.site -> jsstring.

(** [r.test(s)] for a pattern without the [g] and [y] flags. *)
Definition test (r : regex) (s : jsstring) : bool :=
  match exec r s with
  | Some _ => true
  | None => false
  end.

(** The class of line 122: the digits, [+ - * / ( ) . %], the space and
    the tab. *)
Definition allowed_char (c : N) : bool :=
  JSON.is_digit c || existsb (N.eqb c) [43; 45; 42; 47; 40; 41; 46; 37; 32; 9].

(** The pattern [allowed] of line 122. *)
Definition allowed : regex := seqs [Bol; plus (Chr allowed_char); Eol].

(** An [Error] object, of which the agent reads the message. *)
Definition error_object (message : jsstring) : value :=
  VObj [prop "message" (VStr message)].

Definition calculator_refusal : jsstring :=
  js "Calculator error: only digits, spaces, and operators + - * / % ( ) are allowed.".

(** The calculator (lines 119-132). [evaluate s] stands for the call of
    the function made from the expression [s] in strict mode: the text of
    its result, or the message of what it threw. The argument is
    destructured, which throws for [null] and [undefined]. *)
Definition calculator (evaluate : jsstring -> Llm.result jsstring) (args : value)
  : Agent.outcome :=
  match get args (js "expression") with
  | Throw _ =>
      Agent.Rejected (error_object (engine_message (Llm.ReadOfNullish args "expression")))
  | Normal expression =>
      match expression with
      | VStr s =>
          if test allowed s then
            match evaluate s with
            | Llm.Ok result => Agent.Resolved ∅ (HStr (js "Result: " ++ result))
            | Llm.Err message => Agent.Resolved ∅ (HStr (js "Calculator error: " ++ message))
            end
          else Agent.Resolved ∅ (HStr calculator_refusal)
      | _ => Agent.Resolved ∅ (HStr calculator_refusal)
      end
  end.

(** *** The virtual file system (line 4): a [Map] in insertion order *)

(** [SameValueZero] on keys. It is equality on strings, booleans, [null]
    and [undefined]; [same] decides it for two numbers and for two objects,
    which are the same key when they are the same object. *)
Definition same_key (same : value -> value -> bool) (a b : value) : bool :=
  match a, b with
  | VStr x, VStr y => JsStr.eqb x y
  | VBool x, VBool y => Bool.eqb x y
  | VNull, VNull | VUndef, VUndef => true
  | VNum _, VNum _ => same a b
  | (VArr _ | VObj _), (VArr _ | VObj _) => same a b
  | _, _ => false
  end.

(** [map.set(k, v)]: a key that is there keeps its place and takes the
    value, a new key goes to the end. *)
Fixpoint Map_set (same : value -> value -> bool) (k v : value)
         (entries : list (value * value)) : list (value * value) :=
  match entries with
  | [] => [(k, v)]
  | (k', v') :: rest =>
      if same_key same k' k then (k', v) :: rest
      else (k', v') :: Map_set same k v rest
  end.

(** [create_file] (lines 47-51). Of the line written to the console
    (line 49) the model keeps the conversion of the file name to a string,
    which throws for a name without a string form, before the file is
    set. *)
Definition create_file (same : value -> value -> bool) (args : value)
           (virtualFileSystem : list (value * value))
  : Agent.outcome * list (value * value) :=
  match get args (js "filename") with
  | Throw _ =>
      (Agent.Rejected (error_object (engine_message (Llm.ReadOfNullish args "filename"))),
       virtualFileSystem)
  | Normal filename =>
      let content := getq args (js "content") in
      match ToString filename with
      | Throw _ =>
          (Agent.Rejected (error_object (engine_message (Llm.NotPrintable filename))),
           virtualFileSystem)
      | Normal text =>
          (Agent.Resolved ∅ (HStr (jsq "File '" ++ text ++ jsq "' created successfully.")),
           Map_set same filename content virtualFileSystem)
      end
  end.

(** [Array.from(map.keys()).join(', ')]: [null] and [undefined] are
    written as nothing. *)
Definition joined_keys (entries : list (value * value)) : jsstring :=
  JSON.join (js ", ")
    (map (fun e => if nullish e.1 then [] else to_string e.1) entries).

(** [list_files] (lines 64-70). *)
Definition list_files (virtualFileSystem : list (value * value)) : jsstring :=
  match virtualFileSystem with
  | [] => js "The virtual file system is empty."
  | _ :: _ => js "Files in virtual system: [" ++ joined_keys virtualFileSystem ++ js "]"
  end.

(** The two tools as the agent is given them: the world is the virtual
    file system. *)
Definition create_file_tool (same : value -> value -> bool)
  : Agent.tool_function (list (value * value)) :=
  {| Agent.fn_name := js "create_file";
     Agent.implementation := create_file same |}.

Definition list_files_tool : Agent.tool_function (list (value * value)) :=
  {| Agent.fn_name := js "list_files";
     Agent.implementation := fun _ fs => (Agent.Resolved ∅ (HStr (list_files fs)), fs) |}.

(** The names of the files, in the order of the listing. *)
Definition file_names (entries : list (value * value)) : list value := map fst entries.

End Tools.
End Tools.

(** ** Inputs the statements are applied to *)

(** A planner that answers at once, with a stopReason in capitals. *)
Definition shouting_planner : Agent.environment (NO := DecimalText) nat :=
  {| Agent.getCompletion := fun _ n =>
       (Normal (VObj [prop "toolCalls" VNull;
                      prop "content" (VStr (JsStr.js "All done."));
                      prop "stopReason" (VStr (JsStr.js "DONE"))]), S n);
     Agent.randomUUID := None;
     Agent.Date_now := fun _ => 0;
     Agent.Math_random36 := fun n => (JsStr.js "r", n);
     Agent.String_ := no_String |}.

(** A planner that gives neither content nor tool calls, and says
    [final]. *)
Definition silent_planner : Agent.environment (NO := DecimalText) nat :=
  {| Agent.getCompletion := fun _ n =>
       (Normal (Providers.decision VNull VNull "final"), S n);
     Agent.randomUUID := None;
     Agent.Date_now := fun _ => 0;
     Agent.Math_random36 := fun n => (JsStr.js "r", n);
     Agent.String_ := no_String |}.

(** A tool that never settles, a tool that rejects with an [Error], and
    a tool that rejects with [undefined]. *)
Definition slow_tool : Agent.tool_function (NO := DecimalText) nat :=
  {| Agent.fn_name := JsStr.js "slow";
     Agent.implementation := fun _ n => (Agent.Pending, S n) |}.

Definition failing_tool : Agent.tool_function (NO := DecimalText) nat :=
  {| Agent.fn_name := JsStr.js "failing";
     Agent.implementation := fun _ n =>
       (Agent.Rejected (VObj [prop "message" (VStr (JsStr.js "boom"))]), S n) |}.

Definition rude_tool : Agent.tool_function (NO := DecimalText) nat :=
  {| Agent.fn_name := JsStr.js "rude";
     Agent.implementation := fun _ n => (Agent.Rejected VUndef, S n) |}.

(** A planner text that calls the tool that rejects with [undefined]. *)
Definition rude_call : jsstring := JsStr.jsq "{'tool':'rude','arguments':{}}".

(** A decision with a named call and an entry without a name. *)
Definition one_named_call : list (jsstring * value (NO := DecimalText)) :=
  [prop "toolCalls"
     (VArr [VObj [prop "id" (VStr (JsStr.js "c1"));
                  prop "tool" (VStr (JsStr.js "calculator"));
                  prop "arguments" (VStr (JsStr.jsq "{'expression':'2+2'}"))];
            VObj [prop "args" (VObj [])]])].

(** An object that refers to one and the same empty object under two
    keys. *)
Definition twice_shared : gmap nat (@Sanitizer.hobject DecimalText) :=
  <[ 0%nat := Sanitizer.HObject [(JsStr.js "a", Sanitizer.HRef 1);
                                 (JsStr.js "b", Sanitizer.HRef 1)] ]>
    {[ 1%nat := Sanitizer.HObject [] ]}.

(** The engine's TypeError messages, all alike here. *)
Definition engine_text (s : Llm.site (NO := DecimalText)) : jsstring :=
  JsStr.js "TypeError".

(** A network on which every [fetch] rejects; its world is the time
    waited so far, in milliseconds. *)
Definition dead_network : Llm.network (NO := DecimalText) N :=
  Llm.Network (fun _ _ w => (Llm.Err (JsStr.js "Failed to fetch"), w))
              (fun ms w => w + ms)
              (fun w => w).

Definition gemini_example : Llm.llm_provider (NO := DecimalText) :=
  Llm.Provider Llm.Gemini (VStr (JsStr.js "KEY")) (VStr (JsStr.js "gemini-2.5-flash"))
    (JsStr.js "https://generativelanguage.googleapis.com/v1beta/models/gemini-2.5-flash:generateContent?key=KEY").

Definition openai_example : Llm.llm_provider (NO := DecimalText) :=
  Llm.Provider Llm.OpenAi (VStr (JsStr.js "KEY")) (VStr (JsStr.js "gpt-5"))
    (JsStr.js "https://api.openai.com/v1/completions").

(** The prompt for no tools. *)
Definition bare_prompt : jsstring :=
  match Llm.buildSystemPrompt engine_text (VArr []) with
  | Llm.Ok prompt => prompt
  | Llm.Err _ => []
  end.

(** An evaluation that knows one expression. *)
Definition evaluate_stub (s : jsstring) : Llm.result jsstring :=
  if JsStr.eqb s (JsStr.js "1 + 2 * 3") then Llm.Ok (JsStr.js "7")
  else Llm.Err (JsStr.js "Unexpected end of input").

(** Two keys are never the same number or the same object. *)
Definition never_same (a b : value (NO := DecimalText)) : bool := false.

(** * Properties *)

Import Providers.

(** ** Completions *)

Lemma bind_Normal {A B : Type} (c : completion A) (f : A -> completion B) (y : B) :
  bind c f = Normal y -> exists x, c = Normal x /\ f x = Normal y.
Proof. destruct c; simpl; [eauto | discriminate]. Qed.

Lemma try_catch_Normal {A : Type} (c h : completion A) (y : A) :
  try_catch c h = Normal y -> c = Normal y \/ h = Normal y.
Proof. destruct c; simpl; auto. Qed.

Lemma try_catch_total {A : Type} (c : completion A) (y : A) :
  exists x, try_catch c (Normal y) = Normal x.
Proof. destruct c; simpl; eauto. Qed.

Ltac unbind H :=
  let x := fresh "x" in
  let E := fresh "E" in
  apply bind_Normal in H; destruct H as (x & E & H).

Ltac case_match_in H :=
  match type of H with
  | context [match ?x with _ => _ end] => destruct x eqn:?
  | context [if ?x then _ else _] => destruct x eqn:?
  end.

(** ** The parser never throws *)

Section ParseTotal.

Context {NO : NumberOps}.

Lemma single_call_shape (n a : value) :
  is_tool_calls (decision (VArr [call n n a]) VNull "continue").
Proof. exists [call n n a]. split; [discriminate | reflexivity]. Qed.

Lemma content_shape (text : jsstring) (reason : string) :
  is_content (decision VNull (VStr text) reason).
Proof. exists text, reason. reflexivity. Qed.

(** Whatever the strict parse returns is a tool-calls or a content
    decision. *)
Lemma strict_shape (now : N) (c : jsstring) (d : value) :
  strict now c = Normal (Some d) -> is_tool_calls d \/ is_content d.
Proof.
  unfold strict. intros H.
  unbind H. unbind H.
  destruct x0; try (right; injection H as <-; apply content_shape).
  all: unbind H; unbind H; destruct x1 as [d'|];
    [ injection H as <-;
      destruct x0; try discriminate;
      unbind E2; case_match_in E2; try discriminate;
      injection E2 as <-; left; eexists; split; [|reflexivity];
      intros Hn; rewrite Hn in *; discriminate
    | ].
  all: unbind H; unbind H; case_match_in H.
  all: try (unbind H; unbind H; unbind H; injection H as <-; left; apply single_call_shape).
  all: destruct x; try discriminate; case_match_in H; try discriminate;
    injection H as <-; right; apply content_shape.
Qed.

Lemma heuristic_tool_shape (c : jsstring) (d : value) :
  heuristic_tool c = Normal (Some d) -> is_tool_calls d.
Proof.
  unfold heuristic_tool. intros H.
  case_match_in H; [|discriminate].
  do 5 unbind H. case_match_in H; [|discriminate].
  injection H as <-. apply single_call_shape.
Qed.

Lemma attempts_shape (now : N) (text : jsstring) (d : value) :
  attempts now text = Normal (Some d) -> is_tool_calls d \/ is_content d.
Proof.
  unfold attempts. intros H. unbind H.
  destruct x as [d'|].
  - injection H as <-.
    apply try_catch_Normal in E as [E|E]; [|discriminate].
    eapply strict_shape, E.
  - case_match_in H.
    + injection H as <-. right. apply content_shape.
    + unbind H. destruct x as [d'|].
      * injection H as <-. left. eapply heuristic_tool_shape, E0.
      * case_match_in H; [|discriminate].
        injection H as <-. right. apply content_shape.
Qed.

(** C1. For every input string, [tryParseToolCall] completes normally
    (it never throws), and what it returns is a tool-calls decision, a
    content decision, or the raw text as content. *)
Theorem tryParseToolCall_never_throws (now : N) (text : jsstring) :
  exists d,
    tryParseToolCall now text = Normal d /\
    (is_tool_calls d \/ is_content d \/
     d = decision VNull (VStr text) "continue").
Proof.
  unfold tryParseToolCall.
  destruct (try_catch_total (attempts now text) None) as (r & Hr).
  rewrite Hr. simpl. destruct r as [d|].
  - exists d. split; [reflexivity|].
    apply try_catch_Normal in Hr as [Hr|Hr]; [|discriminate].
    destruct (attempts_shape _ _ _ Hr); auto.
  - eexists. split; [reflexivity|]. auto.
Qed.

(** *** The ids of parsed calls *)

(** A call parsed from an entry without a usable [id] takes the name of
    the tool as its id: the third operand of line 66, which holds the index
    of the entry, is never evaluated, since the name is truthy there. *)
Lemma parse_call_id_is_name (now : N) (c : value) (idx : nat) (d : value) :
  truthy (getq c (js "id")) = false ->
  parse_call now c idx = Normal d ->
  d = VNull \/ exists name args, truthy name = true /\ d = call name name args.
Proof.
  intros Hid. unfold parse_call.
  destruct (truthy (or_ (or_ (getq c (js "name")) (getq c (js "tool")))
                        (getq (getq c (js "function")) (js "name")))) eqn:Hname;
    cbn [negb]; intros H.
  - unbind H. injection H as <-. right.
    eexists _, x. split; [exact Hname|].
    unfold or_ at 1 2. rewrite Hid, Hname. reflexivity.
  - left. congruence.
Qed.

(** So the two parsed calls of two entries that differ only in their
    arguments carry the same id, wherever they stand in the array. *)
Lemma parse_call_same_id (now : N) (c1 c2 : value) (i1 i2 : nat) (d1 d2 : value) :
  truthy (getq c1 (js "id")) = false ->
  truthy (getq c2 (js "id")) = false ->
  parse_call now c1 i1 = Normal d1 ->
  parse_call now c2 i2 = Normal d2 ->
  truthy d1 = true -> truthy d2 = true ->
  getq d1 (js "name") = getq d2 (js "name") ->
  getq d1 (js "id") = getq d2 (js "id").
Proof.
  intros H1 H2 E1 E2 T1 T2 Hn.
  destruct (parse_call_id_is_name now c1 i1 d1 H1 E1) as [->|(n1 & a1 & _ & ->)];
    [discriminate|].
  destruct (parse_call_id_is_name now c2 i2 d2 H2 E2) as [->|(n2 & a2 & _ & ->)];
    [discriminate|].
  exact Hn.
Qed.

End ParseTotal.

(** ** The matcher and the fence pattern *)

Section RegexFacts.

(** The continuation of a match is only ever called on a suffix of the
    input. *)

Lemma star_loop_on_suffix greedy body k n st x :
  on_suffix body ->
  star_loop greedy body k n st = Some x ->
  exists st1, k st1 = Some x /\ rest st1 `suffix_of` rest st.
Proof.
  intros Hb. revert st. induction n as [|n IH]; intros st H; simpl in H.
  - exists st. split; [assumption | reflexivity].
  - assert (Hagain : body st (fun st1 =>
              if (length (rest st1) <? length (rest st))%nat
              then star_loop greedy body k n st1 else None) = Some x ->
            exists st1, k st1 = Some x /\ rest st1 `suffix_of` rest st).
    { intros Ha. apply Hb in Ha as (st1 & Ha & Hs).
      destruct (length (rest st1) <? length (rest st))%nat; [|discriminate].
      apply IH in Ha as (st2 & Hk & Hs2).
      exists st2. split; [assumption | etrans; eassumption]. }
    destruct greedy.
    + destruct (body st _) eqn:Ha.
      * injection H as ->. auto.
      * exists st. split; [assumption | reflexivity].
    + destruct (k st) eqn:Hk.
      * injection H as ->. exists st. split; [assumption | reflexivity].
      * auto.
Qed.

Lemma m_on_suffix r : on_suffix (m r).
Proof.
  induction r as [|p|r1 IH1 r2 IH2|r1 IH1 r2 IH2|g r IH|i r IH| |];
    intros st k x H; cbn [m] in H.
  - exists st. split; [assumption | reflexivity].
  - destruct (rest st) as [|c s'] eqn:Hr; [discriminate|].
    destruct (p c); [|discriminate].
    exists (MState s' (S (pos st)) (caps st)). split; [assumption|].
    simpl. apply suffix_cons_r. reflexivity.
  - apply IH1 in H as (st1 & H & Hs1).
    apply IH2 in H as (st2 & H & Hs2).
    exists st2. split; [assumption | etrans; eassumption].
  - destruct (m r1 st k) eqn:H1.
    + injection H as ->. apply IH1 in H1. assumption.
    + apply IH2 in H. assumption.
  - eapply star_loop_on_suffix; eassumption.
  - apply IH in H as (st1 & H & Hs1).
    exists (capture i st st1). split; [assumption | exact Hs1].
  - destruct (pos st =? 0)%nat; [|discriminate].
    exists st. split; [assumption | reflexivity].
  - destruct (rest st) eqn:Hr; [|discriminate].
    exists st. split; [assumption | rewrite Hr; reflexivity].
Qed.

(** *** The bound on the iterations of a star *)

Lemma star_loop_local greedy body :
  suffix_local body -> forall n, suffix_local (fun st k => star_loop greedy body k n st).
Proof.
  intros Hb n. induction n as [|n IH]; intros st k1 k2 Hk; cbn [star_loop].
  - apply Hk. reflexivity.
  - rewrite (Hk st) by reflexivity.
    rewrite (Hb st _ (fun st1 => if (length (rest st1) <? length (rest st))%nat
                                 then star_loop greedy body k2 n st1 else None)).
    + reflexivity.
    + intros st1 Hs. destruct (_ <? _)%nat; [|reflexivity].
      apply IH. intros st2 Hs2. apply Hk. etrans; eassumption.
Qed.

Lemma m_local r : suffix_local (m r).
Proof.
  induction r as [|p|r1 IH1 r2 IH2|r1 IH1 r2 IH2|g r IH|i r IH| |];
    intros st k1 k2 Hk; cbn [m].
  - apply Hk. reflexivity.
  - destruct (rest st) as [|c s'] eqn:E; [reflexivity|].
    destruct (p c); [|reflexivity]. apply Hk. cbn [rest]. apply suffix_cons_r. reflexivity.
  - apply IH1. intros st1 Hs. apply IH2. intros st2 Hs2. apply Hk. etrans; eassumption.
  - rewrite (IH1 st k1 k2 Hk), (IH2 st k1 k2 Hk). reflexivity.
  - apply (star_loop_local g (m r) IH _ st k1 k2 Hk).
  - apply IH. intros st1 Hs. apply Hk. exact Hs.
  - destruct (pos st =? 0)%nat; [apply Hk|]; reflexivity.
  - destruct (rest st) eqn:E; [apply Hk; rewrite E|]; reflexivity.
Qed.

(** The bound on the iterations of a star is never reached: every bound
    above the length of the input gives the same result. *)
Lemma star_loop_fuel greedy body k :
  suffix_local body -> forall n n' st,
    (length (rest st) < n)%nat -> (length (rest st) < n')%nat ->
    star_loop greedy body k n st = star_loop greedy body k n' st.
Proof.
  intros Hb n. induction n as [|n IH]; intros n' st Hn Hn'; [lia|].
  destruct n' as [|n']; [lia|]. cbn [star_loop].
  rewrite (Hb st _ (fun st1 => if (length (rest st1) <? length (rest st))%nat
                               then star_loop greedy body k n' st1 else None)).
  - reflexivity.
  - intros st1 _. destruct (_ <? _)%nat eqn:E; [|reflexivity].
    apply Nat.ltb_lt in E. apply IH; lia.
Qed.

Lemma m_star_fuel greedy r st k n :
  (length (rest st) < n)%nat ->
  m (Star greedy r) st k = star_loop greedy (m r) k n st.
Proof.
  intros Hn. cbn [m]. apply star_loop_fuel; [apply m_local | lia | exact Hn].
Qed.

(** A word is matched against a prefix of the input, character by
    character. *)
Lemma m_word p w s i cs k :
  m (word (lit_by p) w) (MState s i cs) k =
  if prefix_by p w s
  then k (MState (drop (length w) s) (i + length w) cs)
  else None.
Proof.
  revert s i. induction w as [|c w IH]; intros s i; simpl.
  - rewrite drop_0, Nat.add_0_r. reflexivity.
  - destruct s as [|x s]; [reflexivity|].
    simpl. destruct (p c x); [|reflexivity].
    simpl. rewrite IH. rewrite Nat.add_succ_r. reflexivity.
Qed.

Lemma prefix_by_eqb w s : prefix_by N.eqb w s = isPrefixOf w s.
Proof.
  revert s. induction w as [|c w IH]; intros [|x s]; simpl; try reflexivity.
  rewrite IH. reflexivity.
Qed.

Lemma isPrefixOf_spec w s : isPrefixOf w s = true <-> exists t, s = w ++ t.
Proof.
  revert s. induction w as [|c w IH]; intros s; simpl.
  - split; [eauto | reflexivity].
  - destruct s as [|x s].
    + split; [discriminate | intros (t & Ht); discriminate].
    + rewrite andb_true_iff, IH, N.eqb_eq. split.
      * intros (-> & t & ->). eauto.
      * intros (t & Ht). injection Ht as -> ->. eauto.
Qed.

Lemma m_backticks s i cs k :
  m backticks (MState s i cs) k =
  if isPrefixOf (js "```") s then k (MState (drop 3 s) (i + 3) cs) else None.
Proof.
  unfold backticks. change (word lit) with (word (lit_by N.eqb)).
  rewrite m_word, prefix_by_eqb. reflexivity.
Qed.


Lemma m_seq r1 r2 st k : m (Seq r1 r2) st k = m r1 st (fun st1 => m r2 st1 k).
Proof. reflexivity. Qed.

Lemma m_seq_on_suffix r1 r2 st k x :
  m (Seq r1 r2) st k = Some x ->
  exists st1, m r2 st1 k = Some x /\ rest st1 `suffix_of` rest st.
Proof. rewrite m_seq. apply m_on_suffix. Qed.

Lemma fence_match_inv s i cs k x :
  m fence (MState s i cs) k = Some x ->
  exists a b, s = js "```" ++ a ++ js "```" ++ b.
Proof.
  unfold fence. cbn [seqs foldr]. rewrite m_seq, m_backticks.
  destruct (isPrefixOf (js "```") s) eqn:Hp; [|discriminate].
  apply isPrefixOf_spec in Hp as (t & ->).
  intros H.
  apply m_seq_on_suffix in H as (st1 & H & S1).
  apply m_seq_on_suffix in H as (st2 & H & S2).
  apply m_seq_on_suffix in H as (st3 & H & S3).
  apply m_seq_on_suffix in H as (st4 & H & S4).
  destruct st4 as [s4 i4 c4]. rewrite m_seq, m_backticks in H.
  destruct (isPrefixOf (js "```") s4) eqn:Hp; [|discriminate].
  apply isPrefixOf_spec in Hp as (b & ->).
  assert (St : (js "```" ++ b) `suffix_of` t).
  { etrans; [exact S4|]. etrans; [exact S3|]. etrans; [exact S2|]. exact S1. }
  destruct St as (a & ->). exists a, b. reflexivity.
Qed.

Lemma fences_app a : forall k s, exists k', (fences k' s <= fences k (a ++ s))%nat.
Proof.
  induction a as [|c a IH]; intros k s; simpl.
  - exists k. lia.
  - destruct (c =? 96); [|apply IH].
    destruct k as [|[|k]]; try apply IH.
    destruct (IH 0%nat s) as (k' & Hk). exists k'. lia.
Qed.

Lemma fences_ticks k s : exists k', fences k (js "```" ++ s) = S (fences k' s).
Proof.
  destruct k as [|[|k]]; simpl; eauto.
Qed.

Lemma fence_count_two p a b :
  (2 <= fence_count (p ++ js "```" ++ a ++ js "```" ++ b))%nat.
Proof.
  unfold fence_count.
  destruct (fences_app p 0%nat (js "```" ++ a ++ js "```" ++ b)) as (k1 & H1).
  destruct (fences_ticks k1 (a ++ js "```" ++ b)) as (k2 & H2).
  destruct (fences_app a k2 (js "```" ++ b)) as (k3 & H3).
  destruct (fences_ticks k3 b) as (k4 & H4).
  lia.
Qed.

(** Without two disjoint runs of three backticks the fence pattern
    matches nowhere. *)
Lemma fence_exec_none s : forall p i,
  (fence_count (p ++ s) < 2)%nat -> exec_from fence s i = None.
Proof.
  induction s as [|c s IH]; intros p i Hc; cbn [exec_from].
  - unfold match_at. destruct (m fence (MState _ _ _) Some) eqn:Hm; [|reflexivity].
    apply fence_match_inv in Hm as (a & b & Hm). discriminate.
  - unfold match_at. destruct (m fence (MState _ _ _) Some) eqn:Hm.
    + apply fence_match_inv in Hm as (a & b & Hm). rewrite Hm in Hc.
      pose proof (fence_count_two p a b). lia.
    + apply (IH (p ++ [c])). rewrite <- app_assoc. exact Hc.
Qed.

Lemma cleaned_no_fence text :
  (fence_count text < 2)%nat -> cleaned text = trim text.
Proof.
  intros Hc. unfold cleaned, replace, exec, fence_anywhere.
  rewrite (fence_exec_none text [] 0%nat Hc). reflexivity.
Qed.


(** *** What the pattern does match *)

Lemma trimStart_spec s :
  exists sp, s = sp ++ trimStart s /\ Forall (fun c => is_space c = true) sp /\
             starts_nonspace (trimStart s).
Proof.
  induction s as [|c s (sp & Hs & Hsp & Hn)]; simpl.
  - exists []. repeat split; constructor.
  - destruct (is_space c) eqn:Hc.
    + exists (c :: sp). simpl. rewrite <- Hs. repeat split; [constructor|]; assumption.
    + exists []. simpl. repeat split; [constructor | assumption].
Qed.

(** A string is its trimmed core between two runs of white space. *)
Lemma trim_spec s :
  exists sp1 sp2,
    s = sp1 ++ trim s ++ sp2 /\
    Forall (fun c => is_space c = true) sp1 /\
    Forall (fun c => is_space c = true) sp2 /\
    starts_nonspace (trim s ++ sp2) /\
    (trim s = [] \/ exists core z, trim s = core ++ [z] /\ is_space z = false).
Proof.
  unfold trim, trimEnd.
  destruct (trimStart_spec s) as (sp1 & Hs & Hsp1 & Hn1).
  destruct (trimStart_spec (rev (trimStart s))) as (sp2 & Hr & Hsp2 & Hn2).
  set (u := trimStart s) in *. set (v := trimStart (rev u)) in *.
  assert (Hu : u = rev v ++ rev sp2).
  { rewrite <- rev_app_distr, <- Hr, rev_involutive. reflexivity. }
  exists sp1, (rev sp2). rewrite <- Hu. repeat split; try assumption.
  - apply Forall_rev. assumption.
  - destruct v as [|z v]; [left; reflexivity|].
    right. exists (rev v), z. split; [reflexivity | exact Hn2].
Qed.

(** One iteration of a star over a single character class. *)
Lemma star_chr_cons g p k n c s i cs :
  star_loop g (m (Chr p)) k (S n) (MState (c :: s) i cs) =
  let again :=
    if p c then star_loop g (m (Chr p)) k n (MState s (S i) cs) else None in
  if g then match again with Some x => Some x | None => k (MState (c :: s) i cs) end
  else match k (MState (c :: s) i cs) with Some x => Some x | None => again end.
Proof.
  cbn [star_loop m rest pos caps length].
  replace (length s <? S (length s))%nat with true
    by (symmetry; apply Nat.ltb_lt; lia).
  reflexivity.
Qed.

Lemma star_chr_nil g p k n i cs :
  star_loop g (m (Chr p)) k n (MState [] i cs) = k (MState [] i cs).
Proof.
  destruct n; [reflexivity|]. cbn [star_loop m rest].
  destruct g; [reflexivity|]. destruct (k _); reflexivity.
Qed.

Lemma greedy_ws_all sp : forall t p cs k x n,
  Forall (fun c => is_space c = true) sp ->
  starts_nonspace t ->
  (length sp <= n)%nat ->
  k (MState t (p + length sp) cs) = Some x ->
  star_loop true (m space) k n (MState (sp ++ t) p cs) = Some x.
Proof.
  induction sp as [|c sp IH]; intros t p cs k x n Hsp Ht Hn Hk.
  - simpl in Hk. rewrite Nat.add_0_r in Hk. simpl app.
    unfold space.
    destruct t as [|c t]; [rewrite star_chr_nil; assumption|].
    destruct n as [|n]; [assumption|].
    rewrite star_chr_cons. simpl in Ht. rewrite Ht. assumption.
  - destruct n as [|n]; [simpl in Hn; lia|].
    apply Forall_cons in Hsp as (Hc & Hsp).
    unfold space. simpl app. rewrite star_chr_cons. rewrite Hc.
    cbv zeta. fold space.
    rewrite (IH t (S p) cs k x n); try assumption; [reflexivity | simpl in Hn; lia |].
    simpl in Hk. rewrite Nat.add_succ_r in Hk. exact Hk.
Qed.

Lemma m_ws s p cs k :
  m ws (MState s p cs) k = star_loop true (m space) k (S (length s)) (MState s p cs).
Proof. reflexivity. Qed.

Lemma lazy_any_first a : forall t p cs k x n,
  (forall j, (j < length a)%nat -> k (MState (drop j (a ++ t)) (p + j) cs) = None) ->
  (length a <= n)%nat ->
  k (MState t (p + length a) cs) = Some x ->
  star_loop false (m any) k n (MState (a ++ t) p cs) = Some x.
Proof.
  induction a as [|c a IH]; intros t p cs k x n Hnone Hn Hk.
  - simpl in Hk. rewrite Nat.add_0_r in Hk. simpl app.
    destruct n as [|n]; [assumption|].
    cbn [star_loop]. rewrite Hk. reflexivity.
  - destruct n as [|n]; [simpl in Hn; lia|].
    unfold any. simpl app. rewrite star_chr_cons. cbv zeta. fold any.
    pose proof (Hnone 0%nat ltac:(simpl; lia)) as H0.
    rewrite drop_0, Nat.add_0_r in H0. simpl app in H0. rewrite H0.
    apply IH.
    + intros j Hj. specialize (Hnone (S j) ltac:(simpl; lia)).
      simpl in Hnone. rewrite Nat.add_succ_r in Hnone. exact Hnone.
    + simpl in Hn. lia.
    + simpl in Hk. rewrite Nat.add_succ_r in Hk. exact Hk.
Qed.

Lemma isPrefixOf_head a w c s : isPrefixOf (a :: w) (c :: s) = true -> a = c.
Proof. simpl. intros H. apply andb_true_iff in H as (H & _). apply N.eqb_eq, H. Qed.

Lemma space_not_tick c : is_space c = true -> c <> 96.
Proof. intros H ->. discriminate. Qed.

Lemma ticks_head_false c s : c <> 96 -> isPrefixOf (js "```") (c :: s) = false.
Proof.
  intros Hc. destruct (isPrefixOf (js "```") (c :: s)) eqn:E; [|reflexivity].
  change (js "```") with (96 :: [96; 96]) in E.
  apply isPrefixOf_head in E. congruence.
Qed.

(** White space and then the closing fence: impossible when the first
    character that is not white space does not begin three backticks. *)
Lemma ws_ticks_none s : forall p cs n k,
  isPrefixOf (js "```") (trimStart s) = false ->
  star_loop true (m space) (fun st => m backticks st k) n (MState s p cs) = None.
Proof.
  induction s as [|c s IH]; intros p cs n k Hs.
  - unfold space. rewrite star_chr_nil. rewrite m_backticks. reflexivity.
  - assert (Hk : m backticks (MState (c :: s) p cs) k = None).
    { rewrite m_backticks. cbn [trimStart] in Hs.
      destruct (is_space c) eqn:Hc; [|rewrite Hs; reflexivity].
      rewrite ticks_head_false; [reflexivity | apply space_not_tick, Hc]. }
    destruct n as [|n]; [exact Hk|].
    unfold space. rewrite star_chr_cons. cbv zeta. fold space. rewrite Hk.
    destruct (is_space c) eqn:Hc; [|reflexivity].
    rewrite IH; [reflexivity|]. cbn [trimStart] in Hs. rewrite Hc in Hs. exact Hs.
Qed.


Lemma isPrefixOf_app w t : isPrefixOf w (w ++ t) = true.
Proof. apply isPrefixOf_spec. eauto. Qed.

Lemma trimStart_head d : forall z t,
  is_space z = false ->
  exists c r, trimStart (d ++ z :: t) = c :: r /\ (c ∈ d \/ c = z).
Proof.
  induction d as [|x d IH]; intros z t Hz; simpl.
  - rewrite Hz. exists z, t. auto.
  - destruct (is_space x).
    + destruct (IH z t Hz) as (c & r & -> & Hc).
      exists c, r. split; [reflexivity|]. destruct Hc; [left; right; assumption | auto].
    + exists x, (d ++ z :: t). split; [reflexivity|]. left. left.
Qed.

Lemma closing_fence sp2 post p cs :
  Forall (fun c => is_space c = true) sp2 ->
  m (seqs [ws; backticks]) (MState (sp2 ++ js "```" ++ post) p cs) Some =
  Some (MState post (p + length sp2 + 3) cs).
Proof.
  intros Hsp2. cbn [seqs foldr]. rewrite m_seq, m_ws.
  apply greedy_ws_all; [assumption | reflexivity | rewrite length_app; lia |].
  rewrite m_seq, m_backticks, isPrefixOf_app. reflexivity.
Qed.

(** *** Texts in which no run of three backticks begins *)

Lemma fences_block b : forall k rest,
  b <> [] -> 96 ∉ b -> fences k (b ++ rest) = fences 0 rest.
Proof.
  induction b as [|c b IH]; intros k rest Hne Hb; [congruence|].
  cbn [app fences].
  replace (c =? 96) with false
    by (symmetry; apply N.eqb_neq; intros ->; apply Hb; left).
  destruct b as [|c' b]; [reflexivity|].
  apply IH; [discriminate|]. intros H. apply Hb. right. exact H.
Qed.

Lemma fences_no_tick s : forall k, 96 ∉ s -> fences k s = 0%nat.
Proof.
  induction s as [|c s IH]; intros k Hs; [reflexivity|].
  cbn [fences].
  replace (c =? 96) with false
    by (symmetry; apply N.eqb_neq; intros ->; apply Hs; left).
  apply IH. intros H. apply Hs. right. exact H.
Qed.

Lemma fences_app_no_tick s post : forall k,
  96 ∉ post -> fences k (s ++ post) = fences k s.
Proof.
  induction s as [|c s IH]; intros k Hp; cbn [app fences].
  - apply fences_no_tick, Hp.
  - destruct (c =? 96); [destruct (2 <=? k)%nat|]; rewrite ?IH by assumption; reflexivity.
Qed.

Lemma fences_zero_pred s : forall k, fences (S k) s = 0%nat -> fences k s = 0%nat.
Proof.
  induction s as [|c s IH]; intros k H; [reflexivity|].
  cbn [fences] in *. destruct (c =? 96); [|exact H].
  destruct k as [|[|k]]; [apply IH; exact H | discriminate H | discriminate H].
Qed.

Lemma fence_free_tail c s : fence_count (c :: s) = 0%nat -> fence_count s = 0%nat.
Proof.
  unfold fence_count. cbn [fences]. destruct (c =? 96); [|auto].
  apply fences_zero_pred.
Qed.

Lemma fence_free_drop j : forall s, fence_count s = 0%nat -> fence_count (drop j s) = 0%nat.
Proof.
  induction j as [|j IH]; intros [|c s] H; cbn [drop]; auto.
  apply IH, (fence_free_tail c), H.
Qed.

Lemma fence_free_head s : fence_count s = 0%nat -> isPrefixOf (js "```") s = false.
Proof.
  intros H. destruct (isPrefixOf (js "```") s) eqn:E; [|reflexivity].
  apply isPrefixOf_spec in E as (t & ->). discriminate H.
Qed.

Lemma isPrefixOf_long w : forall y z,
  (length w <= length y)%nat -> isPrefixOf w (y ++ z) = isPrefixOf w y.
Proof.
  induction w as [|a w IH]; intros [|c y] z H; cbn in *; try reflexivity; try lia.
  rewrite IH by lia. reflexivity.
Qed.

(** When no run of three backticks begins in [s], also not with its last
    backticks and those that follow, none begins there whatever follows a
    fence after [s]. *)
Lemma no_fence_begins s t j :
  fence_count (s ++ js "``") = 0%nat -> (j < length s)%nat ->
  isPrefixOf (js "```") (drop j (s ++ js "```" ++ t)) = false.
Proof.
  intros H Hj.
  replace (s ++ js "```" ++ t) with ((s ++ js "``") ++ 96 :: t)
    by (rewrite <- app_assoc; reflexivity).
  rewrite drop_app_le by (rewrite length_app; cbn; lia).
  rewrite isPrefixOf_long.
  - apply fence_free_head, fence_free_drop, H.
  - rewrite length_drop, length_app. cbn. lia.
Qed.

Lemma no_tick_fence_free s : 96 ∉ s -> fence_count (s ++ js "``") = 0%nat.
Proof.
  intros Hs. unfold fence_count.
  destruct s as [|c s]; [reflexivity|].
  rewrite fences_block; [reflexivity | discriminate | exact Hs].
Qed.

Lemma trimStart_drop d : forall z t,
  is_space z = false ->
  exists j, (j <= length d)%nat /\ trimStart (d ++ z :: t) = drop j (d ++ z :: t).
Proof.
  induction d as [|x d IH]; intros z t Hz; simpl.
  - rewrite Hz. exists 0%nat. split; [lia | reflexivity].
  - destruct (is_space x).
    + destruct (IH z t Hz) as (j & Hj & ->). exists (S j). split; [lia | reflexivity].
    + exists 0%nat. split; [lia | reflexivity].
Qed.

(** After the opening fence and the optional tag: the capture is the
    body without the white space around it, when the closing fence is the
    first run of three backticks after the opening one. *)
Lemma fence_tail_match body post p cs :
  fence_count (body ++ js "``") = 0%nat ->
  m fence_tail (MState (body ++ js "```" ++ post) p cs) Some =
  Some (MState post (p + length body + 3) ((1%nat, trim body) :: cs)).
Proof.
  intros Hb.
  destruct (trim_spec body) as (sp1 & sp2 & Hs & Hsp1 & Hsp2 & Hstart & Hcore).
  assert (Hlen : length body = (length sp1 + length (trim body) + length sp2)%nat).
  { rewrite Hs at 1. rewrite !length_app. lia. }
  rewrite Hlen. remember (trim body) as core eqn:Ec. clear Ec Hlen. subst body.
  unfold fence_tail. cbn [seqs foldr]. rewrite <- !app_assoc.
  rewrite m_seq, m_ws.
  apply greedy_ws_all; [assumption | | rewrite length_app; lia |].
  { destruct core as [|c core]; [|exact Hstart].
    destruct sp2 as [|c sp2]; [reflexivity | exact Hstart]. }
  rewrite m_seq. cbn [m].
  apply lazy_any_first.
  - intros j Hj. cbn [capture rest pos caps].
    change (m (Seq ws (Seq backticks Eps)) ?st Some)
      with (m ws st (fun st2 => m backticks st2 (fun st3 => m Eps st3 Some))).
    unfold capture. cbn [rest pos caps].
    rewrite m_ws. apply ws_ticks_none.
    destruct Hcore as [->|(core0 & z & -> & Hz)]; [simpl in Hj; lia|].
    rewrite length_app in Hj. simpl in Hj.
    rewrite <- !app_assoc. rewrite drop_app_le by lia.
    cbn [app].
    destruct (trimStart_drop (drop j core0) z (sp2 ++ js "```" ++ post) Hz)
      as (j2 & Hj2 & ->).
    rewrite length_drop in Hj2.
    replace (drop j2 (drop j core0 ++ z :: sp2 ++ js "```" ++ post))
      with (drop (length sp1 + (j + j2))
              ((sp1 ++ (core0 ++ [z]) ++ sp2) ++ js "```" ++ post)).
    { apply no_fence_begins; [exact Hb | rewrite !length_app; simpl; lia]. }
    rewrite <- drop_drop, <- !app_assoc, drop_app_length, <- drop_drop.
    rewrite drop_app_le by lia. reflexivity.
  - cbn [rest]. rewrite !length_app. lia.
  - unfold capture. cbn [rest pos caps].
    replace (p + length sp1 + length core - (p + length sp1))%nat
      with (length core) by lia.
    rewrite take_app_length.
    etrans; [exact (closing_fence sp2 post _ _ Hsp2)|].
    do 2 f_equal. lia.
Qed.


Lemma m_opt r st k :
  m (opt r) st k = match m r st k with Some x => Some x | None => k st end.
Proof. reflexivity. Qed.

Lemma prefix_by_app_true p w : forall b r,
  prefix_by p w b = true -> prefix_by p w (b ++ r) = true.
Proof.
  induction w as [|a w IH]; intros b r H; [reflexivity|].
  destruct b as [|x b]; [discriminate|]. simpl in *.
  apply andb_true_iff in H as (-> & H). simpl. apply IH, H.
Qed.

Lemma prefix_by_app_false p w c : forall b r,
  Forall (fun a => p a c = false) w ->
  prefix_by p w b = false -> prefix_by p w (b ++ c :: r) = false.
Proof.
  induction w as [|a w IH]; intros b r Hw H; [discriminate|].
  apply Forall_cons in Hw as (Ha & Hw).
  destruct b as [|x b]; simpl in *.
  - rewrite Ha. reflexivity.
  - destruct (p a x); [|reflexivity]. simpl in *. apply IH; assumption.
Qed.

Lemma fence_match_at tag body post i :
  fence_count (body ++ js "``") = 0%nat -> tag_ok tag body ->
  match_at fence (js "```" ++ tag ++ body ++ js "```" ++ post) i =
  Some (MResult i (i + 3 + length tag + length body + 3) [(1%nat, trim body)]).
Proof.
  intros Hb Htag. unfold match_at, fence. cbn [seqs foldr].
  rewrite m_seq, m_backticks, isPrefixOf_app.
  rewrite (drop_app_length (js "```")).
  rewrite m_seq, m_opt.
  change (foldr Seq Eps [ws; Group 1 (Star false any); ws; backticks]) with fence_tail.
  change (word lit_i) with (word (lit_by (fun c x => upper x =? upper c))).
  rewrite m_word.
  destruct Htag as [(-> & Ht)|(Ht & Hl)].
  - unfold json_tagged in Ht. cbn [app].
    rewrite (prefix_by_app_false _ _ 96 body (js "``" ++ post)); [|repeat constructor|exact Ht].
    change (body ++ 96 :: js "``" ++ post) with (body ++ js "```" ++ post).
    rewrite fence_tail_match by assumption.
    cbn [pos caps length]. do 2 f_equal. lia.
  - unfold json_tagged in Ht. rewrite (prefix_by_app_true _ _ _ _ Ht).
    rewrite (drop_app_length' tag) by (rewrite Hl; reflexivity).
    rewrite fence_tail_match by assumption.
    cbn [pos caps length]. rewrite Hl. do 2 f_equal; simpl; lia.
Qed.

Lemma exec_from_skip pre : forall s i,
  fence_count (pre ++ js "``") = 0%nat ->
  exec_from fence (pre ++ js "```" ++ s) i =
  exec_from fence (js "```" ++ s) (i + length pre).
Proof.
  induction pre as [|c pre IH]; intros s i Hp.
  - rewrite Nat.add_0_r. reflexivity.
  - pose proof (no_fence_begins (c :: pre) s 0 Hp ltac:(simpl; lia)) as H0.
    rewrite drop_0 in H0.
    change ((c :: pre) ++ js "```" ++ s) with (c :: pre ++ js "```" ++ s) in *.
    cbn [exec_from]. unfold match_at at 1. unfold fence at 1. cbn [seqs foldr].
    rewrite m_seq, m_backticks, H0.
    rewrite IH; [f_equal; cbn [length]; lia|]. apply (fence_free_tail c), Hp.
Qed.

Lemma exec_from_here r s i res :
  match_at r s i = Some res -> exec_from r s i = Some res.
Proof. intros H. destruct s; simpl; rewrite H; reflexivity. Qed.

(** The first fenced block is replaced by its trimmed body, wherever it
    stands in the text. *)
Lemma cleaned_fenced pre tag body post :
  fence_count (pre ++ js "``") = 0%nat -> fence_count (body ++ js "``") = 0%nat ->
  tag_ok tag body ->
  cleaned (pre ++ js "```" ++ tag ++ body ++ js "```" ++ post) =
  trim (pre ++ trim body ++ post).
Proof.
  intros Hp Hb Ht. unfold cleaned, replace, exec, fence_anywhere.
  rewrite exec_from_skip by assumption. rewrite Nat.add_0_l.
  rewrite (exec_from_here _ _ _ _ (fence_match_at tag body post _ Hb Ht)).
  cbn [m_start m_end]. f_equal.
  rewrite take_app_length. f_equal.
  unfold expand, cap. cbn [m_caps map filter]. simpl concat. rewrite app_nil_r.
  f_equal.
  replace (pre ++ js "```" ++ tag ++ body ++ js "```" ++ post)
    with ((pre ++ js "```" ++ tag ++ body ++ js "```") ++ post)
    by (rewrite <- !app_assoc; reflexivity).
  apply drop_app_length'. rewrite !length_app. simpl. lia.
Qed.

(** *** Every text with two runs has a first fenced block *)

(** The first run of three backticks of a text that has one. *)
Lemma first_run_skip b r0 :
  (forall x, fence_count (b ++ x) = fence_count x) ->
  (exists pre r, r0 = pre ++ js "```" ++ r /\
     fence_count (pre ++ js "``") = 0%nat /\ fence_count r0 = S (fence_count r)) ->
  exists pre r, b ++ r0 = pre ++ js "```" ++ r /\
    fence_count (pre ++ js "``") = 0%nat /\ fence_count (b ++ r0) = S (fence_count r).
Proof.
  intros Hb (pre & r & -> & Hp & Hc). exists (b ++ pre), r.
  rewrite <- !app_assoc. split; [reflexivity|].
  rewrite !Hb. split; [exact Hp | exact Hc].
Qed.

Lemma first_run s :
  (1 <= fence_count s)%nat ->
  exists pre r,
    s = pre ++ js "```" ++ r /\
    fence_count (pre ++ js "``") = 0%nat /\
    fence_count s = S (fence_count r).
Proof.
  induction s as [s IH] using (induction_ltof1 _ (@length N)). unfold ltof in IH.
  intros H.
  destruct s as [|c1 s]; [cbn in H; lia|].
  destruct (N.eq_dec c1 96) as [->|N1].
  2:{ assert (Hb : forall x, fence_count ([c1] ++ x) = fence_count x).
      { intros x. unfold fence_count. cbn [app fences].
        rewrite (proj2 (N.eqb_neq c1 96)) by exact N1. reflexivity. }
      apply (first_run_skip [c1] s Hb). apply IH; [cbn; lia|].
      rewrite <- Hb. exact H. }
  destruct s as [|c2 s]; [cbn in H; lia|].
  destruct (N.eq_dec c2 96) as [->|N2].
  2:{ assert (Hb : forall x, fence_count ([96; c2] ++ x) = fence_count x).
      { intros x. unfold fence_count.
        change (fences 0 ([96; c2] ++ x)) with (fences 1 (c2 :: x)). cbn [fences].
        rewrite (proj2 (N.eqb_neq c2 96)) by exact N2. reflexivity. }
      apply (first_run_skip [96; c2] s Hb). apply IH; [cbn; lia|].
      rewrite <- Hb. exact H. }
  destruct s as [|c3 s]; [cbn in H; lia|].
  destruct (N.eq_dec c3 96) as [->|N3].
  2:{ assert (Hb : forall x, fence_count ([96; 96; c3] ++ x) = fence_count x).
      { intros x. unfold fence_count.
        change (fences 0 ([96; 96; c3] ++ x)) with (fences 2 (c3 :: x)). cbn [fences].
        rewrite (proj2 (N.eqb_neq c3 96)) by exact N3. reflexivity. }
      apply (first_run_skip [96; 96; c3] s Hb). apply IH; [cbn; lia|].
      rewrite <- Hb. exact H. }
  exists [], s. split; [reflexivity|]. split; reflexivity.
Qed.

Lemma prefix_by_split p w : forall s,
  prefix_by p w s = true ->
  exists a b, s = a ++ b /\ length a = length w /\ prefix_by p w a = true /\
              Forall (fun x => exists c, c ∈ w /\ p c x = true) a.
Proof.
  induction w as [|c w IH]; intros s H.
  - exists [], s. repeat split. constructor.
  - destruct s as [|x s]; [discriminate|]. cbn [prefix_by] in H.
    apply andb_true_iff in H as (Hx & H).
    destruct (IH s H) as (a & b & -> & Hl & Ha & Hall).
    exists (x :: a), b. cbn [prefix_by length]. rewrite Hx, Ha, Hl.
    repeat split. constructor.
    + exists c. split; [left | exact Hx].
    + eapply Forall_impl; [exact Hall|]. intros y (c' & Hc' & Hy). exists c'.
      split; [right; exact Hc' | exact Hy].
Qed.

(** A text with two disjoint runs of three backticks is made of a first
    fenced block and what surrounds it. *)
Lemma first_fence text :
  (2 <= fence_count text)%nat ->
  exists pre tag body post,
    text = pre ++ js "```" ++ tag ++ body ++ js "```" ++ post /\
    fence_count (pre ++ js "``") = 0%nat /\
    fence_count (body ++ js "``") = 0%nat /\
    tag_ok tag body.
Proof.
  intros H.
  destruct (first_run text ltac:(lia)) as (pre & r & -> & Hp & Hc).
  rewrite Hc in H. clear Hc.
  destruct (json_tagged r) eqn:Ej.
  - unfold json_tagged in Ej.
    apply prefix_by_split in Ej as (tag & r' & -> & Hl & Ht & Hall).
    assert (Htick : 96 ∉ tag).
    { intros Hin. rewrite Forall_forall in Hall.
      destruct (Hall 96 Hin) as (c & Hc & Hu).
      repeat (apply elem_of_cons in Hc as [->|Hc]; [discriminate Hu|]).
      apply elem_of_nil in Hc. exact Hc. }
    assert (Hne : tag <> []) by (intros ->; discriminate Hl).
    unfold fence_count in H. rewrite fences_block in H by assumption.
    destruct (first_run r' ltac:(unfold fence_count; lia)) as (body & post & -> & Hb & _).
    exists pre, tag, body, post. repeat split; try assumption.
    right. split; [exact Ht | exact Hl].
  - destruct (first_run r ltac:(lia)) as (body & post & -> & Hb & _).
    exists pre, [], body, post. repeat split; try assumption.
    left. split; [reflexivity|].
    destruct (json_tagged body) eqn:Eb; [|reflexivity].
    unfold json_tagged in *. rewrite (prefix_by_app_true _ _ _ _ Eb) in Ej. discriminate.
Qed.

End RegexFacts.

(** C7 (as amended). The first step of [tryParseToolCall] replaces the first
    fenced block of the text by its body without the white space around it,
    wherever the block stands (also when text surrounds it), and trims the
    result; a text that holds no two disjoint runs of three backticks is
    only trimmed. The first fenced block begins at the first run of three
    backticks, takes the tag [json] in any case if it follows, and ends
    with the next run of three backticks; every text with two disjoint
    runs has one. *)
Theorem cleaned_strips_first_fence :
  (forall text, (fence_count text < 2)%nat -> cleaned text = trim text) /\
  (forall pre tag body post,
     fence_count (pre ++ js "``") = 0%nat ->
     fence_count (body ++ js "``") = 0%nat ->
     tag_ok tag body ->
     cleaned (pre ++ js "```" ++ tag ++ body ++ js "```" ++ post) =
     trim (pre ++ trim body ++ post)) /\
  (forall text, (2 <= fence_count text)%nat ->
     exists pre tag body post,
       text = pre ++ js "```" ++ tag ++ body ++ js "```" ++ post /\
       fence_count (pre ++ js "``") = 0%nat /\
       fence_count (body ++ js "``") = 0%nat /\
       tag_ok tag body).
Proof.
  split; [exact cleaned_no_fence|]. split; [exact cleaned_fenced | exact first_fence].
Qed.

Lemma cleaned_strips_first_fence_witness :
  (fence_count (js "  plain text ") < 2)%nat /\
  cleaned (js "  plain text ") = js "plain text" /\
  fence_count (js "Use `x`: " ++ js "``") = 0%nat /\
  fence_count (jsq " {'final':'`hi`'} " ++ js "``") = 0%nat /\
  tag_ok (js "JSON") (jsq " {'final':'`hi`'} ") /\
  cleaned (jsq "Use `x`: ```JSON {'final':'`hi`'} ``` done") =
    jsq "Use `x`: {'final':'`hi`'} done" /\
  (2 <= fence_count (jsq "Use `x`: ```JSON {'final':'`hi`'} ``` done"))%nat /\
  exists pre tag body post,
    jsq "Use `x`: ```JSON {'final':'`hi`'} ``` done" =
      pre ++ js "```" ++ tag ++ body ++ js "```" ++ post /\
    fence_count (pre ++ js "``") = 0%nat /\
    fence_count (body ++ js "``") = 0%nat /\
    tag_ok tag body.
Proof.
  assert (H1 : (fence_count (js "  plain text ") < 2)%nat) by (vm_compute; lia).
  assert (H2 : fence_count (js "Use `x`: " ++ js "``") = 0%nat) by reflexivity.
  assert (H3 : fence_count (jsq " {'final':'`hi`'} " ++ js "``") = 0%nat) by reflexivity.
  assert (H4 : tag_ok (js "JSON") (jsq " {'final':'`hi`'} ")) by (right; split; reflexivity).
  assert (H5 : (2 <= fence_count (jsq "Use `x`: ```JSON {'final':'`hi`'} ``` done"))%nat)
    by (vm_compute; lia).
  refine (conj H1 (conj _ (conj H2 (conj H3 (conj H4 (conj _ (conj H5 _))))))).
  - exact (proj1 cleaned_strips_first_fence _ H1).
  - exact (proj1 (proj2 cleaned_strips_first_fence) _ _ _ (js " done") H2 H3 H4).
  - exact (proj2 (proj2 cleaned_strips_first_fence) _ H5).
Defined.

(** C7 as stated fails: a text in which a fenced block stands between other
    words is not wrapped in a fence, and yet the step alters it. *)
Lemma cleaned_alters_unwrapped_text :
  ~ (forall text, exec fence_whole text = None -> cleaned text = trim text).
Proof.
  intros H.
  specialize (H (jsq "Sure: ```json {'final':'hi'} ``` done") eq_refl).
  vm_compute in H. discriminate H.
Qed.

(** ** JSON strings: writing and reading back *)

Section JsonFacts.

Context {NO : NumberOps}.

(** *** The fuel of [JSON.parse] *)

Lemma skip_ws_length s : (length (JSON.skip_ws s) <= length s)%nat.
Proof.
  induction s as [|c s IH]; cbn [JSON.skip_ws]; [lia|].
  destruct (JSON.is_ws c); cbn [length]; lia.
Qed.

Lemma skip_ws_cons s c s' :
  JSON.skip_ws s = c :: s' -> (length s' < length s)%nat.
Proof. intros H. pose proof (skip_ws_length s) as Hl. rewrite H in Hl. cbn in Hl. lia. Qed.

Lemma parse_chars_length s : forall t r,
  JSON.parse_chars s = Some (t, r) -> (length r < length s)%nat.
Proof.
  induction s as [s IH] using (induction_ltof1 _ (@length N)). unfold ltof in IH.
  intros t r H. destruct s as [|c s1]; [discriminate|]. cbn [JSON.parse_chars] in H.
  destruct (c =? 34); [injection H as <- <-; cbn; lia|].
  destruct (c =? 92).
  - destruct s1 as [|e s2]; [discriminate|].
    destruct (e =? 117).
    + destruct s2 as [|a [|b [|c' [|d s3]]]]; try discriminate.
      destruct (JSON.hex4 a b c' d); [|discriminate].
      destruct (JSON.parse_chars s3) as [[t' r']|] eqn:E; [|discriminate].
      injection H as <- <-. apply IH in E; cbn [length] in *; lia.
    + destruct (JSON.unescape e); [|discriminate].
      destruct (JSON.parse_chars s2) as [[t' r']|] eqn:E; [|discriminate].
      injection H as <- <-. apply IH in E; cbn [length] in *; lia.
  - destruct (c <? 32); [discriminate|].
    destruct (JSON.parse_chars s1) as [[t' r']|] eqn:E; [|discriminate].
    injection H as <- <-. apply IH in E; cbn [length] in *; lia.
Qed.

Lemma digits_length s : forall ds r,
  JSON.digits s = (ds, r) -> (length r <= length s)%nat.
Proof.
  induction s as [|c s IH]; intros ds r H; cbn [JSON.digits] in H.
  - injection H as <- <-. lia.
  - destruct (JSON.is_digit c).
    + destruct (JSON.digits s) as [ds' r'] eqn:E. injection H as <- <-.
      specialize (IH _ _ eq_refl). cbn [length]. lia.
    + injection H as <- <-. lia.
Qed.

Lemma digits1_length s ds r :
  JSON.digits1 s = Some (ds, r) -> (length r <= length s)%nat.
Proof.
  unfold JSON.digits1. destruct (JSON.digits s) as [[|d ds'] r'] eqn:E; [discriminate|].
  intros H. injection H as <- <-. eapply digits_length, E.
Qed.

Lemma parse_number_length s tok r :
  JSON.parse_number s = Some (tok, r) -> (length r < length s)%nat.
Proof.
  unfold JSON.parse_number.
  destruct (match s with
            | c :: s' => if c =? 45 then ([45], s') else ([], s)
            | [] => ([], s)
            end) as [sign s0] eqn:Es.
  assert (H0 : (length s0 <= length s)%nat).
  { destruct s as [|c s']; [injection Es as <- <-; lia|].
    destruct (c =? 45); injection Es as <- <-; cbn [length]; lia. }
  destruct (match s0 with
            | c :: s' =>
                if c =? 48 then Some ([48], s')
                else if JSON.is_digit c then let '(ds, r) := JSON.digits s' in Some (c :: ds, r)
                else None
            | [] => None
            end) as [[i s1]|] eqn:Ei; [|discriminate].
  assert (H1 : (length s1 < length s0)%nat).
  { destruct s0 as [|c s']; [discriminate|].
    destruct (c =? 48); [injection Ei as <- <-; cbn [length]; lia|].
    destruct (JSON.is_digit c); [|discriminate].
    destruct (JSON.digits s') as [ds r'] eqn:E. injection Ei as <- <-.
    apply digits_length in E. cbn [length]. lia. }
  destruct (match s1 with
            | c :: s' =>
                if c =? 46 then
                  match JSON.digits1 s' with
                  | Some (ds, r) => Some (46 :: ds, r)
                  | None => None
                  end
                else Some ([], s1)
            | [] => Some ([], s1)
            end) as [[f s2]|] eqn:Ef; [|discriminate].
  assert (H2 : (length s2 <= length s1)%nat).
  { destruct s1 as [|c s']; [injection Ef as <- <-; lia|].
    destruct (c =? 46); [|injection Ef as <- <-; lia].
    destruct (JSON.digits1 s') as [[ds r']|] eqn:E; [|discriminate].
    injection Ef as <- <-. apply digits1_length in E. cbn [length]. lia. }
  destruct (match s2 with
            | c :: s' =>
                if (c =? 101) || (c =? 69) then
                  let '(sg, s'') :=
                    match s' with
                    | c' :: t => if (c' =? 43) || (c' =? 45) then ([c'], t) else ([], s')
                    | [] => ([], s')
                    end in
                  match JSON.digits1 s'' with
                  | Some (ds, r) => Some (c :: sg ++ ds, r)
                  | None => None
                  end
                else Some ([], s2)
            | [] => Some ([], s2)
            end) as [[e s3]|] eqn:Ee; [|discriminate].
  assert (H3 : (length s3 <= length s2)%nat).
  { destruct s2 as [|c s']; [injection Ee as <- <-; lia|].
    destruct ((c =? 101) || (c =? 69)); [|injection Ee as <- <-; lia].
    destruct (match s' with
              | c' :: t => if (c' =? 43) || (c' =? 45) then ([c'], t) else ([], s')
              | [] => ([], s')
              end) as [sg s''] eqn:Eg.
    assert (length s'' <= length s')%nat.
    { destruct s' as [|c' t]; [injection Eg as <- <-; lia|].
      destruct ((c' =? 43) || (c' =? 45)); injection Eg as <- <-; cbn [length]; lia. }
    destruct (JSON.digits1 s'') as [[ds r']|] eqn:E; [|discriminate].
    injection Ee as <- <-. apply digits1_length in E. cbn [length]. lia. }
  intros H. injection H as <- <-. lia.
Qed.


Lemma drop_prefix_length (p s : jsstring) :
  isPrefixOf p s = true -> (length (drop (length p) s) + length p = length s)%nat.
Proof.
  revert s. induction p as [|a p IH]; intros s H; cbn [length drop]; [rewrite drop_0; lia|].
  destruct s as [|b s]; [discriminate|]. cbn [isPrefixOf] in H.
  apply andb_prop in H as [_ H]. specialize (IH s H). cbn [drop length]. lia.
Qed.

Lemma parse_fuel f :
  (forall s v r, JSON.parse_value f s = Some (v, r) ->
     (length r < length s)%nat /\
     forall g, (2 * (length s - length r) <= g)%nat -> JSON.parse_value g s = Some (v, r)) /\
  (forall s acc v r, JSON.parse_elements f s acc = Some (v, r) ->
     (length r < length s)%nat /\
     forall g, (2 * (length s - length r) <= g)%nat -> JSON.parse_elements g s acc = Some (v, r)) /\
  (forall s acc v r, JSON.parse_members f s acc = Some (v, r) ->
     (length r < length s)%nat /\
     forall g, (2 * (length s - length r) <= g)%nat -> JSON.parse_members g s acc = Some (v, r)).
Proof.
  induction f as [|f (IHv & IHe & IHm)]; [repeat split; discriminate|].
  split; [|split].
  - intros s v r H. cbn [JSON.parse_value] in H.
    pose proof (skip_ws_length s) as Hs.
    destruct (JSON.skip_ws s) as [|c s1] eqn:E; [discriminate|]. cbn [length] in Hs.
    assert (Hstep : forall g, JSON.parse_value (S g) s =
              if c =? 123 then
                match JSON.skip_ws s1 with
                | c2 :: s2 =>
                    if c2 =? 125 then Some (VObj [], s2) else JSON.parse_members g s1 []
                | [] => None
                end
              else if c =? 91 then
                match JSON.skip_ws s1 with
                | c2 :: s2 =>
                    if c2 =? 93 then Some (VArr [], s2) else JSON.parse_elements g s1 []
                | [] => None
                end
              else if c =? 34 then
                match JSON.parse_chars s1 with
                | Some (t, r) => Some (VStr t, r)
                | None => None
                end
              else if isPrefixOf (js "true") (c :: s1) then Some (VBool true, drop 4 (c :: s1))
              else if isPrefixOf (js "false") (c :: s1) then Some (VBool false, drop 5 (c :: s1))
              else if isPrefixOf (js "null") (c :: s1) then Some (VNull, drop 4 (c :: s1))
              else
                match JSON.parse_number (c :: s1) with
                | Some (tok, r) => Some (VNum (number_of_string tok), r)
                | None => None
                end).
    { intros g. cbn [JSON.parse_value]. rewrite E. reflexivity. }
    destruct (c =? 123).
    { pose proof (skip_ws_length s1) as Hs1.
      destruct (JSON.skip_ws s1) as [|c2 s2] eqn:E2; [discriminate|]. cbn [length] in Hs1.
      destruct (c2 =? 125).
      - injection H as <- <-. split; [lia|]. intros [|g] Hg; [lia|]. rewrite Hstep. reflexivity.
      - apply IHm in H as (Hr & Hg). split; [lia|].
        intros [|g] Hg'; [lia|]. rewrite Hstep. apply Hg. lia. }
    destruct (c =? 91).
    { pose proof (skip_ws_length s1) as Hs1.
      destruct (JSON.skip_ws s1) as [|c2 s2] eqn:E2; [discriminate|]. cbn [length] in Hs1.
      destruct (c2 =? 93).
      - injection H as <- <-. split; [lia|]. intros [|g] Hg; [lia|]. rewrite Hstep. reflexivity.
      - apply IHe in H as (Hr & Hg). split; [lia|].
        intros [|g] Hg'; [lia|]. rewrite Hstep. apply Hg. lia. }
    destruct (c =? 34).
    { destruct (JSON.parse_chars s1) as [[t r']|] eqn:Ec; [|discriminate].
      injection H as <- <-. apply parse_chars_length in Ec.
      split; [lia|]. intros [|g] Hg; [lia|]. rewrite Hstep. reflexivity. }
    destruct (isPrefixOf (js "true") (c :: s1)) eqn:Et.
    { injection H as <- <-. apply drop_prefix_length in Et.
      change (length (js "true")) with 4%nat in Et. cbn [length drop] in Et.
      split; [lia|]. intros [|g] Hg; [lia|]. rewrite Hstep. reflexivity. }
    destruct (isPrefixOf (js "false") (c :: s1)) eqn:Ef.
    { injection H as <- <-. apply drop_prefix_length in Ef.
      change (length (js "false")) with 5%nat in Ef. cbn [length drop] in Ef.
      split; [lia|]. intros [|g] Hg; [lia|]. rewrite Hstep. reflexivity. }
    destruct (isPrefixOf (js "null") (c :: s1)) eqn:En.
    { injection H as <- <-. apply drop_prefix_length in En.
      change (length (js "null")) with 4%nat in En. cbn [length drop] in En.
      split; [lia|]. intros [|g] Hg; [lia|]. rewrite Hstep. reflexivity. }
    destruct (JSON.parse_number (c :: s1)) as [[tok r']|] eqn:Ep; [|discriminate].
    injection H as <- <-. apply parse_number_length in Ep. cbn [length] in Ep.
    split; [lia|]. intros [|g] Hg; [lia|]. rewrite Hstep. reflexivity.
  - intros s acc v r H. cbn [JSON.parse_elements] in H.
    destruct (JSON.parse_value f s) as [[x s1]|] eqn:Ev; [|discriminate].
    apply IHv in Ev as (Hs1 & Hv).
    pose proof (skip_ws_length s1) as Hw.
    destruct (JSON.skip_ws s1) as [|c s2] eqn:E; [discriminate|]. cbn [length] in Hw.
    destruct (c =? 44) eqn:E44.
    + apply IHe in H as (Hr & He). split; [lia|].
      intros [|g] Hg; [lia|]. cbn [JSON.parse_elements].
      rewrite Hv by lia. rewrite E, E44. apply He. lia.
    + destruct (c =? 93) eqn:E93; [|discriminate]. injection H as <- <-.
      split; [lia|]. intros [|g] Hg; [lia|]. cbn [JSON.parse_elements].
      rewrite Hv by lia. rewrite E, E44, E93. reflexivity.
  - intros s acc v r H. cbn [JSON.parse_members] in H.
    pose proof (skip_ws_length s) as Hs.
    destruct (JSON.skip_ws s) as [|c s1] eqn:E; [discriminate|]. cbn [length] in Hs.
    destruct (c =? 34) eqn:E34; [|discriminate].
    destruct (JSON.parse_chars s1) as [[k s2]|] eqn:Ec; [|discriminate].
    pose proof (parse_chars_length _ _ _ Ec) as Hs2.
    pose proof (skip_ws_length s2) as Hw2.
    destruct (JSON.skip_ws s2) as [|c2 s3] eqn:E2; [discriminate|]. cbn [length] in Hw2.
    destruct (c2 =? 58) eqn:E58; [|discriminate].
    destruct (JSON.parse_value f s3) as [[x s4]|] eqn:Ev; [|discriminate].
    apply IHv in Ev as (Hs4 & Hv).
    pose proof (skip_ws_length s4) as Hw4.
    destruct (JSON.skip_ws s4) as [|c3 s5] eqn:E4; [discriminate|]. cbn [length] in Hw4.
    destruct (c3 =? 44) eqn:E44.
    + apply IHm in H as (Hr & Hm). split; [lia|].
      intros [|g] Hg; [lia|]. cbn [JSON.parse_members].
      rewrite E, E34, Ec, E2, E58. rewrite Hv by lia. rewrite E4, E44. apply Hm. lia.
    + destruct (c3 =? 125) eqn:E125; [|discriminate]. injection H as <- <-.
      split; [lia|]. intros [|g] Hg; [lia|]. cbn [JSON.parse_members].
      rewrite E, E34, Ec, E2, E58. rewrite Hv by lia. rewrite E4, E44, E125. reflexivity.
Qed.

(** The fuel [JSON.parse] gives is enough: a value found with any fuel is
    the value [parse] returns. *)
Lemma parse_enough_fuel f text v r :
  JSON.parse_value f text = Some (v, r) -> JSON.skip_ws r = [] ->
  JSON.parse text = Normal v.
Proof.
  intros H Hr. destruct (parse_fuel f) as (Hv & _).
  apply Hv in H as (Hl & H). unfold JSON.parse.
  rewrite H by lia. rewrite Hr. reflexivity.
Qed.

(** *** Escapes *)

Lemma hexval_hexdigit n : n < 16 -> JSON.hexval (JSON.hexdigit n) = Some n.
Proof.
  intros Hn. unfold JSON.hexval, JSON.hexdigit, JSON.is_digit.
  destruct (n <? 10) eqn:E.
  - apply N.ltb_lt in E.
    replace ((48 <=? 48 + n) && (48 + n <=? 57)) with true
      by (symmetry; apply andb_true_iff; split; apply N.leb_le; lia).
    f_equal. lia.
  - apply N.ltb_ge in E.
    replace ((48 <=? 87 + n) && (87 + n <=? 57)) with false
      by (symmetry; apply andb_false_iff; right; apply N.leb_gt; lia).
    replace ((97 <=? 87 + n) && (87 + n <=? 102)) with true
      by (symmetry; apply andb_true_iff; split; apply N.leb_le; lia).
    f_equal. lia.
Qed.

(** The four hexadecimal digits of an escape denote the code unit they
    were made from. *)
Lemma hex4_escape c :
  c < 65536 ->
  JSON.hex4 (JSON.hexdigit (c / 4096 mod 16)) (JSON.hexdigit (c / 256 mod 16))
            (JSON.hexdigit (c / 16 mod 16)) (JSON.hexdigit (c mod 16)) = Some c.
Proof.
  intros Hc. unfold JSON.hex4.
  rewrite !hexval_hexdigit by (apply N.mod_lt; discriminate).
  f_equal.
  assert (E1 : c / 256 = c / 16 / 16) by (rewrite N.Div0.div_div; reflexivity).
  assert (E2 : c / 4096 = c / 256 / 16) by (rewrite N.Div0.div_div; reflexivity).
  pose proof (N.div_mod c 16 ltac:(discriminate)) as H0.
  pose proof (N.div_mod (c / 16) 16 ltac:(discriminate)) as H1.
  pose proof (N.div_mod (c / 256) 16 ltac:(discriminate)) as H2.
  rewrite <- E1 in H1. rewrite <- E2 in H2.
  assert (H3 : c / 4096 mod 16 = c / 4096).
  { apply N.mod_small. apply N.Div0.div_lt_upper_bound. clear - Hc. lia. }
  rewrite H3. clear E1 E2 H3.
  generalize dependent (c mod 16). generalize dependent (c / 16 mod 16).
  generalize dependent (c / 256 mod 16). generalize dependent (c / 4096).
  generalize dependent (c / 256). generalize dependent (c / 16).
  intros. lia.
Qed.

Lemma parse_chars_plain c t X r :
  32 <= c -> c <> 34 -> c <> 92 ->
  JSON.parse_chars t = Some (X, r) ->
  JSON.parse_chars (c :: t) = Some (c :: X, r).
Proof.
  intros H32 H34 H92 Ht. cbn [JSON.parse_chars].
  apply N.eqb_neq in H34, H92. rewrite H34, H92.
  replace (c <? 32) with false by (symmetry; apply N.ltb_ge; exact H32).
  rewrite Ht. reflexivity.
Qed.

Lemma parse_chars_unit c t X r :
  JSON.parse_chars t = Some (X, r) ->
  JSON.parse_chars (JSON.quote_unit c ++ t) = Some (c :: X, r).
Proof.
  intros Ht. unfold JSON.quote_unit.
  repeat match goal with
  | |- context [if ?c =? ?n then _ else _] =>
      let E := fresh "E" in
      destruct (c =? n) eqn:E;
        [ apply N.eqb_eq in E; subst c; cbn; rewrite Ht; reflexivity
        | apply N.eqb_neq in E ]
  end.
  destruct ((c <? 32) || JSON.is_high c || JSON.is_low c) eqn:Hesc.
  - assert (Hc : c < 65536).
    { unfold JSON.is_high, JSON.is_low in Hesc.
      apply orb_true_iff in Hesc as [Hesc|Hesc];
        [apply orb_true_iff in Hesc as [Hesc|Hesc]|].
      - apply N.ltb_lt in Hesc. lia.
      - apply andb_true_iff in Hesc as (_ & H). apply N.leb_le in H. lia.
      - apply andb_true_iff in Hesc as (_ & H). apply N.leb_le in H. lia. }
    unfold JSON.unicode_escape. cbn [app JSON.parse_chars].
    change (92 =? 34) with false. change (92 =? 92) with true.
    change (117 =? 117) with true. cbv iota.
    rewrite (hex4_escape c Hc), Ht. reflexivity.
  - apply orb_false_iff in Hesc as (Hesc & _).
    apply orb_false_iff in Hesc as (Hesc & _). apply N.ltb_ge in Hesc.
    apply parse_chars_plain; assumption.
Qed.

Lemma surrogate_plain c : JSON.is_high c || JSON.is_low c = true -> 32 <= c /\ c <> 34 /\ c <> 92.
Proof.
  unfold JSON.is_high, JSON.is_low. intros H.
  apply orb_true_iff in H as [H|H]; apply andb_true_iff in H as (H & _);
    apply N.leb_le in H; lia.
Qed.

(** [JSON.parse] reads back what [QuoteJSONString] wrote. *)
Lemma parse_chars_quote_body X :
  (forall r, JSON.parse_chars (JSON.quote_body X ++ 34 :: r) = Some (X, r)) /\
  (forall c r, JSON.parse_chars (JSON.quote_body (c :: X) ++ 34 :: r) = Some (c :: X, r)).
Proof.
  induction X as [|x X (IH1 & IH2)].
  - split; [reflexivity|]. intros c r. cbn [JSON.quote_body].
    apply parse_chars_unit. reflexivity.
  - split; [apply IH2|]. intros c r. cbn [JSON.quote_body].
    destruct (JSON.is_high c && JSON.is_low x) eqn:Hp.
    + apply andb_true_iff in Hp as (Hh & Hl).
      destruct (surrogate_plain c) as (? & ? & ?); [rewrite Hh; reflexivity|].
      destruct (surrogate_plain x) as (? & ? & ?); [rewrite Hl; apply orb_true_r|].
      cbn [app]. apply parse_chars_plain; try assumption.
      apply parse_chars_plain; try assumption. apply IH1.
    + rewrite <- app_assoc. apply parse_chars_unit. apply IH2.
Qed.


Lemma eqb_refl (a : jsstring) : JsStr.eqb a a = true.
Proof. apply bool_decide_eq_true. reflexivity. Qed.

Lemma parse_value_string f t X r :
  JSON.parse_chars t = Some (X, r) ->
  JSON.parse_value (S f) (34 :: t) = Some (VStr X, r).
Proof.
  intros H. cbn [JSON.parse_value JSON.skip_ws].
  change (JSON.is_ws 34) with false. cbv iota.
  change (34 =? 123) with false. change (34 =? 91) with false.
  change (34 =? 34) with true. cbv iota. rewrite H. reflexivity.
Qed.

Lemma parse_members_last f t1 k t2 v t3 acc :
  JSON.parse_chars t1 = Some (k, 58 :: t2) ->
  JSON.parse_value f t2 = Some (v, 125 :: t3) ->
  JSON.parse_members (S f) (34 :: t1) acc = Some (VObj (JSON.obj_set k v acc), t3).
Proof.
  intros H1 H2. cbn [JSON.parse_members JSON.skip_ws].
  change (JSON.is_ws 34) with false. cbv iota.
  change (34 =? 34) with true. cbv iota. rewrite H1.
  cbn [JSON.skip_ws]. change (JSON.is_ws 58) with false. cbv iota.
  change (58 =? 58) with true. cbv iota. rewrite H2.
  cbn [JSON.skip_ws]. change (JSON.is_ws 125) with false. cbv iota.
  change (125 =? 44) with false. change (125 =? 125) with true. reflexivity.
Qed.

Lemma parse_value_object f t r :
  JSON.parse_members f (34 :: t) [] = r ->
  JSON.parse_value (S f) (123 :: 34 :: t) = r.
Proof.
  intros H. cbn [JSON.parse_value JSON.skip_ws].
  change (JSON.is_ws 123) with false. cbv iota.
  change (123 =? 123) with true. cbv iota.
  change (JSON.is_ws 34) with false. cbv iota.
  change (34 =? 125) with false. cbv iota. exact H.
Qed.

Lemma parse_value_final X f :
  JSON.parse_value (S (S (S f))) (final_text X) =
  Some (VObj [(js "final", VStr X)], []).
Proof.
  unfold final_text, JSON.quote.
  change (jsq "{'final':" ++ (34 :: JSON.quote_body X ++ [34]) ++ js "}")
    with (123 :: 34 :: js "final" ++ 34 :: 58 :: 34 :: (JSON.quote_body X ++ [34]) ++ [125]).
  rewrite <- app_assoc.
  apply parse_value_object.
  rewrite (parse_members_last (S f) _ (js "final")
             (34 :: JSON.quote_body X ++ [34] ++ [125]) (VStr X) [] []);
    [reflexivity | reflexivity |].
  apply parse_value_string. apply (proj1 (parse_chars_quote_body X)).
Qed.

Lemma parse_final X : JSON.parse (final_text X) = Normal (VObj [(js "final", VStr X)]).
Proof.
  unfold JSON.parse.
  assert (H : exists f, (2 + 2 * length (final_text X))%nat = S (S (S f))).
  { unfold final_text. simpl. eauto. }
  destruct H as (f & ->). rewrite parse_value_final. reflexivity.
Qed.

(** *** The fence counter on quoted text *)

Lemma hexdigit_not_tick n : n < 16 -> JSON.hexdigit n <> 96.
Proof. unfold JSON.hexdigit. intros Hn. destruct (n <? 10) eqn:E; [|apply N.ltb_ge in E]; lia. Qed.

Lemma quote_unit_block c :
  c <> 96 -> JSON.quote_unit c <> [] /\ 96 ∉ JSON.quote_unit c.
Proof.
  intros Hc. unfold JSON.quote_unit.
  repeat match goal with
  | |- context [if c =? ?n then _ else _] =>
      destruct (c =? n); [split; [discriminate | compute_done]|]
  end.
  destruct ((c <? 32) || JSON.is_high c || JSON.is_low c).
  - split; [discriminate|]. unfold JSON.unicode_escape.
    rewrite !not_elem_of_cons. repeat split; try discriminate;
      try (apply not_eq_sym, hexdigit_not_tick, N.mod_lt; discriminate).
    apply not_elem_of_nil.
  - split; [discriminate|]. rewrite not_elem_of_cons. split; [congruence | apply not_elem_of_nil].
Qed.

(** Quoting a string neither makes nor breaks a run of backticks. *)
Lemma fences_quote_body X :
  (forall k r, fences k (JSON.quote_body X ++ r) = fences k (X ++ r)) /\
  (forall c k r, fences k (JSON.quote_body (c :: X) ++ r) = fences k ((c :: X) ++ r)).
Proof.
  assert (Hunit : forall c k t t', (forall k, fences k t = fences k t') ->
            fences k (JSON.quote_unit c ++ t) = fences k (c :: t')).
  { intros c k t t' Ht. destruct (N.eq_dec c 96) as [->|Hc].
    - change (JSON.quote_unit 96) with [96]. cbn [app fences].
      change (96 =? 96) with true. cbv iota. rewrite !Ht. reflexivity.
    - destruct (quote_unit_block c Hc) as (Hne & Hno).
      rewrite fences_block by assumption. cbn [fences].
      replace (c =? 96) with false by (symmetry; apply N.eqb_neq, Hc).
      apply Ht. }
  induction X as [|x X (IH1 & IH2)].
  - split; [reflexivity|]. intros c k r. cbn [JSON.quote_body].
    apply Hunit. reflexivity.
  - split; [apply IH2|]. intros c k r. cbn [JSON.quote_body].
    destruct (JSON.is_high c && JSON.is_low x) eqn:Hp.
    + apply andb_true_iff in Hp as (Hh & Hl).
      cbn [app fences].
      replace (c =? 96) with false
        by (symmetry; apply N.eqb_neq; intros ->; discriminate).
      replace (x =? 96) with false
        by (symmetry; apply N.eqb_neq; intros ->; discriminate).
      apply IH1.
    + rewrite <- app_assoc. apply Hunit. intros k'. apply IH2.
Qed.

Lemma fence_count_final X : fence_count (final_text X) = fence_count X.
Proof.
  unfold fence_count, final_text, JSON.quote.
  rewrite fences_block by (try discriminate; compute_done).
  change ((34 :: JSON.quote_body X ++ [34]) ++ js "}")
    with ([34] ++ (JSON.quote_body X ++ [34]) ++ js "}").
  rewrite fences_block by (try discriminate; compute_done).
  rewrite <- app_assoc, (proj1 (fences_quote_body X)).
  apply fences_app_no_tick. compute_done.
Qed.

Lemma trim_braces s : trim (123 :: s ++ [125]) = 123 :: s ++ [125].
Proof.
  unfold trim, trimEnd. cbn [trimStart]. change (is_space 123) with false. cbv iota.
  change (123 :: s ++ [125]) with ((123 :: s) ++ [125]).
  rewrite rev_app_distr. cbn [rev app trimStart].
  change (is_space 125) with false. cbv iota.
  change (125 :: rev s ++ [123]) with ([125] ++ rev ((123 :: s))).
  rewrite rev_app_distr, rev_involutive. reflexivity.
Qed.

(** C3 (as amended). For every string [X] that does not hold two disjoint
    runs of three backticks, [tryParseToolCall] applied to the JSON text of
    the object with the one member [final], the string [X] written as
    [JSON.stringify] writes it, returns the content decision with content
    [X] and stopReason [final]; it does so also when [X] holds characters
    that are escaped in JSON. *)
Theorem final_answer_round_trip (now : N) (X : jsstring) :
  (fence_count X < 2)%nat ->
  tryParseToolCall now (final_text X) = Normal (decision VNull (VStr X) "final").
Proof.
  intros HX. unfold tryParseToolCall, attempts.
  rewrite cleaned_no_fence by (rewrite fence_count_final; exact HX).
  assert (Htrim : trim (final_text X) = final_text X).
  { unfold final_text, JSON.quote.
    change (jsq "{'final':" ++ (34 :: JSON.quote_body X ++ [34]) ++ js "}")
      with (123 :: (34 :: js "final" ++ 34 :: 58 :: 34 :: JSON.quote_body X ++ [34]) ++ [125]).
    apply trim_braces. }
  rewrite Htrim. unfold strict. rewrite parse_final.
  cbn [bind get assoc]. rewrite eqb_refl. reflexivity.
Qed.

End JsonFacts.

Lemma final_answer_round_trip_witness :
  (fence_count (jsq "say 'hi' \ `ok`") < 2)%nat /\
  tryParseToolCall (NO := DecimalText) 0 (final_text (jsq "say 'hi' \ `ok`")) =
  Normal (decision VNull (VStr (jsq "say 'hi' \ `ok`")) "final").
Proof.
  assert (H : (fence_count (jsq "say 'hi' \ `ok`") < 2)%nat) by (vm_compute; lia).
  exact (conj H (final_answer_round_trip 0 _ H)).
Defined.

(** C3 as stated fails: a fenced block inside the final answer is stripped
    before the text is parsed, so the content returned is not the string
    that was encoded. *)
Lemma final_answer_fence_stripped :
  tryParseToolCall (NO := DecimalText) 0 (final_text (js "```a```")) =
    Normal (decision VNull (VStr (js "a")) "final") /\
  tryParseToolCall (NO := DecimalText) 0 (final_text (js "```a```")) <>
    Normal (decision VNull (VStr (js "```a```")) "final").
Proof.
  split; [vm_compute; reflexivity|].
  intros H. vm_compute in H. discriminate H.
Qed.


Import Sanitizer.

(** ** The sanitizer *)

Section SanitizerFacts.

Context {NO : NumberOps}.

(** A pattern of one literal character matches at an occurrence of it. *)
Lemma exec_from_lit c s : forall i res,
  exec_from (lit c) s i = Some res ->
  exists a b, s = a ++ c :: b /\ m_start res = (i + length a)%nat /\
              m_end res = S (m_start res).
Proof.
  induction s as [|x s IH]; intros i res H; cbn [exec_from] in H.
  - discriminate.
  - unfold match_at in H. cbn [m lit rest] in H.
    destruct (c =? x) eqn:E.
    + injection H as <-. apply N.eqb_eq in E. subst x.
      exists [], s. cbn. repeat split. lia.
    + apply IH in H as (a & b & -> & Hs & He).
      exists (x :: a), b. cbn [length app]. repeat split; [lia | assumption].
Qed.

(** Replacing every occurrence of a character by itself changes nothing. *)
Lemma replace_all_from_same c fuel : forall s i,
  replace_all_from fuel (lit c) [RLit [c]] s i = s.
Proof.
  induction fuel as [|fuel IH]; intros s i; cbn [replace_all_from]; [reflexivity|].
  destruct (exec_from (lit c) s i) as [res|] eqn:E; [|reflexivity].
  apply exec_from_lit in E as (a & b & -> & Hs & He).
  rewrite He, Hs.
  replace (S (i + length a) =? i + length a)%nat with false
    by (symmetry; apply Nat.eqb_neq; lia).
  replace (i + length a - i)%nat with (length a) by lia.
  replace (S (i + length a) - i)%nat with (length (a ++ [c])) by (rewrite length_app; simpl; lia).
  rewrite take_app_length.
  replace (a ++ c :: b) with ((a ++ [c]) ++ b) by (rewrite <- app_assoc; reflexivity).
  rewrite drop_app_length, IH. unfold expand. cbn. rewrite <- app_assoc. reflexivity.
Qed.

Lemma replace_all_same c s : replace_all (lit c) [RLit [c]] s = s.
Proof. apply replace_all_from_same. Qed.

(** The three replacements of [escAndTrunc] put back the character they
    take out, so only the truncation is left. *)
Lemma escAndTrunc_truncates limit s :
  escAndTrunc limit (Some s) =
  if (limit <? length s)%nat then take limit s ++ ellipsis else s.
Proof.
  unfold escAndTrunc.
  change (js ">") with [62]. change (js "<") with [60]. change (js "&") with [38].
  rewrite !replace_all_same. reflexivity.
Qed.

(** C5. [sanitizeObservation] does not escape: a string is returned as it
    is, cut at the limit; on the string "<b>R&D</b>" the result is the
    same string, with its ampersand and angle brackets. *)
Theorem sanitizeObservation_does_not_escape String_ limit h s :
  sanitizeObservation String_ limit h (HStr s) =
  if (limit <? length s)%nat then take limit s ++ ellipsis else s.
Proof. apply escAndTrunc_truncates. Qed.


(** *** The traversal terminates and does not throw *)

Lemma good_mono fuel h stack seen seen' :
  good fuel h stack seen -> seen ⊆ seen' -> good fuel h stack seen'.
Proof.
  intros (Hs & Hst) Hsub. split.
  - eapply Nat.le_lt_trans; [|exact Hs]. apply subseteq_size. set_solver.
  - intros x Hx. apply Hsub, Hst, Hx.
Qed.

Lemma good_descend fuel h stack seen l :
  good (S fuel) h stack seen -> l ∉ seen -> is_Some (h !! l) ->
  good fuel h (l :: stack) ({[l]} ∪ seen).
Proof.
  intros (Hs & Hst) Hl Hin. split.
  - assert (size (dom h ∖ ({[l]} ∪ seen)) < size (dom h ∖ seen))%nat; [|lia].
    apply subset_size. apply elem_of_dom in Hin. set_solver.
  - intros x Hx. apply elem_of_cons in Hx as [->|Hx]; set_solver.
Qed.

Section Loops.

Variable rec : gset loc -> hvalue -> sres.
Variable finish : list jsstring -> jsstring.
Variable G : gset loc -> Prop.
Hypothesis G_mono : forall seen seen', G seen -> seen ⊆ seen' -> G seen'.
Hypothesis rec_total :
  forall seen x, G seen -> exists t seen', rec seen x = SOk t seen' /\ seen ⊆ seen'.

Lemma members_loop_total ps : forall seen partial,
  G seen ->
  exists t seen', members_loop rec finish ps seen partial = SOk (Some t) seen' /\ seen ⊆ seen'.
Proof.
  induction ps as [|[k x] ps IH]; intros seen partial HG; cbn [members_loop].
  - eauto.
  - destruct (rec_total seen x HG) as (t & seen1 & -> & Hsub).
    assert (HG1 : G seen1) by (eapply G_mono; eassumption).
    destruct t as [t|];
      [destruct (IH seen1 (partial ++ [JSON.quote k ++ js ": " ++ t]) HG1) as (t' & seen2 & -> & Hsub2)
      |destruct (IH seen1 partial HG1) as (t' & seen2 & -> & Hsub2)];
      exists t', seen2; (split; [reflexivity | set_solver]).
Qed.

Lemma elements_loop_total xs : forall seen partial,
  G seen ->
  exists t seen', elements_loop rec finish xs seen partial = SOk (Some t) seen' /\ seen ⊆ seen'.
Proof.
  induction xs as [|x xs IH]; intros seen partial HG; cbn [elements_loop].
  - eauto.
  - destruct (rec_total seen x HG) as (t & seen1 & -> & Hsub).
    assert (HG1 : G seen1) by (eapply G_mono; eassumption).
    destruct t as [t|];
      [destruct (IH seen1 (partial ++ [t]) HG1) as (t' & seen2 & -> & Hsub2)
      |destruct (IH seen1 (partial ++ [js "null"]) HG1) as (t' & seen2 & -> & Hsub2)];
      exists t', seen2; (split; [reflexivity | set_solver]).
Qed.

End Loops.

Lemma deref_Some (h : heap) l o : h !! l = Some o -> deref h l = o.
Proof. unfold deref. intros ->. reflexivity. Qed.

Lemma deref_None (h : heap) l : h !! l = None -> deref h l = HObject [].
Proof. unfold deref. intros ->. reflexivity. Qed.

(** With enough fuel the serialization returns a text or [undefined]: it
    neither gets stuck nor throws. *)
Lemma ser_total fuel : forall h stack indent seen v,
  good fuel h stack seen ->
  exists t seen', ser fuel h stack indent seen v = SOk t seen' /\ seen ⊆ seen'.
Proof.
  induction fuel as [|f IH]; intros h stack indent seen v Hg.
  - destruct Hg as (Hs & _). lia.
  - cbn [ser].
    destruct v as [| |b|n|z|s| |l]; cbn [replacer]; try (eexists _, _; split; [reflexivity|set_solver]).
    + destruct b; eexists _, _; (split; [reflexivity|set_solver]).
    + destruct (bool_decide (l ∈ seen)) eqn:Hl.
      * eexists _, _. split; [reflexivity|set_solver].
      * apply bool_decide_eq_false in Hl.
        replace (bool_decide (l ∈ stack)) with false
          by (symmetry; apply bool_decide_eq_false; intros Hin; apply Hl, Hg, Hin).
        destruct (h !! l) as [o|] eqn:Ho;
          [rewrite (deref_Some _ _ _ Ho) | rewrite (deref_None _ _ Ho)].
        -- assert (Hg1 : good f h (l :: stack) ({[l]} ∪ seen))
             by (apply good_descend; eauto).
           destruct o as [props|elems].
           ++ destruct (members_loop_total (ser f h (l :: stack) (indent ++ gap))
                          (wrap (js "{") (js "}") (indent ++ gap) indent)
                          (good f h (l :: stack)) (good_mono f h (l :: stack))
                          (fun seen x Hx => IH h (l :: stack) (indent ++ gap) seen x Hx)
                          (JSON.own_properties props) _ [] Hg1) as (t & seen' & -> & Hsub).
              exists (Some t), seen'. split; [reflexivity|set_solver].
           ++ destruct (elements_loop_total (ser f h (l :: stack) (indent ++ gap))
                          (wrap (js "[") (js "]") (indent ++ gap) indent)
                          (good f h (l :: stack)) (good_mono f h (l :: stack))
                          (fun seen x Hx => IH h (l :: stack) (indent ++ gap) seen x Hx)
                          elems _ [] Hg1) as (t & seen' & -> & Hsub).
              exists (Some t), seen'. split; [reflexivity|set_solver].
        -- eexists _, _. split; [reflexivity|set_solver].
Qed.

Lemma good_initial h : good (S (S (size h))) h [] ∅.
Proof.
  split.
  - rewrite difference_empty_L, size_dom. lia.
  - intros x Hx. inversion Hx.
Qed.

Lemma stringify_seen_total h v : exists t seen, stringify_seen h v = SOk t seen.
Proof.
  destruct (ser_total _ h [] [] ∅ v (good_initial h)) as (t & seen & H & _). eauto.
Qed.


(** *** The marker of a cyclic value *)

Lemma includes_spec w s : includes w s = true <-> contains w s.
Proof.
  unfold contains. induction s as [|c s IH]; cbn [includes].
  - rewrite orb_false_r. split.
    + intros H. apply isPrefixOf_spec in H as (t & Ht).
      exists [], t. exact Ht.
    + intros (a & b & H). apply isPrefixOf_spec.
      destruct a; [|discriminate]. eauto.
  - rewrite orb_true_iff, IH. split.
    + intros [H|(a & b & ->)].
      * apply isPrefixOf_spec in H as (t & ->). exists [], t. reflexivity.
      * exists (c :: a), b. reflexivity.
    + intros (a & b & H). destruct a as [|x a].
      * left. apply isPrefixOf_spec. eauto.
      * right. injection H as -> ->. eauto.
Qed.

Lemma contains_app_l w s t : contains w s -> contains w (s ++ t).
Proof. intros (a & b & ->). exists a, (b ++ t). rewrite <- !app_assoc. reflexivity. Qed.

Lemma contains_app_r w s t : contains w t -> contains w (s ++ t).
Proof. intros (a & b & ->). exists (s ++ a), b. rewrite <- !app_assoc. reflexivity. Qed.

Lemma contains_join w sep l : Exists (contains w) l -> contains w (JSON.join sep l).
Proof.
  induction 1 as [x l Hx|x l Hl IH].
  - destruct l; cbn [JSON.join]; [assumption | apply contains_app_l, Hx].
  - destruct l as [|y l]; [inversion Hl|].
    cbn [JSON.join] in *. apply contains_app_r, contains_app_r, IH.
Qed.

Lemma contains_wrap w open close indent stepback partial :
  Exists (contains w) partial -> contains w (wrap open close indent stepback partial).
Proof.
  intros H. unfold wrap. destruct partial as [|p partial]; [inversion H|].
  apply contains_app_r, contains_app_r, contains_app_r, contains_app_l.
  apply contains_join, H.
Qed.

Lemma Exists_snoc {A} (P : A -> Prop) l x : Exists P l \/ P x -> Exists P (l ++ [x]).
Proof. rewrite Exists_app, Exists_cons. tauto. Qed.

Section Marker.

Variable rec : gset loc -> hvalue -> sres.
Variable finish : list jsstring -> jsstring.
Variable G : gset loc -> Prop.
Variable w : jsstring.
Hypothesis G_mono : forall seen seen', G seen -> seen ⊆ seen' -> G seen'.
Hypothesis rec_total :
  forall seen x, G seen -> exists t seen', rec seen x = SOk t seen' /\ seen ⊆ seen'.
Hypothesis finish_keeps :
  forall partial, Exists (contains w) partial -> contains w (finish partial).

Lemma marked_mono seen seen' y :
  marked rec G w seen y -> seen ⊆ seen' -> marked rec G w seen' y.
Proof. intros H Hsub s Hs. apply H. set_solver. Qed.

Lemma members_loop_marker ps : forall seen partial,
  G seen ->
  Exists (contains w) partial \/ (exists k y, (k, y) ∈ ps /\ marked rec G w seen y) ->
  exists t seen', members_loop rec finish ps seen partial = SOk (Some t) seen' /\
                  contains w t.
Proof.
  induction ps as [|[k0 x] ps IH]; intros seen partial HG H; cbn [members_loop].
  - destruct H as [H|(k & y & Hin & _)]; [|inversion Hin].
    eexists _, _. split; [reflexivity | apply finish_keeps, H].
  - destruct (rec_total seen x HG) as (t & seen1 & Hrec & Hsub).
    assert (HG1 : G seen1) by (eapply G_mono; eassumption).
    destruct H as [H|(k & y & Hin & Hy)].
    + rewrite Hrec. destruct t as [t|]; apply IH; try assumption; left;
        [apply Exists_snoc; left|]; exact H.
    + apply elem_of_cons in Hin as [Heq|Hin].
      * injection Heq as -> ->.
        destruct (Hy seen ltac:(reflexivity) HG) as (t' & s' & Hrec' & Ht').
        rewrite Hrec' in *. injection Hrec as <- <-.
        apply IH; [assumption|]. left. apply Exists_snoc. right.
        apply contains_app_r, contains_app_r, Ht'.
      * rewrite Hrec. destruct t as [t|]; apply IH; try assumption; right;
          exists k, y; (split; [assumption | eapply marked_mono; eassumption]).
Qed.

Lemma elements_loop_marker xs : forall seen partial,
  G seen ->
  Exists (contains w) partial \/ (exists y, y ∈ xs /\ marked rec G w seen y) ->
  exists t seen', elements_loop rec finish xs seen partial = SOk (Some t) seen' /\
                  contains w t.
Proof.
  induction xs as [|x xs IH]; intros seen partial HG H; cbn [elements_loop].
  - destruct H as [H|(y & Hin & _)]; [|inversion Hin].
    eexists _, _. split; [reflexivity | apply finish_keeps, H].
  - destruct (rec_total seen x HG) as (t & seen1 & Hrec & Hsub).
    assert (HG1 : G seen1) by (eapply G_mono; eassumption).
    destruct H as [H|(y & Hin & Hy)].
    + rewrite Hrec. destruct t as [t|]; apply IH; try assumption; left;
        apply Exists_snoc; left; exact H.
    + apply elem_of_cons in Hin as [->|Hin].
      * destruct (Hy seen ltac:(reflexivity) HG) as (t' & s' & Hrec' & Ht').
        rewrite Hrec' in *. injection Hrec as <- <-.
        apply IH; [assumption|]. left. apply Exists_snoc. right. exact Ht'.
      * rewrite Hrec. destruct t as [t|]; apply IH; try assumption; right;
          exists y; (split; [assumption | eapply marked_mono; eassumption]).
Qed.

End Marker.


Lemma elem_of_insert_index {A} n (x : A) l y :
  y ∈ JSON.insert_index n x l <-> y = (n, x) \/ y ∈ l.
Proof.
  induction l as [|[n' x'] l IH]; cbn [JSON.insert_index].
  - rewrite list_elem_of_singleton, elem_of_nil. tauto.
  - destruct (n <? n'); rewrite !elem_of_cons; [tauto|]. rewrite IH. tauto.
Qed.

Lemma own_properties_keeps {A} (l : list (jsstring * A)) p :
  p ∈ l -> p ∈ JSON.own_properties l.
Proof.
  intros Hp. unfold JSON.own_properties. apply elem_of_app.
  destruct (JSON.index_of_key p.1) as [n|] eqn:Hn.
  - left. apply list_elem_of_In, in_map_iff. exists (n, p). split; [reflexivity|].
    apply list_elem_of_In.
    assert (Hfold : forall l acc,
              (n, p) ∈ acc \/ p ∈ l ->
              (n, p) ∈ fold_left (fun acc p => match JSON.index_of_key p.1 with
                                              | Some n => JSON.insert_index n p acc
                                              | None => acc
                                              end) l acc).
    { clear Hp. induction l0 as [|q l0 IH]; intros acc H; cbn [fold_left].
      - destruct H as [H|H]; [assumption | inversion H].
      - apply IH. destruct H as [H|H].
        + left. destruct (JSON.index_of_key q.1); [apply elem_of_insert_index; auto | assumption].
        + apply elem_of_cons in H as [<-|H]; [|auto].
          left. rewrite Hn. apply elem_of_insert_index. auto. }
    apply Hfold. auto.
  - right. apply list_elem_of_filter. split; [|assumption].
    apply bool_decide_pack. exact Hn.
Qed.

Lemma quote_circular : JSON.quote circular = 34 :: circular ++ [34].
Proof. reflexivity. Qed.

(** An object that has been seen is written as the marker. *)
Lemma ser_seen fuel h stack indent seen x :
  x ∈ seen ->
  ser (S fuel) h stack indent seen (HRef x) = SOk (Some (JSON.quote circular)) seen.
Proof.
  intros Hx. cbn [ser replacer].
  replace (bool_decide (x ∈ seen)) with true by (symmetry; apply bool_decide_eq_true, Hx).
  reflexivity.
Qed.

Lemma contains_quote_circular : contains circular (JSON.quote circular).
Proof. exists [34], [34]. reflexivity. Qed.

(** From an object that leads back to one already met, the text holds the
    marker. *)
Lemma ser_marker h seen x :
  returns_to h seen x ->
  forall fuel stack indent seen',
    seen ⊆ seen' -> good fuel h stack seen' ->
    exists t s', ser fuel h stack indent seen' (HRef x) = SOk (Some t) s' /\
                 contains circular t.
Proof.
  induction 1 as [seen x Hx|seen x y Hedge Hret IH];
    intros fuel stack indent seen' Hsub Hg.
  - destruct fuel as [|f]; [destruct Hg; lia|].
    rewrite ser_seen by set_solver.
    eexists _, _. split; [reflexivity | apply contains_quote_circular].
  - destruct fuel as [|f]; [destruct Hg; lia|].
    destruct (decide (x ∈ seen')) as [Hx|Hx].
    { rewrite ser_seen by assumption.
      eexists _, _. split; [reflexivity | apply contains_quote_circular]. }
    cbn [ser replacer].
    replace (bool_decide (x ∈ seen')) with false
      by (symmetry; apply bool_decide_eq_false, Hx).
    replace (bool_decide (x ∈ stack)) with false
      by (symmetry; apply bool_decide_eq_false; intros Hin; apply Hx, Hg, Hin).
    assert (Hsome : is_Some (h !! x)).
    { unfold edge, deref in Hedge. destruct (h !! x); [eauto|].
      cbn in Hedge. destruct Hedge as (k & Hk). inversion Hk. }
    assert (Hg1 : good f h (x :: stack) ({[x]} ∪ seen')) by (apply good_descend; assumption).
    assert (Hy : marked (ser f h (x :: stack) (indent ++ gap)) (good f h (x :: stack))
                        circular ({[x]} ∪ seen') (HRef y)).
    { intros s Hs HG. apply IH; [set_solver | exact HG]. }
    unfold edge in Hedge. cbv zeta. destruct (deref h x) as [props|elems].
    + destruct Hedge as (k & Hk).
      apply (members_loop_marker _ _ (good f h (x :: stack)) circular
               (good_mono f h (x :: stack))
               (fun seen v Hv => ser_total f h (x :: stack) (indent ++ gap) seen v Hv)
               (contains_wrap _ _ _ _ _)); [assumption|].
      right. exists k, (HRef y). split; [apply own_properties_keeps, Hk | exact Hy].
    + apply (elements_loop_marker _ _ (good f h (x :: stack)) circular
               (good_mono f h (x :: stack))
               (fun seen v Hv => ser_total f h (x :: stack) (indent ++ gap) seen v Hv)
               (contains_wrap _ _ _ _ _)); [assumption|].
      right. exists (HRef y). split; [exact Hedge | exact Hy].
Qed.

(** A text within the limit is returned whole. *)
Lemma escAndTrunc_within limit s :
  (length s <= limit)%nat -> escAndTrunc limit (Some s) = s.
Proof.
  intros H. rewrite escAndTrunc_truncates.
  replace (limit <? length s)%nat with false by (symmetry; apply Nat.ltb_ge, H).
  reflexivity.
Qed.

(** C6 (as amended). For plain data, that is when no object has a
    [toJSON] method, [JSON.stringify] with the replacer of
    [sanitizeObservation] returns for every value, also a cyclic one: the
    traversal ends and nothing is thrown, so [sanitizeObservation] returns
    the escaped and truncated text. For an object that contains a reference
    to itself, directly or through the objects it contains, the text before
    truncation holds the marker [[Circular]], and so does the returned
    string when that text is within the limit. *)
Theorem sanitizeObservation_cyclic String_ limit :
  (forall (h : heap) v,
     plain_data h ->
     exists json seen,
       stringify_seen h v = SOk json seen /\
       (serialized v = true ->
        sanitizeObservation String_ limit h v = escAndTrunc limit json)) /\
  (forall (h : heap) l,
     plain_data h ->
     self_referencing h l ->
     exists json seen,
       stringify_seen h (HRef l) = SOk (Some json) seen /\
       includes circular json = true /\
       ((length json <= limit)%nat ->
        includes circular (sanitizeObservation String_ limit h (HRef l)) = true)).
Proof.
  split.
  - intros h v _. destruct (stringify_seen_total h v) as (json & seen & H).
    exists json, seen. split; [exact H|].
    intros Hv. unfold sanitizeObservation.
    destruct v; try discriminate Hv; rewrite H; reflexivity.
  - intros h l _ Hl.
    destruct (ser_marker h ∅ l Hl _ [] [] ∅ ltac:(reflexivity) (good_initial h))
      as (json & seen & H & Hc).
    exists json, seen. split; [exact H|].
    apply includes_spec in Hc. split; [exact Hc|].
    intros Hlen. unfold sanitizeObservation. unfold stringify_seen in *. rewrite H.
    rewrite escAndTrunc_within by exact Hlen. exact Hc.
Qed.

End SanitizerFacts.


Lemma small_cyclic_self : self_referencing small_cyclic 0.
Proof.
  apply (returns_later _ _ 0%nat 0%nat); [|apply returns_here; set_solver].
  unfold edge, small_cyclic.
  rewrite (deref_Some _ _ _ (lookup_singleton_eq _ _)).
  exists (js "self"). left.
Qed.

Lemma long_cyclic_self : self_referencing long_cyclic 0.
Proof.
  apply (returns_later _ _ 0%nat 0%nat); [|apply returns_here; set_solver].
  unfold edge, long_cyclic.
  rewrite (deref_Some _ _ _ (lookup_singleton_eq _ _)).
  exists (js "self"). right. left.
Qed.

Lemma singleton_plain_data (NO : NumberOps) (props : list (jsstring * hvalue)) :
  Forall (fun p => p.2 <> HFun) props -> plain_data {[ 0%nat := HObject props ]}.
Proof.
  intros Hp l props' H. apply lookup_singleton_Some in H as [_ H].
  injection H as <-. intros Hin. rewrite Forall_forall in Hp.
  apply (Hp _ Hin). reflexivity.
Qed.

Lemma small_cyclic_plain : plain_data small_cyclic.
Proof. apply singleton_plain_data. repeat constructor; discriminate. Qed.

Lemma long_cyclic_plain : plain_data long_cyclic.
Proof. apply singleton_plain_data. repeat constructor; discriminate. Qed.

Lemma sanitizeObservation_cyclic_witness :
  plain_data small_cyclic /\
  self_referencing small_cyclic 0 /\
  includes circular (sanitizeObservation no_String 3000 small_cyclic (HRef 0)) = true.
Proof.
  refine (conj small_cyclic_plain (conj small_cyclic_self _)).
  destruct (proj2 (sanitizeObservation_cyclic no_String 3000) small_cyclic 0%nat
              small_cyclic_plain small_cyclic_self) as (json & seen & Hser & _ & Hout).
  apply Hout.
  assert (Hjson : stringify_seen small_cyclic (HRef 0) =
                  SOk (Some (js "{" ++ [10] ++ jsq "  'self': '[Circular]'" ++ [10] ++ js "}"))
                      {[0%nat]})
    by (vm_compute; reflexivity).
  rewrite Hjson in Hser. injection Hser as <- _.
  apply Nat.leb_le. vm_compute. reflexivity.
Defined.

(** C6 as stated fails: when the text is longer than the limit, the marker
    can fall in the part that is cut off. *)
Lemma sanitizeObservation_marker_cut_off :
  plain_data long_cyclic /\
  self_referencing long_cyclic 0 /\
  includes circular (sanitizeObservation no_String 3000 long_cyclic (HRef 0)) = false.
Proof.
  split; [exact long_cyclic_plain|].
  split; [exact long_cyclic_self|]. vm_compute. reflexivity.
Qed.

(** C5 at the input "<b>R&D</b>": the result still holds the ampersand and
    the angle brackets. *)
Example sanitizeObservation_keeps_markup :
  sanitizeObservation no_String 3000 ∅ (HStr (js "<b>R&D</b>")) = js "<b>R&D</b>".
Proof. vm_compute. reflexivity. Qed.

Import Agent.

(** ** The loop controller *)

Section AgentFacts.

Context {NO : NumberOps}.
Variable world : Type.
Variable env : environment world.

Local Abbreviation agent := (agent world).
Local Abbreviation M := (M world).
Local Abbreviation keeps := (Agent.keeps (world := world)).
Local Abbreviation leads := (Agent.leads (world := world)).
Local Abbreviation preserves := (Agent.preserves (world := world)).
Local Abbreviation goes_on := (Agent.goes_on (world := world)).
Local Abbreviation in_order := (Agent.in_order (world := world)).
Local Abbreviation quiet := (Agent.quiet (world := world)).

(** *** The state after a sequence *)

Lemma mbind_state {A B} (c : M A) (f : A -> M B) a :
  (mbind c f a).2 =
  match c a with
  | (Normal x, a') => (f x a').2
  | (Throw _, a') => a'
  end.
Proof. unfold mbind. destruct (c a) as [[x|e] a']; reflexivity. Qed.

Lemma keeps_bind {A B} (I : agent -> Prop) (c : M A) (f : A -> M B) :
  keeps I c -> (forall x, keeps I (f x)) -> keeps I (mbind c f).
Proof.
  intros Hc Hf a Ha. rewrite mbind_state. specialize (Hc a Ha).
  destruct (c a) as [[x|e] a']; [apply Hf|]; exact Hc.
Qed.

Lemma keeps_ret {A} (I : agent -> Prop) (x : A) : keeps I (ret x).
Proof. intros a Ha. exact Ha. Qed.

Lemma keeps_lift {A} (I : agent -> Prop) (c : completion A) : keeps I (lift c).
Proof. intros a Ha. exact Ha. Qed.

Lemma keeps_read {A} (I : agent -> Prop) (f : agent -> A) : keeps I (read f).
Proof. intros a Ha. exact Ha. Qed.

Lemma keeps_preserved {A X} (proj : agent -> X) (P : X -> Prop) (c : M A) :
  preserves proj c -> keeps (fun a => P (proj a)) c.
Proof. intros Hc a Ha. rewrite Hc. exact Ha. Qed.

Lemma preserves_bind {A B X} (proj : agent -> X) (c : M A) (f : A -> M B) :
  preserves proj c -> (forall x, preserves proj (f x)) ->
  preserves proj (mbind c f).
Proof.
  intros Hc Hf a. rewrite mbind_state. specialize (Hc a).
  destruct (c a) as [[x|e] a']; [rewrite Hf|]; exact Hc.
Qed.

Lemma preserves_ret {A X} (proj : agent -> X) (x : A) : preserves proj (ret x).
Proof. intros a. reflexivity. Qed.

Lemma preserves_lift {A X} (proj : agent -> X) (c : completion A) :
  preserves proj (lift c).
Proof. intros a. reflexivity. Qed.

Lemma preserves_read {A X} (proj : agent -> X) (f : agent -> A) :
  preserves proj (read f).
Proof. intros a. reflexivity. Qed.

(** *** What each method leaves alone *)

Lemma quiet_history : quiet (history (world := world)).
Proof. repeat split. Qed.

Lemma quiet_messages : quiet (messages (world := world)).
Proof. repeat split. Qed.

Section Quiet.

Context {X : Type} (proj : agent -> X) (Hq : quiet proj).

Lemma preserves_onThought t : preserves proj (onThought t).
Proof. intros a. apply Hq. Qed.

Lemma preserves_plan : preserves proj (plan env).
Proof.
  intros a. unfold plan. destruct (getCompletion env _ _) as [r w'].
  cbn [snd]. destruct Hq as (Hw & Hc & _). rewrite Hw, Hc. reflexivity.
Qed.

Lemma preserves_generate_id i idx : preserves proj (generate_id env i idx).
Proof.
  intros a. unfold generate_id. destruct Hq as (Hw & _).
  destruct (randomUUID env) as [uuid|].
  - destruct (uuid _) as [u w']. apply Hw.
  - destruct (Math_random36 env _) as [r w']. apply Hw.
Qed.

Lemma preserves_normalize i call idx : preserves proj (normalize env i call idx).
Proof.
  unfold normalize.
  repeat (apply preserves_bind; [try apply preserves_lift|intros ?]).
  - destruct (coalesce _ _); try apply preserves_ret. apply preserves_lift.
  - destruct (truthy _); [apply preserves_ret | apply preserves_generate_id].
  - apply preserves_ret.
Qed.

Lemma preserves_map_idx i l : forall idx,
  preserves proj (map_idx (normalize env i) l idx).
Proof.
  induction l as [|x l IH]; intros idx; cbn [map_idx].
  - apply preserves_ret.
  - apply preserves_bind; [apply preserves_normalize|intros y].
    apply preserves_bind; [apply IH|intros ys]. apply preserves_ret.
Qed.

Lemma preserves_execute fn c : preserves proj (execute fn c).
Proof.
  unfold execute.
  apply preserves_bind; [apply preserves_read|intros ms].
  apply preserves_bind.
  - intros a. destruct (implementation fn _ _) as [o w']. apply Hq.
  - intros o. destruct o; cbv zeta;
      [ apply preserves_ret
      | repeat (apply preserves_bind; [apply preserves_lift | intros ?]);
        apply preserves_ret .. ].
Qed.

End Quiet.


Lemma preserves_push_messages t : preserves (messages (world := world)) (push t).
Proof. intros a. reflexivity. Qed.

Lemma preserves_dispatch_messages c :
  preserves (messages (world := world)) (dispatch env c).
Proof.
  unfold dispatch. apply preserves_bind; [apply preserves_read|intros [fn|]];
    (apply preserves_bind; [apply preserves_lift|intros n]).
  - apply preserves_bind; [apply preserves_onThought, quiet_messages|intros _].
    apply preserves_bind; [apply preserves_execute, quiet_messages|intros r].
    apply preserves_bind; [apply preserves_read|intros limit].
    apply preserves_bind; [apply preserves_onThought, quiet_messages|intros _].
    apply preserves_push_messages.
  - apply preserves_bind; [apply preserves_onThought, quiet_messages|intros _].
    apply preserves_push_messages.
Qed.

Lemma preserves_for_each {A X} (proj : agent -> X) (f : A -> M unit) l :
  (forall x, preserves proj (f x)) -> preserves proj (for_each f l).
Proof.
  intros Hf. induction l as [|x l IH]; cbn [for_each].
  - apply preserves_ret.
  - apply preserves_bind; [apply Hf | intros _; apply IH].
Qed.

Lemma keeps_for_each {A} (I : agent -> Prop) (f : A -> M unit) l :
  (forall x, x ∈ l -> keeps I (f x)) -> keeps I (for_each f l).
Proof.
  induction l as [|x l IH]; intros Hf; cbn [for_each].
  - apply keeps_ret.
  - apply keeps_bind; [apply Hf; left | intros _; apply IH].
    intros y Hy. apply Hf. right. exact Hy.
Qed.

(** *** One tool turn for each call *)

Lemma mbind_Normal {A B} (c : M A) (f : A -> M B) a y a' :
  mbind c f a = (Normal y, a') ->
  exists x a1, c a = (Normal x, a1) /\ f x a1 = (Normal y, a').
Proof.
  unfold mbind. destruct (c a) as [[x|e] a1]; [eauto | discriminate].
Qed.

Lemma preserved {A X} (proj : agent -> X) (c : M A) a r a' :
  preserves proj c -> c a = (r, a') -> proj a' = proj a.
Proof. intros Hc Ha. specialize (Hc a). rewrite Ha in Hc. exact Hc. Qed.

(** A dispatch that completes appends one tool turn, which answers its
    call. *)
Lemma dispatch_one_turn c a a' :
  dispatch env c a = (Normal tt, a') ->
  exists text, history a' = history a ++ [tool_turn c text].
Proof.
  unfold dispatch. intros H.
  apply mbind_Normal in H as (fn & a0 & Hread & H). injection Hread as <- <-.
  destruct (registry_get a (name c)) as [fn|];
    apply mbind_Normal in H as (n & a0 & Hn & H); injection Hn as Hn <-.
  - apply mbind_Normal in H as ([] & a1 & H1 & H).
    apply mbind_Normal in H as (r & a2 & H2 & H).
    apply mbind_Normal in H as (limit & a3 & H3 & H). injection H3 as <- <-.
    apply mbind_Normal in H as ([] & a4 & H4 & H).
    injection H as <-. eexists. cbn [history set_history snd].
    rewrite (preserved _ _ _ _ _ (preserves_onThought _ quiet_history _) H4).
    rewrite (preserved _ _ _ _ _ (preserves_execute _ quiet_history _ _) H2).
    rewrite (preserved _ _ _ _ _ (preserves_onThought _ quiet_history _) H1).
    reflexivity.
  - apply mbind_Normal in H as ([] & a1 & H1 & H).
    injection H as <-. eexists. cbn [history set_history snd].
    rewrite (preserved _ _ _ _ _ (preserves_onThought _ quiet_history _) H1).
    reflexivity.
Qed.

Lemma for_each_dispatch_turns ncs : forall a a',
  for_each (dispatch env) ncs a = (Normal tt, a') ->
  exists texts,
    length texts = length ncs /\
    history a' = history a ++ zip_with tool_turn ncs texts.
Proof.
  induction ncs as [|c ncs IH]; intros a a' H; cbn [for_each] in H.
  - injection H as <-. exists []. split; [reflexivity|]. cbn. rewrite app_nil_r. reflexivity.
  - apply mbind_Normal in H as ([] & a1 & H1 & H).
    apply dispatch_one_turn in H1 as (text & H1).
    apply IH in H as (texts & Hlen & H).
    exists (text :: texts). split; [cbn; lia|].
    rewrite H, H1, <- app_assoc. reflexivity.
Qed.

(** A round of tool calls that completes records one assistant turn with
    the normalized calls and then one tool turn for each of them, in their
    order. *)
Lemma act_turns i l a r a' :
  act env i l a = (Normal r, a') ->
  exists ncs texts,
    length texts = length ncs /\
    history a' = history a ++ assistant_calls ncs :: zip_with tool_turn ncs texts.
Proof.
  unfold act. intros H.
  apply mbind_Normal in H as ([] & a1 & H1 & H).
  apply mbind_Normal in H as (mapped & a2 & H2 & H).
  cbv zeta in H.
  apply mbind_Normal in H as ([] & a3 & H3 & H).
  apply mbind_Normal in H as ([] & a4 & H4 & H).
  injection H as <- <-.
  apply for_each_dispatch_turns in H4 as (texts & Hlen & H4).
  injection H3 as <-.
  exists (filter (fun c => truthy (name c) = true) mapped), texts.
  split; [exact Hlen|]. rewrite H4. cbn [history set_history].
  rewrite <- app_assoc. f_equal.
  rewrite (preserved _ _ _ _ _ (preserves_map_idx _ quiet_history _ _ _) H2).
  rewrite (preserved _ _ _ _ _ (preserves_onThought _ quiet_history _) H1).
  reflexivity.
Qed.

(** *** The ids of normalized calls *)

(** A call that comes with an id keeps it: an id is generated only when
    the call has none. *)
Lemma normalize_keeps_id i c idx a nc a' :
  normalize env i c idx a = (Normal nc, a') ->
  truthy (getq c (js "id")) = true ->
  id nc = getq c (js "id").
Proof.
  unfold normalize. intros H Hid.
  apply mbind_Normal in H as (n & a1 & H1 & H).
  apply mbind_Normal in H as (t & a2 & H2 & H).
  apply mbind_Normal in H as (x1 & a3 & H3 & H).
  apply mbind_Normal in H as (x2 & a4 & H4 & H).
  apply mbind_Normal in H as (args & a5 & H5 & H).
  apply mbind_Normal in H as (cid & a6 & H6 & H).
  apply mbind_Normal in H as (id' & a7 & H7 & H).
  injection H as <- <-. cbn [id].
  unfold lift in H6. injection H6 as H6 <-.
  unfold getq in *. rewrite H6 in *. rewrite Hid in H7.
  injection H7 as <- <-. reflexivity.
Qed.

(** *** The round of a decision that carries tool calls *)

Lemma handle_tool_calls i props l a :
  or_ (or_ (assoc (js "toolCalls") props) (assoc (js "tool_calls") props)) (VArr []) = VArr l ->
  l <> [] ->
  handle env i (VObj props) a = act env i l a.
Proof.
  intros Htc Hl. unfold handle. cbn [get].
  unfold mbind at 1 2 3 4 5. unfold lift. cbv beta iota.
  rewrite Htc. cbn [truthy length_pos].
  destruct l as [|x l]; [congruence|]. reflexivity.
Qed.

Lemma goes_on_bind {A} (c : M A) (f : A -> M control) :
  (forall x, goes_on (f x)) -> goes_on (mbind c f).
Proof.
  intros Hf a. unfold mbind. destruct (c a) as [[x|e] a']; [apply Hf | discriminate].
Qed.

Lemma goes_on_act i l : goes_on (act env i l).
Proof.
  unfold act. repeat (apply goes_on_bind; intros ?). intros a. discriminate.
Qed.

Lemma preserves_act_messages i l : preserves (messages (world := world)) (act env i l).
Proof.
  unfold act.
  apply preserves_bind; [apply preserves_onThought, quiet_messages|intros _].
  apply preserves_bind; [apply preserves_map_idx, quiet_messages|intros mapped].
  apply preserves_bind; [apply preserves_push_messages|intros _].
  apply preserves_bind; [|intros _; apply preserves_ret].
  apply preserves_for_each. intros c. apply preserves_dispatch_messages.
Qed.

(** *** Unknown tools *)

(** C8. Dispatching a call whose name is not in the registry and has a
    string form completes normally, appends exactly one tool turn, whose
    content says that the tool is unknown, calls no message callback, and
    the loop over the calls goes on with the next call. *)
Theorem unknown_tool_is_observed c a :
  registry_get a (name c) = None ->
  printable (name c) = true ->
  let msg := js "Unknown tool '" ++ to_string (name c)
                ++ js "'. Please choose a listed tool." in
  let turn := VObj [prop "role" (VStr (js "tool"));
                    prop "tool_call_id" (id c);
                    prop "content" (VStr (js "OBSERVATION[" ++ to_string (name c)
                                             ++ js "]: " ++ msg))] in
  exists a',
    dispatch env c a = (Normal tt, a') /\
    history a' = history a ++ [turn] /\
    messages a' = messages a /\
    forall rest,
      for_each (dispatch env) (c :: rest) a = for_each (dispatch env) rest a'.
Proof.
  intros Hnone Hname msg turn.
  assert (Hd : dispatch env c a =
               (Normal tt, set_history (fun h => h ++ [turn])
                             (set_thoughts (fun l => l ++ [js "[act] " ++ msg]) a))).
  { unfold dispatch, mbind, read, lift, ToString. rewrite Hnone, Hname. reflexivity. }
  eexists. split; [exact Hd|]. split; [reflexivity|]. split; [reflexivity|].
  intros rest. cbn [for_each]. unfold mbind at 1. rewrite Hd. reflexivity.
Qed.

(** *** Histories are in order *)

Lemma ids_after_snoc ids h t :
  ids_after ids (h ++ [t]) = ids_after_turn (ids_after ids h) t.
Proof. unfold ids_after. rewrite foldl_app. reflexivity. Qed.

Lemma linked_snoc h : forall ids t,
  linked ids (h ++ [t]) <-> linked ids h /\ turn_ok (ids_after ids h) t.
Proof.
  induction h as [|x h IH]; intros ids t; cbn [app linked].
  - unfold ids_after. cbn [foldl]. tauto.
  - rewrite IH. unfold ids_after. cbn [foldl]. tauto.
Qed.

Lemma leads_bind {A B} (P Q R : agent -> Prop) (c : M A) (f : A -> M B) :
  leads P c Q -> (forall a, Q a -> R a) -> (forall x, leads Q (f x) R) ->
  leads P (mbind c f) R.
Proof.
  intros Hc Hthrow Hf a Ha. rewrite mbind_state. specialize (Hc a Ha).
  destruct (c a) as [[x|e] a']; [apply Hf | apply Hthrow]; exact Hc.
Qed.

Lemma keeps_quiet {A} (P : list value -> Prop) (c : M A) :
  preserves (history (world := world)) c -> keeps (fun a => P (history a)) c.
Proof. apply keeps_preserved. Qed.

Lemma in_order_quiet {A} ids (c : M A) :
  preserves (history (world := world)) c -> keeps (in_order ids) c.
Proof. intros Hc a Ha. unfold in_order. rewrite Hc. exact Ha. Qed.

Lemma tool_turn_in_order ids c text :
  id c ∈ ids -> keeps (in_order ids) (push (tool_turn c text)).
Proof.
  intros Hc a (Hl & Hi). unfold Agent.in_order.
  change (history (push (tool_turn c text) a).2) with (history a ++ [tool_turn c text]).
  split.
  - apply linked_snoc. split; [exact Hl|]. rewrite Hi. exact Hc.
  - rewrite ids_after_snoc, Hi. reflexivity.
Qed.

Lemma dispatch_in_order ids c :
  id c ∈ ids -> keeps (in_order ids) (dispatch env c).
Proof.
  intros Hc. unfold dispatch.
  apply keeps_bind; [apply keeps_read|intros [fn|]];
    (apply keeps_bind; [apply keeps_lift|intros n]).
  - apply keeps_bind; [apply in_order_quiet, preserves_onThought, quiet_history|intros _].
    apply keeps_bind; [apply in_order_quiet, preserves_execute, quiet_history|intros r].
    apply keeps_bind; [apply keeps_read|intros limit].
    apply keeps_bind; [apply in_order_quiet, preserves_onThought, quiet_history|intros _].
    apply tool_turn_in_order, Hc.
  - apply keeps_bind; [apply in_order_quiet, preserves_onThought, quiet_history|intros _].
    apply tool_turn_in_order, Hc.
Qed.

Lemma call_ids_assistant_calls ncs : call_ids (assistant_calls ncs) = map id ncs.
Proof.
  induction ncs as [|c ncs IH]; [reflexivity|].
  cbn [map]. rewrite <- IH. reflexivity.
Qed.

Lemma assistant_calls_in_order ncs :
  leads ordered (push (assistant_calls ncs)) (in_order (map id ncs)).
Proof.
  intros a Ha. unfold Agent.in_order.
  change (history (push (assistant_calls ncs) a).2) with (history a ++ [assistant_calls ncs]).
  split.
  - apply linked_snoc. split; [exact Ha | reflexivity].
  - rewrite ids_after_snoc. unfold ids_after_turn.
    change (turn_role (assistant_calls ncs)) with (js "assistant").
    change (JsStr.eqb (js "assistant") (js "tool")) with false.
    change (JsStr.eqb (js "assistant") (js "assistant")) with true.
    cbv iota. apply call_ids_assistant_calls.
Qed.

Lemma push_assistant_ordered content :
  is_string content = true ->
  keeps ordered (push (VObj [prop "role" (VStr (js "assistant")); prop "content" content])).
Proof.
  intros Hc a Ha. unfold ordered in *.
  change (history (push ?t a).2) with (history a ++ [t]).
  apply linked_snoc. split; [exact Ha | exact Hc].
Qed.

Lemma ordered_quiet {A} (c : M A) :
  preserves (history (world := world)) c -> keeps ordered c.
Proof. intros Hc a Ha. unfold ordered. rewrite Hc. exact Ha. Qed.

Lemma preserves_onMessage_history r t :
  preserves (history (world := world)) (onMessage r t).
Proof. intros a. reflexivity. Qed.

Lemma handle_ordered i step : keeps ordered (handle env i step).
Proof.
  unfold handle.
  apply keeps_bind; [apply keeps_lift|intros tc1].
  apply keeps_bind; [apply keeps_lift|intros tc2].
  apply keeps_bind; [apply keeps_lift|intros sr1].
  apply keeps_bind; [apply keeps_lift|intros sr2].
  apply keeps_bind; [apply keeps_lift|intros content].
  apply keeps_bind; [destruct (truthy _); [apply keeps_lift | apply keeps_ret]|intros [|]].
  - apply keeps_bind; [apply keeps_lift|intros n].
    apply keeps_bind; [apply ordered_quiet, preserves_onThought, quiet_history|intros _].
    destruct (or_ _ _) as [| | | | |l|]; try apply keeps_lift.
    apply (leads_bind ordered ordered); [|auto|intros mapped].
    { apply ordered_quiet, preserves_map_idx, quiet_history. }
    cbv zeta.
    apply (leads_bind ordered (in_order (map id (filter (fun c => truthy (name c) = true) mapped))));
      [apply assistant_calls_in_order | intros a Ha; apply Ha | intros _].
    apply (leads_bind _ (in_order (map id (filter (fun c => truthy (name c) = true) mapped))));
      [|intros a Ha; apply Ha|intros _ a Ha; apply Ha].
    apply keeps_for_each. intros c Hc. apply dispatch_in_order.
    apply list_elem_of_In, in_map, list_elem_of_In, Hc.
  - destruct content as [| | | |[|c cs]| |];
      try (apply keeps_bind; [apply ordered_quiet, preserves_onThought, quiet_history|intros _];
           apply keeps_bind; [apply push_assistant_ordered; reflexivity|intros _];
           apply keeps_ret).
    apply keeps_bind; [apply keeps_lift|intros reason].
    apply keeps_bind; [apply ordered_quiet, preserves_onThought, quiet_history|intros _].
    apply keeps_bind; [apply ordered_quiet, preserves_onMessage_history|intros _].
    apply keeps_bind; [apply push_assistant_ordered; reflexivity|intros _].
    apply keeps_bind; [apply keeps_lift|intros fin].
    destruct fin; apply keeps_ret.
Qed.

Lemma rounds_ordered n : forall i, keeps ordered (rounds env n i).
Proof.
  induction n as [|n IH]; intros i; cbn [rounds].
  - apply ordered_quiet, preserves_onMessage_history.
  - apply keeps_bind.
    + unfold round. apply keeps_bind; [apply ordered_quiet, preserves_plan, quiet_history|].
      intros step. apply handle_ordered.
    + intros [|]; [apply IH | apply keeps_ret].
Qed.

(** C9. In the history [run] leaves, however the run ends, every tool turn
    answers a call id of the assistant turn before it (with only tool turns
    in between), and every assistant turn has a string as content. *)
Theorem run_history_in_order userInput a :
  linked [] (history (run env userInput a).2).
Proof.
  unfold run. rewrite mbind_state. cbn [modify fst snd].
  assert (H0 : ordered (set_history (fun _ => [VObj [prop "role" (VStr (js "user"));
                                                     prop "content" (VStr userInput)]]) a)).
  { unfold ordered. cbn. split; exact I. }
  revert H0. generalize (set_history (fun _ => [VObj [prop "role" (VStr (js "user"));
                                                     prop "content" (VStr userInput)]]) a).
  intros a0 H0.
  apply (keeps_bind ordered (onMessage "user" userInput)
           (fun _ => mbind (read maxTurns) (fun n => rounds env n 0))); [| |exact H0].
  - apply ordered_quiet, preserves_onMessage_history.
  - intros _. apply keeps_bind; [apply keeps_read|intros n; apply rounds_ordered].
Qed.


(** *** A planner that never finishes *)

Lemma handle_content i c cs a :
  handle env i (decision VNull (VStr (c :: cs)) "continue") a =
  (Normal Continue,
   set_history (fun h => h ++ [VObj [prop "role" (VStr (js "assistant"));
                                     prop "content" (VStr (c :: cs))]])
     (set_messages (fun l => l ++ [(js "agent", c :: cs)])
        (set_thoughts (fun l => l ++ [js "[reflect] Model produced content. stopReason="
                                         ++ js "continue"]) a))).
Proof. reflexivity. Qed.

Section Stuck.

Hypothesis plain_content :
  forall h w0, exists c w', c <> [] /\
    getCompletion env h w0 = (Normal (decision VNull (VStr c) "continue"), w').

Lemma round_content i a :
  exists a', round env i a = (Normal Continue, a') /\
             planned a' = S (planned a) /\
             exists m, messages a' = messages a ++ [m].
Proof.
  destruct (plain_content (history a) (w a)) as (c & w' & Hc & Hplan).
  destruct c as [|c cs]; [congruence|].
  unfold round, mbind, plan. rewrite Hplan. rewrite handle_content.
  eexists. split; [reflexivity|]. split; [reflexivity|]. eexists. reflexivity.
Qed.

Lemma rounds_content n : forall i a,
  exists a', rounds env n i a = (Normal tt, a') /\
             planned a' = (planned a + n)%nat /\
             exists ms, messages a' = ms ++ [(js "agent", stuck)].
Proof.
  induction n as [|n IH]; intros i a; cbn [rounds].
  - eexists. split; [reflexivity|]. split; [cbn; lia|]. eexists. reflexivity.
  - destruct (round_content i a) as (a1 & Hr & Hp & _).
    unfold mbind at 1. rewrite Hr.
    destruct (IH (S i) a1) as (a' & Hrs & Hp' & Hm).
    exists a'. split; [exact Hrs|]. split; [lia | exact Hm].
Qed.

(** C2. With a provider that on every call resolves to a plain non-empty
    content decision with stopReason [continue], [run] completes normally
    after exactly [maxTurns] calls of the provider, and the last call of
    the message callback carries the stuck-run message. *)
Theorem run_stops_at_ceiling userInput a :
  exists a',
    run env userInput a = (Normal tt, a') /\
    planned a' = (planned a + maxTurns a)%nat /\
    exists ms, messages a' = ms ++ [(js "agent", stuck)].
Proof.
  set (a0 := set_messages (fun l => l ++ [(js "user", userInput)])
               (set_history (fun _ => [VObj [prop "role" (VStr (js "user"));
                                             prop "content" (VStr userInput)]]) a)).
  change (run env userInput a) with (rounds env (maxTurns a) 0 a0).
  destruct (rounds_content (maxTurns a) 0%nat a0) as (a' & Hr & Hp & Hm).
  exists a'. split; [exact Hr|]. split; [exact Hp | exact Hm].
Qed.

End Stuck.

End AgentFacts.


Lemma run_stops_at_ceiling_witness :
  (forall (h : list value) (w0 : nat), exists c w', c <> [] /\
     getCompletion idle_planner h w0 =
     (Normal (decision VNull (VStr c) "continue"), w')) /\
  exists a',
    run idle_planner (js "hello") (new_Agent [] 0%nat) = (Normal tt, a') /\
    planned a' = 10%nat /\
    exists ms, messages a' = ms ++ [(js "agent", stuck)].
Proof.
  assert (H : forall (h : list value) (w0 : nat), exists c w', c <> [] /\
            getCompletion idle_planner h w0 =
            (Normal (decision VNull (VStr c) "continue"), w')).
  { intros h w0. exists (js "idle"), (S w0). split; [discriminate | reflexivity]. }
  exact (conj H (run_stops_at_ceiling nat idle_planner H (js "hello") (new_Agent [] 0%nat))).
Defined.

Lemma unknown_tool_is_observed_witness :
  let c := NCall (VStr (js "frobnicate")) (VStr (js "frobnicate")) (VObj []) in
  let a := new_Agent [Some calculator_stub] 0%nat in
  registry_get a (name c) = None /\
  printable (name c) = true /\
  exists a',
    dispatch idle_planner c a = (Normal tt, a') /\
    history a' =
      history a ++
      [VObj [prop "role" (VStr (js "tool"));
             prop "tool_call_id" (VStr (js "frobnicate"));
             prop "content"
               (VStr (js "OBSERVATION[frobnicate]: Unknown tool 'frobnicate'. Please choose a listed tool."))]] /\
    messages a' = messages a /\
    forall rest,
      for_each (dispatch idle_planner) (c :: rest) a =
      for_each (dispatch idle_planner) rest a'.
Proof.
  intros c a.
  assert (H : registry_get a (name c) = None) by (vm_compute; reflexivity).
  assert (Hp : printable (name c) = true) by reflexivity.
  exact (conj H (conj Hp (unknown_tool_is_observed nat idle_planner c a H Hp))).
Defined.

(** C8 as stated fails: a name that is not in the registry and has no
    string form makes the dispatch throw, where the message for the unknown
    tool is built; no tool turn is appended, and [run] on the planner text
    that calls that name ends with the exception after one call of the
    provider. *)
Lemma unknown_tool_without_string_form :
  let c := NCall unprintable_name unprintable_name (VObj []) in
  let a := new_Agent [Some calculator_stub] 0%nat in
  let r := run (scripted [unprintable_call]) (js "hello") a in
  registry_get a (name c) = None /\
  dispatch idle_planner c a = (Throw TypeError, a) /\
  tryParseToolCall 0 unprintable_call =
    Normal (decision (VArr [call unprintable_name unprintable_name (VObj [])])
                     VNull "continue") /\
  r.1 = Throw TypeError /\
  planned r.2 = 1%nat /\
  map turn_role (history r.2) = [js "user"; js "assistant"].
Proof. vm_compute. repeat split. Qed.

(** C4 at two calls of the same tool without ids: the run completes, the
    assistant turn issues the two calls under one and the same id, the name
    of the tool, and the two tool turns answer that id; the ids are not
    distinct. *)
Theorem duplicate_names_share_one_id :
  two_calls_run.1 = Normal tt /\
  map turn_role (history two_calls_run.2) =
    [js "user"; js "assistant"; js "tool"; js "tool"; js "assistant"] /\
  map call_ids (history two_calls_run.2) =
    [[]; [VStr (js "calculator"); VStr (js "calculator")]; []; []; []] /\
  map (fun t => getq t (js "tool_call_id")) (history two_calls_run.2) =
    [VUndef; VUndef; VStr (js "calculator"); VStr (js "calculator"); VUndef].
Proof. vm_compute. repeat split. Qed.

(** * More properties *)

(** ** The sanitizer: bounds and shared objects *)

Section SanitizerBounds.

Context {NO : NumberOps}.

Lemma escAndTrunc_None limit : escAndTrunc limit None = [].
Proof. reflexivity. Qed.

Lemma escAndTrunc_text limit (s : option jsstring) :
  exists t, escAndTrunc limit s =
            if (limit <? length t)%nat then take limit t ++ ellipsis else t.
Proof.
  destruct s as [s|]; [exists s; apply escAndTrunc_truncates|].
  exists []. rewrite escAndTrunc_None. destruct limit; reflexivity.
Qed.

Lemma escAndTrunc_length limit s : (length (escAndTrunc limit s) <= limit + 1)%nat.
Proof.
  destruct (escAndTrunc_text limit s) as (t & ->).
  destruct (limit <? length t)%nat eqn:E.
  - rewrite length_app, length_take. cbn. lia.
  - apply Nat.ltb_ge in E. lia.
Qed.

Lemma escAndTrunc_again limit s :
  escAndTrunc limit (Some (escAndTrunc limit s)) = escAndTrunc limit s.
Proof.
  rewrite escAndTrunc_truncates.
  destruct (escAndTrunc_text limit s) as (t & ->).
  destruct (limit <? length t)%nat eqn:E.
  - apply Nat.ltb_lt in E.
    assert (Hl : length (take limit t) = limit) by (rewrite length_take; lia).
    replace (limit <? length (take limit t ++ ellipsis))%nat with true
      by (symmetry; apply Nat.ltb_lt; rewrite length_app, Hl; cbn; lia).
    rewrite take_app_le by lia. rewrite take_ge by lia. reflexivity.
  - rewrite E. reflexivity.
Qed.

(** What [sanitizeObservation] returns is the empty string or a text cut by
    [escAndTrunc]. *)
Lemma sanitizeObservation_cases String_ limit h v :
  sanitizeObservation String_ limit h v = [] \/
  exists s, sanitizeObservation String_ limit h v = escAndTrunc limit s.
Proof.
  unfold sanitizeObservation.
  destruct v; eauto; destruct (stringify_seen h _); eauto;
    destruct (String_ h _); eauto.
Qed.

(** X1. The observation is never longer than the limit plus the one
    character of the ellipsis, whatever the tool returned. *)
Theorem sanitizeObservation_bounded String_ limit h v :
  (length (sanitizeObservation String_ limit h v) <= limit + 1)%nat.
Proof.
  destruct (sanitizeObservation_cases String_ limit h v) as [->|(s & ->)].
  - cbn. lia.
  - apply escAndTrunc_length.
Qed.

(** X2. Sanitizing is idempotent: an observation that is sanitized again, as
    a string, comes back unchanged. *)
Theorem sanitizeObservation_idempotent String_ limit h h' v :
  sanitizeObservation String_ limit h' (HStr (sanitizeObservation String_ limit h v)) =
  sanitizeObservation String_ limit h v.
Proof.
  change (sanitizeObservation String_ limit h' (HStr ?s)) with (escAndTrunc limit (Some s)).
  destruct (sanitizeObservation_cases String_ limit h v) as [->|(s & ->)].
  - rewrite escAndTrunc_truncates. destruct limit; reflexivity.
  - apply escAndTrunc_again.
Qed.

End SanitizerBounds.

Section Shared.

Context {NO : NumberOps}.

Lemma two_members {A} (l : list A) p q :
  p ∈ l -> q ∈ l -> p <> q ->
  exists x y l1 l2, l = l1 ++ x :: l2 /\ y ∈ l2 /\ (x = p /\ y = q \/ x = q /\ y = p).
Proof.
  intros Hp Hq Hne.
  apply list_elem_of_split in Hp as (l1 & l2 & ->).
  apply elem_of_app in Hq as [Hq|Hq].
  - apply list_elem_of_split in Hq as (m1 & m2 & ->).
    exists q, p, m1, (m2 ++ p :: l2). split; [rewrite <- app_assoc; reflexivity|].
    split; [apply elem_of_app; right; left | right; tauto].
  - apply elem_of_cons in Hq as [->|Hq]; [congruence|].
    exists p, q, l1, l2. split; [reflexivity|]. split; [exact Hq | left; tauto].
Qed.

Lemma two_indices {A} (l : list A) i j x :
  i <> j -> l !! i = Some x -> l !! j = Some x ->
  exists l1 l2, l = l1 ++ x :: l2 /\ x ∈ l2.
Proof.
  revert i j. induction l as [|y l IH]; intros i j Hne Hi Hj; [discriminate|].
  destruct i as [|i], j as [|j]; try congruence; cbn in Hi, Hj.
  - injection Hi as ->. exists [], l. split; [reflexivity|].
    eapply list_elem_of_lookup_2, Hj.
  - injection Hj as ->. exists [], l. split; [reflexivity|].
    eapply list_elem_of_lookup_2, Hi.
  - destruct (IH i j) as (l1 & l2 & -> & Hx); [congruence|assumption..|].
    exists (y :: l1), l2. split; [reflexivity | exact Hx].
Qed.

Section Twice.

Variable rec : gset loc -> hvalue -> sres.
Variable finish : list jsstring -> jsstring.
Variable G : gset loc -> Prop.
Variable w : jsstring.
Hypothesis G_mono : forall seen seen', G seen -> seen ⊆ seen' -> G seen'.
Hypothesis rec_total :
  forall seen x, G seen -> exists t seen', rec seen x = SOk t seen' /\ seen ⊆ seen'.
Hypothesis finish_keeps :
  forall partial, Exists (contains w) partial -> contains w (finish partial).

Variable y : hvalue.
Hypothesis once :
  forall seen t seen', G seen -> rec seen y = SOk t seen' -> marked rec G w seen' y.

Lemma members_loop_twice l1 : forall k l2 seen partial,
  G seen -> (exists k', (k', y) ∈ l2) ->
  exists t seen', members_loop rec finish (l1 ++ (k, y) :: l2) seen partial = SOk (Some t) seen' /\
                  contains w t.
Proof.
  induction l1 as [|[k0 x] l1 IH]; intros k l2 seen partial HG (k' & Hk'); cbn [app members_loop].
  - destruct (rec_total seen y HG) as (t & seen1 & Hr & Hsub). rewrite Hr.
    assert (HG1 : G seen1) by (eapply G_mono; eassumption).
    assert (Hm : marked rec G w seen1 y) by exact (once seen t seen1 HG Hr).
    destruct t as [t|];
      (apply (members_loop_marker rec finish G w G_mono rec_total finish_keeps);
       [exact HG1 | right; exists k', y; split; [exact Hk' | exact Hm]]).
  - destruct (rec_total seen x HG) as (t & seen1 & Hr & Hsub). rewrite Hr.
    assert (HG1 : G seen1) by (eapply G_mono; eassumption).
    destruct t as [t|]; apply IH; eauto.
Qed.

Lemma elements_loop_twice l1 : forall l2 seen partial,
  G seen -> y ∈ l2 ->
  exists t seen', elements_loop rec finish (l1 ++ y :: l2) seen partial = SOk (Some t) seen' /\
                  contains w t.
Proof.
  induction l1 as [|x l1 IH]; intros l2 seen partial HG Hy; cbn [app elements_loop].
  - destruct (rec_total seen y HG) as (t & seen1 & Hr & Hsub). rewrite Hr.
    assert (HG1 : G seen1) by (eapply G_mono; eassumption).
    assert (Hm : marked rec G w seen1 y) by exact (once seen t seen1 HG Hr).
    destruct t as [t|];
      (apply (elements_loop_marker rec finish G w G_mono rec_total finish_keeps);
       [exact HG1 | right; exists y; split; [exact Hy | exact Hm]]).
  - destruct (rec_total seen x HG) as (t & seen1 & Hr & Hsub). rewrite Hr.
    assert (HG1 : G seen1) by (eapply G_mono; eassumption).
    destruct t as [t|]; apply IH; eauto.
Qed.

End Twice.

(** Once an object has been serialized, it has been seen. *)
Lemma ser_sees fuel h stack indent seen c t seen' :
  good fuel h stack seen ->
  ser fuel h stack indent seen (HRef c) = SOk t seen' -> c ∈ seen'.
Proof.
  intros Hg H. destruct fuel as [|f]; [discriminate|].
  cbn [ser replacer] in H.
  destruct (bool_decide (c ∈ seen)) eqn:Hc.
  - apply bool_decide_eq_true in Hc. injection H as <- <-. exact Hc.
  - apply bool_decide_eq_false in Hc.
    replace (bool_decide (c ∈ stack)) with false in H
      by (symmetry; apply bool_decide_eq_false; intros Hin; apply Hc, Hg, Hin).
    cbv zeta in H.
    assert (Hsub : {[c]} ∪ seen ⊆ seen'); [|set_solver].
    destruct (h !! c) as [o|] eqn:Ho;
      [rewrite (deref_Some _ _ _ Ho) in H | rewrite (deref_None _ _ Ho) in H].
    + assert (Hg1 : good f h (c :: stack) ({[c]} ∪ seen))
        by (apply good_descend; eauto).
      destruct o as [props|elems].
      * destruct (members_loop_total (ser f h (c :: stack) (indent ++ gap))
                    (wrap (js "{") (js "}") (indent ++ gap) indent)
                    (good f h (c :: stack)) (good_mono f h (c :: stack))
                    (fun seen x Hx => ser_total f h (c :: stack) (indent ++ gap) seen x Hx)
                    (JSON.own_properties props) _ [] Hg1) as (t1 & seen1 & E & Hs).
        rewrite E in H. injection H as <- <-. exact Hs.
      * destruct (elements_loop_total (ser f h (c :: stack) (indent ++ gap))
                    (wrap (js "[") (js "]") (indent ++ gap) indent)
                    (good f h (c :: stack)) (good_mono f h (c :: stack))
                    (fun seen x Hx => ser_total f h (c :: stack) (indent ++ gap) seen x Hx)
                    elems _ [] Hg1) as (t1 & seen1 & E & Hs).
        rewrite E in H. injection H as <- <-. exact Hs.
    + cbn [members_loop JSON.own_properties] in H. injection H as <- <-. set_solver.
Qed.

Lemma ser_marked_once f h stack indent c seen t seen' :
  good (S f) h stack seen ->
  ser (S f) h stack indent seen (HRef c) = SOk t seen' ->
  marked (ser (S f) h stack indent) (good (S f) h stack) circular seen' (HRef c).
Proof.
  intros Hg H s Hs HG. rewrite ser_seen.
  - eexists _, _. split; [reflexivity | apply contains_quote_circular].
  - apply Hs. exact (ser_sees _ _ _ _ _ _ _ _ Hg H).
Qed.

(** X3. An object that is referred to twice is written once: for plain
    data, that is when no object has a [toJSON] method, where the object at
    [l] refers to the same object under two keys, or at two indices of an
    array, the text [JSON.stringify] returns with the replacer of
    [sanitizeObservation] holds the marker [[Circular]] for the second
    reference, although nothing is cyclic. *)
Theorem shared_object_is_marked (h : heap) l c :
  plain_data h ->
  is_Some (h !! l) ->
  mentions_twice h l c ->
  exists json seen,
    stringify_seen h (HRef l) = SOk (Some json) seen /\
    includes circular json = true.
Proof.
  intros _ Hl Htwice. unfold stringify_seen.
  pose proof (good_initial h) as Hg0.
  cbn [ser replacer].
  replace (bool_decide (l ∈ (∅ : gset loc))) with false
    by (symmetry; apply bool_decide_eq_false; set_solver).
  replace (bool_decide (l ∈ ([] : list loc))) with false
    by (symmetry; apply bool_decide_eq_false; set_solver).
  cbv zeta.
  assert (Hg1 : good (S (size h)) h [l] ({[l]} ∪ ∅))
    by (apply good_descend; [exact Hg0 | set_solver | exact Hl]).
  unfold mentions_twice in Htwice.
  destruct (deref h l) as [props|elems].
  - destruct Htwice as (k1 & k2 & Hne & H1 & H2).
    apply (own_properties_keeps props) in H1, H2.
    destruct (two_members _ _ _ H1 H2) as (x & y & l1 & l2 & -> & Hy & Hxy);
      [congruence|].
    assert (Hsame : exists kx ky, x = (kx, HRef c) /\ y = (ky, HRef c)).
    { destruct Hxy as [(-> & ->)|(-> & ->)]; eauto. }
    destruct Hsame as (kx & ky & -> & ->).
    destruct (members_loop_twice (ser (S (size h)) h [l] ([] ++ gap))
                (wrap (js "{") (js "}") ([] ++ gap) [])
                (good (S (size h)) h [l]) circular
                (good_mono _ h [l])
                (fun seen v Hv => ser_total _ h [l] ([] ++ gap) seen v Hv)
                (contains_wrap _ _ _ _ _)
                (HRef c)
                (fun seen t seen' HG Hr => ser_marked_once _ h [l] _ c seen t seen' HG Hr)
                l1 kx l2 ({[l]} ∪ ∅) [] Hg1 (ex_intro _ ky Hy))
      as (t & seen' & Ht & Hc).
    exists t, seen'. split; [exact Ht | apply includes_spec, Hc].
  - destruct Htwice as (i & j & Hne & Hi & Hj).
    destruct (two_indices _ _ _ _ Hne Hi Hj) as (l1 & l2 & -> & Hy).
    destruct (elements_loop_twice (ser (S (size h)) h [l] ([] ++ gap))
                (wrap (js "[") (js "]") ([] ++ gap) [])
                (good (S (size h)) h [l]) circular
                (good_mono _ h [l])
                (fun seen v Hv => ser_total _ h [l] ([] ++ gap) seen v Hv)
                (contains_wrap _ _ _ _ _)
                (HRef c)
                (fun seen t seen' HG Hr => ser_marked_once _ h [l] _ c seen t seen' HG Hr)
                l1 l2 ({[l]} ∪ ∅) [] Hg1 Hy)
      as (t & seen' & Ht & Hc).
    exists t, seen'. split; [exact Ht | apply includes_spec, Hc].
Qed.

End Shared.

(** ** The loop controller: rounds, turns and failing tools *)

Section AgentMore.

Context {NO : NumberOps}.
Variable world : Type.
Variable env : environment world.

Local Abbreviation agent := (agent world).
Local Abbreviation M := (M world).
Local Abbreviation preserves := (Agent.preserves (world := world)).
Local Abbreviation steady := (steady (world := world)).
Local Abbreviation grows := (grows (world := world)).

(** *** The registry *)

(** X4. The registry answers a name with the last tool of the list that
    has a [function] member of that name. *)
Theorem registry_last_wins (ts : list (option (tool_function world))) (w0 : world) n :
  registry (new_Agent ts w0) !! n =
  last (filter (fun f => fn_name f = n) (omap Datatypes.id ts)).
Proof.
  unfold new_Agent. cbn [registry].
  induction (omap Datatypes.id ts) as [|f l IH] using rev_ind.
  - reflexivity.
  - rewrite foldl_app, filter_app. cbn [foldl].
    destruct (decide (fn_name f = n)) as [E|E].
    + rewrite E, lookup_insert_eq.
      rewrite filter_cons_True by exact E. rewrite filter_nil, last_snoc. reflexivity.
    + rewrite lookup_insert_ne by exact E.
      rewrite filter_cons_False by exact E. rewrite filter_nil, app_nil_r. exact IH.
Qed.

(** *** What a round leaves alone *)

Lemma steady_planned : steady planned.
Proof. repeat split. Qed.

Lemma steady_maxTurns : steady maxTurns.
Proof. repeat split. Qed.

Lemma steady_registry : steady registry.
Proof. repeat split. Qed.

Section Steady.

Context {X : Type} (proj : agent -> X) (Hs : steady proj).

Lemma steady_onThought t : preserves proj (onThought t).
Proof. intros a. apply Hs. Qed.

Lemma steady_onMessage r t : preserves proj (onMessage r t).
Proof. intros a. apply Hs. Qed.

Lemma steady_push t : preserves proj (push t).
Proof. intros a. apply Hs. Qed.

Lemma steady_generate_id i idx : preserves proj (generate_id env i idx).
Proof.
  intros a. unfold generate_id. destruct Hs as (Hw & _).
  destruct (randomUUID env) as [uuid|].
  - destruct (uuid _) as [u w']. apply Hw.
  - destruct (Math_random36 env _) as [r w']. apply Hw.
Qed.

Lemma steady_normalize i call idx : preserves proj (normalize env i call idx).
Proof.
  unfold normalize.
  repeat (apply preserves_bind; [try apply preserves_lift|intros ?]).
  - destruct (coalesce _ _); try apply preserves_ret. apply preserves_lift.
  - destruct (truthy _); [apply preserves_ret | apply steady_generate_id].
  - apply preserves_ret.
Qed.

Lemma steady_map_idx i l : forall idx,
  preserves proj (map_idx (normalize env i) l idx).
Proof.
  induction l as [|x l IH]; intros idx; cbn [map_idx].
  - apply preserves_ret.
  - apply preserves_bind; [apply steady_normalize|intros y].
    apply preserves_bind; [apply IH|intros ys]. apply preserves_ret.
Qed.

Lemma steady_execute fn c : preserves proj (execute fn c).
Proof.
  unfold execute.
  apply preserves_bind; [apply preserves_read|intros ms].
  apply preserves_bind.
  - intros a. destruct (implementation fn _ _) as [o w']. apply Hs.
  - intros o. destruct o; cbv zeta;
      [ apply preserves_ret
      | repeat (apply preserves_bind; [apply preserves_lift | intros ?]);
        apply preserves_ret .. ].
Qed.

Lemma steady_dispatch c : preserves proj (dispatch env c).
Proof.
  unfold dispatch. apply preserves_bind; [apply preserves_read|intros [fn|]];
    (apply preserves_bind; [apply preserves_lift|intros n]).
  - apply preserves_bind; [apply steady_onThought|intros _].
    apply preserves_bind; [apply steady_execute|intros r].
    apply preserves_bind; [apply preserves_read|intros limit].
    apply preserves_bind; [apply steady_onThought|intros _].
    apply steady_push.
  - apply preserves_bind; [apply steady_onThought|intros _].
    apply steady_push.
Qed.

Lemma steady_handle i step : preserves proj (handle env i step).
Proof.
  unfold handle.
  do 5 (apply preserves_bind; [apply preserves_lift|intros ?]).
  apply preserves_bind;
    [destruct (truthy _); [apply preserves_lift | apply preserves_ret]|intros [|]].
  - apply preserves_bind; [apply preserves_lift|intros n].
    apply preserves_bind; [apply steady_onThought|intros _].
    destruct (or_ _ _); try apply preserves_lift.
    apply preserves_bind; [apply steady_map_idx|intros mapped].
    apply preserves_bind; [apply steady_push|intros _].
    apply preserves_bind; [|intros _; apply preserves_ret].
    apply preserves_for_each. intros c. apply steady_dispatch.
  - match goal with |- context [match ?c with _ => _ end] => destruct c as [| | | |[|c cs]| |] end;
      try (apply preserves_bind; [apply steady_onThought|intros _];
           apply preserves_bind; [apply steady_push|intros _];
           apply preserves_ret).
    apply preserves_bind; [apply preserves_lift|intros reason].
    apply preserves_bind; [apply steady_onThought|intros _].
    apply preserves_bind; [apply steady_onMessage|intros _].
    apply preserves_bind; [apply steady_push|intros _].
    apply preserves_bind; [apply preserves_lift|intros fin].
    destruct fin; apply preserves_ret.
Qed.

End Steady.

(** *** The number of rounds *)

Lemma round_planned i a : planned (round env i a).2 = S (planned a).
Proof.
  unfold round. rewrite mbind_state. unfold plan.
  destruct (getCompletion env (history a) (w a)) as [[step|e] w']; [|reflexivity].
  rewrite (steady_handle planned steady_planned). reflexivity.
Qed.

Lemma round_maxTurns i a : maxTurns (round env i a).2 = maxTurns a.
Proof.
  unfold round. rewrite mbind_state. unfold plan.
  destruct (getCompletion env (history a) (w a)) as [[step|e] w']; [|reflexivity].
  rewrite (steady_handle maxTurns steady_maxTurns). reflexivity.
Qed.

Lemma rounds_planned n : forall i a,
  (planned (rounds env n i a).2 <= planned a + n)%nat.
Proof.
  induction n as [|n IH]; intros i a; cbn [rounds].
  - cbn. lia.
  - rewrite mbind_state. pose proof (round_planned i a) as Hr.
    destruct (round env i a) as [[[|]|e] a1]; cbn [snd] in *.
    + specialize (IH (S i) a1). lia.
    + unfold ret; cbn [snd]; lia.
    + lia.
Qed.

(** X5. Whatever the provider answers and the tools do, [run] asks the
    provider at most [maxTurns] times. *)
Theorem run_plans_at_most_maxTurns userInput a :
  (planned (run env userInput a).2 <= planned a + maxTurns a)%nat.
Proof.
  set (a0 := set_messages (fun l => l ++ [(js "user", userInput)])
               (set_history (fun _ => [user_turn userInput]) a)).
  change (run env userInput a) with (rounds env (maxTurns a0) 0 a0).
  apply (rounds_planned (maxTurns a0) 0%nat a0).
Qed.


(** *** Lists that only grow *)

Lemma grows_bind {A B X} (proj : agent -> list X) (c : M A) (f : A -> M B) :
  grows proj c -> (forall x, grows proj (f x)) -> grows proj (mbind c f).
Proof.
  intros Hc Hf a. rewrite mbind_state. specialize (Hc a).
  destruct (c a) as [[x|e] a1]; [|exact Hc].
  etrans; [exact Hc | apply Hf].
Qed.

Lemma grows_preserves {A X} (proj : agent -> list X) (c : M A) :
  preserves proj c -> grows proj c.
Proof. intros Hc a. rewrite Hc. reflexivity. Qed.

Lemma grows_for_each {A X} (proj : agent -> list X) (f : A -> M unit) l :
  (forall x, grows proj (f x)) -> grows proj (for_each f l).
Proof.
  intros Hf. induction l as [|x l IH]; cbn [for_each].
  - apply grows_preserves, preserves_ret.
  - apply grows_bind; [apply Hf | intros _; apply IH].
Qed.

Section Grows.

Context {X : Type} (proj : agent -> list X).
Hypothesis Hq : Agent.quiet proj.
Hypothesis Hpush : forall t, grows proj (push t).
Hypothesis Hmsg : forall r t, grows proj (onMessage r t).

Lemma grows_dispatch c : grows proj (dispatch env c).
Proof.
  unfold dispatch.
  apply grows_bind; [apply grows_preserves, preserves_read|intros [fn|]];
    (apply grows_bind; [apply grows_preserves, preserves_lift|intros n]).
  - apply grows_bind; [apply grows_preserves, preserves_onThought, Hq|intros _].
    apply grows_bind; [apply grows_preserves, preserves_execute, Hq|intros r].
    apply grows_bind; [apply grows_preserves, preserves_read|intros limit].
    apply grows_bind; [apply grows_preserves, preserves_onThought, Hq|intros _].
    apply Hpush.
  - apply grows_bind; [apply grows_preserves, preserves_onThought, Hq|intros _].
    apply Hpush.
Qed.

Lemma grows_handle i step : grows proj (handle env i step).
Proof.
  unfold handle.
  do 5 (apply grows_bind; [apply grows_preserves, preserves_lift|intros ?]).
  apply grows_bind;
    [destruct (truthy _); apply grows_preserves; [apply preserves_lift | apply preserves_ret]
    |intros [|]].
  - apply grows_bind; [apply grows_preserves, preserves_lift|intros n].
    apply grows_bind; [apply grows_preserves, preserves_onThought, Hq|intros _].
    destruct (or_ _ _); try apply grows_preserves, preserves_lift.
    apply grows_bind; [apply grows_preserves, preserves_map_idx, Hq|intros mapped].
    apply grows_bind; [apply Hpush|intros _].
    apply grows_bind; [|intros _; apply grows_preserves, preserves_ret].
    apply grows_for_each. intros c. apply grows_dispatch.
  - match goal with |- context [match ?c with _ => _ end] => destruct c as [| | | |[|c cs]| |] end;
      try (apply grows_bind; [apply grows_preserves, preserves_onThought, Hq|intros _];
           apply grows_bind; [apply Hpush|intros _];
           apply grows_preserves, preserves_ret).
    apply grows_bind; [apply grows_preserves, preserves_lift|intros reason].
    apply grows_bind; [apply grows_preserves, preserves_onThought, Hq|intros _].
    apply grows_bind; [apply Hmsg|intros _].
    apply grows_bind; [apply Hpush|intros _].
    apply grows_bind; [apply grows_preserves, preserves_lift|intros fin].
    destruct fin; apply grows_preserves, preserves_ret.
Qed.

Lemma grows_rounds n : forall i, grows proj (rounds env n i).
Proof.
  induction n as [|n IH]; intros i; cbn [rounds].
  - apply Hmsg.
  - apply grows_bind.
    + unfold round. apply grows_bind; [apply grows_preserves, preserves_plan, Hq|].
      intros step. apply grows_handle.
    + intros [|]; [apply IH | apply grows_preserves, preserves_ret].
Qed.

End Grows.

Lemma grows_history_rounds n i : grows history (rounds env n i).
Proof.
  apply grows_rounds.
  - apply quiet_history.
  - intros t a. eexists. reflexivity.
  - intros r t. apply grows_preserves. intros a. reflexivity.
Qed.

Lemma grows_messages_rounds n i : grows messages (rounds env n i).
Proof.
  apply grows_rounds.
  - apply quiet_messages.
  - intros t. apply grows_preserves. intros a. reflexivity.
  - intros r t a. eexists. reflexivity.
Qed.

(** X6. [run] starts from a fresh history: whatever the agent held before,
    the history it leaves begins with the user turn of this input, and the
    first message it emits is the user's. Everything else comes after. *)
Theorem run_starts_afresh userInput a :
  exists turns ms,
    history (run env userInput a).2 = user_turn userInput :: turns /\
    messages (run env userInput a).2 = messages a ++ (js "user", userInput) :: ms.
Proof.
  set (a0 := set_messages (fun l => l ++ [(js "user", userInput)])
               (set_history (fun _ => [user_turn userInput]) a)).
  change (run env userInput a) with (rounds env (maxTurns a0) 0 a0).
  destruct (grows_history_rounds (maxTurns a0) 0%nat a0) as (turns & Hh).
  destruct (grows_messages_rounds (maxTurns a0) 0%nat a0) as (ms & Hm).
  exists turns, ms. split; [exact Hh|].
  rewrite Hm. cbn [a0 messages set_messages]. rewrite <- app_assoc. reflexivity.
Qed.

(** *** A decision that ends the run *)

Lemma final_word_nonempty s : map lower s ∈ final_words -> s <> [].
Proof.
  intros H ->. cbn in H. unfold final_words in H.
  repeat (apply elem_of_cons in H as [H|H]; [discriminate|]).
  apply elem_of_nil in H. exact H.
Qed.

Lemma handle_final i c cs s a :
  map lower s ∈ final_words ->
  handle env i (VObj [prop "toolCalls" VNull; prop "content" (VStr (c :: cs));
                      prop "stopReason" (VStr s)]) a =
  (Normal Return,
   set_history (fun h => h ++ [content_turn (c :: cs)])
     (set_messages (fun l => l ++ [(js "agent", c :: cs)])
        (set_thoughts (fun l => l ++ [js "[reflect] Model produced content. stopReason=" ++ s])
           a))).
Proof.
  intros Hs. pose proof (final_word_nonempty s Hs) as Hn.
  destruct s as [|x xs]; [congruence|].
  unfold handle, mbind, lift. cbn [get].
  change (assoc (js "toolCalls") _) with VNull.
  change (assoc (js "tool_calls") _) with VUndef.
  change (assoc (js "stopReason") _) with (VStr (x :: xs)).
  change (assoc (js "stop_reason") _) with VUndef.
  change (assoc (js "content") _) with (VStr (c :: cs)).
  cbn [or_ truthy andb length_pos length Nat.ltb Nat.leb ToString printable to_string
       isFinal ret].
  rewrite bool_decide_true by exact Hs. reflexivity.
Qed.

(** X7. A decision without tool calls whose content is a non-empty string
    and whose stopReason is one of [final], [stop], [completed], [end],
    [done], in any letter case, ends the run at once: one call of the
    provider, the content as the agent's message and as the last turn, and
    no stuck-run message. *)
Theorem final_answer_ends_run userInput text s w' a :
  (0 < maxTurns a)%nat ->
  text <> [] ->
  map lower s ∈ final_words ->
  getCompletion env [user_turn userInput] (w a) =
    (Normal (VObj [prop "toolCalls" VNull; prop "content" (VStr text);
                   prop "stopReason" (VStr s)]), w') ->
  exists a',
    run env userInput a = (Normal tt, a') /\
    planned a' = S (planned a) /\
    history a' = [user_turn userInput; content_turn text] /\
    messages a' = messages a ++ [(js "user", userInput); (js "agent", text)].
Proof.
  intros Hturns Htext Hs Hplan.
  destruct text as [|c cs]; [congruence|].
  set (a0 := set_messages (fun l => l ++ [(js "user", userInput)])
               (set_history (fun _ => [user_turn userInput]) a)).
  change (run env userInput a) with (rounds env (maxTurns a) 0 a0).
  destruct (maxTurns a) as [|n]; [lia|].
  cbn [rounds]. unfold mbind at 1. unfold round, mbind at 1, plan.
  change (history a0) with [user_turn userInput]. change (w a0) with (w a).
  rewrite Hplan. rewrite handle_final by exact Hs.
  eexists. split; [reflexivity|]. split; [reflexivity|]. split; [reflexivity|].
  cbn. rewrite <- app_assoc. reflexivity.
Qed.


(** *** A planner that says nothing *)

Lemma get_getq (v : value) k : nullish v = false -> get v k = Normal (getq v k).
Proof. destruct v; try discriminate; reflexivity. Qed.

Lemma handle_silent i step a :
  nullish step = false -> no_tool_calls step -> has_content step = false ->
  handle env i step a =
  (Normal Continue,
   set_history (fun h => h ++ [replanning_turn])
     (set_thoughts
        (fun l => l ++ [js "[plan] Model produced no content and no tool. Replanning."]) a)).
Proof.
  intros Hn Hc Ht. unfold handle, mbind, lift, ret.
  rewrite !(get_getq step) by exact Hn.
  unfold no_tool_calls in Hc. cbv zeta in Hc. rewrite Hc.
  replace (if truthy _ then _ else _) with (fun a0 : agent => (Normal false, a0))
    by (destruct (truthy _); reflexivity).
  unfold has_content in Ht.
  destruct (getq step (js "content")) as [| | | |[|c cs]| |]; try reflexivity.
  discriminate.
Qed.

Section Silent.

Hypothesis silent :
  forall h w0, exists d w',
    getCompletion env h w0 = (Normal d, w') /\
    nullish d = false /\ no_tool_calls d /\ has_content d = false.

Lemma rounds_silent n : forall i a,
  exists a',
    rounds env n i a = (Normal tt, a') /\
    planned a' = (planned a + n)%nat /\
    history a' = history a ++ replicate n replanning_turn /\
    messages a' = messages a ++ [(js "agent", stuck)].
Proof.
  induction n as [|n IH]; intros i a; cbn [rounds].
  - eexists. split; [reflexivity|]. split; [cbn; lia|].
    split; [cbn; rewrite app_nil_r; reflexivity | reflexivity].
  - destruct (silent (history a) (w a)) as (d & w' & Hplan & Hn & Hc & Ht).
    unfold mbind at 1. unfold round, mbind at 1, plan. rewrite Hplan.
    rewrite (handle_silent _ _ _ Hn Hc Ht).
    match goal with |- context [rounds env n (S i) ?a1] =>
      destruct (IH (S i) a1) as (a' & Hr & Hp & Hh & Hm) end.
    exists a'. split; [exact Hr|].
    split; [rewrite Hp; cbn; lia|].
    split; [rewrite Hh; cbn; rewrite <- app_assoc; reflexivity | exact Hm].
Qed.

(** X8. With a provider that never proposes a tool call and never gives a
    non-empty string as content, whatever its stopReason, [run] completes
    normally after exactly [maxTurns] calls of the provider; each round
    adds the replanning turn to the history, and the only message of the
    agent is the stuck-run message. *)
Theorem silent_planner_is_nudged userInput a :
  exists a',
    run env userInput a = (Normal tt, a') /\
    planned a' = (planned a + maxTurns a)%nat /\
    history a' = user_turn userInput :: replicate (maxTurns a) replanning_turn /\
    messages a' = messages a ++ [(js "user", userInput); (js "agent", stuck)].
Proof.
  set (a0 := set_messages (fun l => l ++ [(js "user", userInput)])
               (set_history (fun _ => [user_turn userInput]) a)).
  change (run env userInput a) with (rounds env (maxTurns a) 0 a0).
  destruct (rounds_silent (maxTurns a) 0%nat a0) as (a' & Hr & Hp & Hh & Hm).
  exists a'. split; [exact Hr|]. split; [exact Hp|]. split; [exact Hh|].
  rewrite Hm. cbn. rewrite <- app_assoc. reflexivity.
Qed.

End Silent.

(** *** Normalized calls *)

Lemma normalize_args i c idx a nc a' :
  normalize env i c idx a = (Normal nc, a') ->
  typeof_object (args nc) = true /\ is_null (args nc) = false /\
  name nc = or_ (getq c (js "name")) (getq c (js "tool")).
Proof.
  unfold normalize. intros H.
  apply mbind_Normal in H as (n & a1 & H1 & H).
  apply mbind_Normal in H as (t & a2 & H2 & H).
  apply mbind_Normal in H as (x1 & a3 & H3 & H).
  apply mbind_Normal in H as (x2 & a4 & H4 & H).
  apply mbind_Normal in H as (args0 & a5 & H5 & H).
  apply mbind_Normal in H as (cid & a6 & H6 & H).
  apply mbind_Normal in H as (id' & a7 & H7 & H).
  injection H as <- <-. cbn [args name].
  unfold lift in H1, H2. injection H1 as H1 <-. injection H2 as H2 <-.
  unfold getq. rewrite H1, H2.
  split; [|split; [|reflexivity]].
  - destruct (typeof_object args0) eqn:E1; cbn [negb orb]; [|reflexivity].
    destruct (is_null args0); [reflexivity | exact E1].
  - destruct (typeof_object args0) eqn:E1; cbn [negb orb]; [|reflexivity].
    destruct (is_null args0) eqn:E2; [reflexivity | exact E2].
Qed.

Lemma stringified_object (v : value) :
  typeof_object v = true -> is_null v = false -> is_string (stringified v) = true.
Proof. destruct v; try discriminate; reflexivity. Qed.

Lemma map_idx_normalize i l : forall idx a ncs a',
  map_idx (normalize env i) l idx a = (Normal ncs, a') ->
  Forall2 (fun c nc =>
             typeof_object (args nc) = true /\ is_null (args nc) = false /\
             name nc = or_ (getq c (js "name")) (getq c (js "tool"))) l ncs.
Proof.
  induction l as [|c l IH]; intros idx a ncs a' H; cbn [map_idx] in H.
  - injection H as <- <-. constructor.
  - apply mbind_Normal in H as (nc & a1 & H1 & H).
    apply mbind_Normal in H as (ncs' & a2 & H2 & H).
    injection H as <- <-. constructor.
    + eapply normalize_args, H1.
    + eapply IH, H2.
Qed.

(** X9. In a round of tool calls that completes, the calls recorded in the
    assistant turn are the entries that have a truthy [name] or [tool], in
    their order and under that name; each has an object or an array as
    arguments, written in the turn as a string; and one tool turn follows
    for each of them, in the same order. An entry without a name is
    dropped. *)
Theorem named_calls_are_recorded i props l a r a' :
  or_ (or_ (assoc (js "toolCalls") props) (assoc (js "tool_calls") props)) (VArr []) = VArr l ->
  l <> [] ->
  handle env i (VObj props) a = (Normal r, a') ->
  exists ncs texts,
    history a' = history a ++ assistant_calls ncs :: zip_with tool_turn ncs texts /\
    length texts = length ncs /\
    map name ncs =
      filter (fun n => truthy n = true)
             (map (fun c => or_ (getq c (js "name")) (getq c (js "tool"))) l) /\
    Forall well_formed ncs.
Proof.
  intros Htc Hl H. rewrite (handle_tool_calls world env i props l a Htc Hl) in H.
  unfold act in H.
  apply mbind_Normal in H as ([] & a1 & H1 & H).
  apply mbind_Normal in H as (mapped & a2 & H2 & H).
  cbv zeta in H.
  apply mbind_Normal in H as ([] & a3 & H3 & H).
  apply mbind_Normal in H as ([] & a4 & H4 & H).
  injection H as <- <-.
  apply for_each_dispatch_turns in H4 as (texts & Hlen & H4).
  injection H3 as <-.
  apply map_idx_normalize in H2 as Hall.
  exists (filter (fun c => truthy (name c) = true) mapped), texts.
  split; [|split; [exact Hlen|split]].
  - rewrite H4. cbn [history set_history]. rewrite <- app_assoc. f_equal.
    rewrite (preserved world _ _ _ _ _ (preserves_map_idx world env _ (quiet_history world) _ _ _) H2).
    rewrite (preserved world _ _ _ _ _ (preserves_onThought world _ (quiet_history world) _) H1).
    reflexivity.
  - clear - Hall. induction Hall as [|c nc l' ncs' (_ & _ & Hn) _ IH]; [reflexivity|].
    cbn [map]. rewrite !filter_cons, <- Hn.
    destruct (decide (truthy (name nc) = true)); cbn [map]; rewrite IH; reflexivity.
  - clear - Hall. induction Hall as [|c nc l' ncs' (Ht & Hnull & _) _ IH].
    + constructor.
    + rewrite filter_cons. destruct (decide (truthy (name nc) = true)) as [E|E]; [|exact IH].
      constructor; [|exact IH].
      split; [exact E|]. split; [exact Ht|]. split; [exact Hnull|].
      apply stringified_object; assumption.
Qed.

(** *** Rounds of tool calls that complete *)

Section Completes.

(** The registry stays the one of the start, whose tools fail in a way the
    loop can report. *)
Variable R : gmap jsstring (tool_function world).
Hypothesis R_reportable : forall n fn, R !! n = Some fn -> reportable fn.

Local Abbreviation same_registry := (fun a : agent => registry a = R).

Lemma completes_bind {A B} (c : M A) (f : A -> M B) :
  completes same_registry c -> (forall x, completes same_registry (f x)) ->
  completes same_registry (mbind c f).
Proof.
  intros Hc Hf a Ha. destruct (Hc a Ha) as (x & a1 & E & Ha1).
  unfold mbind. rewrite E. apply Hf, Ha1.
Qed.

Lemma completes_at {A} (c : M A) a :
  completes same_registry c -> same_registry a ->
  exists x a', c a = (Normal x, a') /\ same_registry a'.
Proof. intros Hc Ha. exact (Hc a Ha). Qed.

Lemma completes_ret {A} (x : A) : completes same_registry (ret x).
Proof. intros a Ha. exists x, a. split; [reflexivity | exact Ha]. Qed.

Lemma completes_Normal {A} (x : A) : completes same_registry (lift (Normal x)).
Proof. intros a Ha. exists x, a. split; [reflexivity | exact Ha]. Qed.

Lemma completes_read {A} (f : agent -> A) : completes same_registry (read f).
Proof. intros a Ha. exists (f a), a. split; [reflexivity | exact Ha]. Qed.

Lemma completes_get (v : value) k :
  nullish v = false -> completes same_registry (lift (get v k)).
Proof. intros Hv. rewrite get_getq by exact Hv. apply completes_Normal. Qed.

Lemma completes_ToString (v : value) :
  printable v = true -> completes same_registry (lift (ToString v)).
Proof. intros Hv. unfold ToString. rewrite Hv. apply completes_Normal. Qed.

Lemma completes_onThought t : completes same_registry (onThought t).
Proof. intros a Ha. eexists _, _. split; [reflexivity | exact Ha]. Qed.

Lemma completes_push t : completes same_registry (push t).
Proof. intros a Ha. eexists _, _. split; [reflexivity | exact Ha]. Qed.

Lemma completes_generate_id i idx : completes same_registry (generate_id env i idx).
Proof.
  intros a Ha. unfold generate_id. destruct (randomUUID env) as [uuid|].
  - destruct (uuid _) as [u w']. eexists _, _. split; [reflexivity | exact Ha].
  - destruct (Math_random36 env _) as [r w']. eexists _, _. split; [reflexivity | exact Ha].
Qed.

Lemma completes_normalize i call idx :
  nullish call = false -> completes same_registry (normalize env i call idx).
Proof.
  intros Hc. unfold normalize.
  do 4 (apply completes_bind; [apply completes_get, Hc | intros ?]).
  apply completes_bind; [|intros args0].
  { destruct (coalesce _ _); try apply completes_ret.
    match goal with |- context [try_catch ?c (Normal ?y)] =>
      destruct (try_catch_total c y) as (parsed2 & ->) end.
    match goal with |- context [try_catch ?c (Normal ?y)] =>
      destruct (try_catch_total c y) as (parsed1 & ->) end.
    apply completes_Normal. }
  apply completes_bind; [apply completes_get, Hc | intros cid].
  apply completes_bind; [|intros id0; apply completes_ret].
  destruct (truthy cid); [apply completes_ret | apply completes_generate_id].
Qed.

Lemma completes_map_idx i l : forall idx,
  Forall (fun c => nullish c = false) l ->
  completes same_registry (map_idx (normalize env i) l idx).
Proof.
  induction l as [|c l IH]; intros idx Hl; cbn [map_idx].
  - apply completes_ret.
  - apply Forall_cons in Hl as [Hc Hl].
    apply completes_bind; [apply completes_normalize, Hc | intros nc].
    apply completes_bind; [apply IH, Hl | intros ncs]. apply completes_ret.
Qed.

Lemma completes_execute fn c :
  reportable fn -> printable (name c) = true -> completes same_registry (execute fn c).
Proof.
  intros Hfn Hn a Ha. unfold execute, mbind, read.
  pose proof (Hfn (args c) (w a)) as Ho.
  destruct (implementation fn (args c) (w a)) as [o w'].
  cbn [fst] in Ho. unfold lift, ToString. rewrite Hn.
  destruct o as [h v|e|].
  - eexists _, _. split; [reflexivity | exact Ha].
  - destruct Ho as [He Hm]. rewrite (get_getq e) by exact He. rewrite Hm.
    eexists _, _. split; [reflexivity | exact Ha].
  - eexists _, _. split; [reflexivity | exact Ha].
Qed.

Lemma completes_dispatch c :
  printable (name c) = true -> completes same_registry (dispatch env c).
Proof.
  intros Hn a Ha. unfold dispatch. unfold mbind at 1. unfold read at 1.
  destruct (registry_get a (name c)) as [fn|] eqn:Efn.
  - assert (Hfn : reportable fn).
    { destruct (name c); try discriminate Efn. cbn [registry_get] in Efn.
      rewrite Ha in Efn. exact (R_reportable _ _ Efn). }
    apply completes_at; [|exact Ha].
    apply completes_bind; [apply completes_ToString, Hn | intros n].
    apply completes_bind; [apply completes_onThought | intros _].
    apply completes_bind; [apply completes_execute; assumption | intros r].
    apply completes_bind; [apply completes_read | intros limit].
    apply completes_bind; [apply completes_onThought | intros _].
    apply completes_push.
  - apply completes_at; [|exact Ha].
    apply completes_bind; [apply completes_ToString, Hn | intros n].
    apply completes_bind; [apply completes_onThought | intros _].
    apply completes_push.
Qed.

Lemma completes_for_each ncs :
  Forall (fun c => printable (name c) = true) ncs ->
  completes same_registry (for_each (dispatch env) ncs).
Proof.
  induction 1 as [|c ncs Hc _ IH]; cbn [for_each].
  - apply completes_ret.
  - apply completes_bind; [apply completes_dispatch, Hc | intros _; exact IH].
Qed.

Lemma act_completes i l a :
  Forall (fun c => readable c = true) l ->
  registry a = R ->
  (act env i l a).1 = Normal Continue.
Proof.
  intros Hl Ha.
  assert (Hnn : Forall (fun c => nullish c = false) l).
  { eapply Forall_impl; [exact Hl|]. intros c Hc. unfold readable in Hc.
    apply andb_prop in Hc as [Hc _]. apply negb_true_iff, Hc. }
  unfold act. unfold mbind at 1. unfold onThought at 1, modify at 1.
  match goal with |- context [mbind (map_idx ?f l 0) ?k ?a1] =>
    destruct (completes_map_idx i l 0 Hnn a1 Ha) as (mapped & a2 & E & Ha2);
    pose proof (map_idx_normalize i l 0 a1 mapped a2 E) as Hall
  end.
  unfold mbind at 1. rewrite E. cbv zeta.
  assert (Hp : Forall (fun c => printable (name c) = true)
                 (filter (fun c => truthy (name c) = true) mapped)).
  { clear - Hall Hl. induction Hall as [|c nc l' ncs' (_ & _ & Hn) _ IH]; [constructor|].
    apply Forall_cons in Hl as [Hc Hl]. rewrite filter_cons.
    destruct (decide (truthy (name nc) = true)); [|apply IH, Hl].
    constructor; [|apply IH, Hl].
    rewrite Hn. unfold readable in Hc. apply andb_prop in Hc as [_ Hc]. exact Hc. }
  unfold mbind at 1. unfold push at 1, modify at 1.
  match goal with |- context [mbind (for_each ?f ?ncs) ?k ?a3] =>
    destruct (completes_for_each ncs Hp a3 Ha2) as ([] & a4 & E4 & _)
  end.
  unfold mbind at 1. rewrite E4. reflexivity.
Qed.

End Completes.

(** C10 (as amended). When the decision carries a non-empty array of tool
    calls, the round takes the tool-call branch whatever else the decision
    carries: it is the round of the decision reduced to its [toolCalls]
    member, so the content and the stopReason play no part; the message
    callback is not called; the round does not end the run by a return;
    when it completes, it goes on to the next round, and the turns it has
    appended to the history are the assistant turn of the calls and one tool
    turn for each call, none of them for the content. The round completes
    when no entry of the array is [null] or [undefined], every name has a
    string form, and every tool of the registry fails, if it fails, in a
    way the loop can report. *)
Theorem tool_calls_take_precedence i props l a :
  or_ (or_ (assoc (js "toolCalls") props) (assoc (js "tool_calls") props)) (VArr []) = VArr l ->
  l <> [] ->
  handle env i (VObj props) a = handle env i (VObj [prop "toolCalls" (VArr l)]) a /\
  messages (handle env i (VObj props) a).2 = messages a /\
  (handle env i (VObj props) a).1 <> Normal Return /\
  (forall r a',
     handle env i (VObj props) a = (Normal r, a') ->
     r = Continue /\
     exists ncs texts,
       length texts = length ncs /\
       history a' = history a ++ assistant_calls ncs :: zip_with tool_turn ncs texts) /\
  (Forall (fun c => readable c = true) l ->
   (forall n fn, registry a !! n = Some fn -> reportable fn) ->
   (handle env i (VObj props) a).1 = Normal Continue).
Proof.
  intros Htc Hl.
  rewrite (handle_tool_calls world env i props l a Htc Hl).
  rewrite (handle_tool_calls world env i [prop "toolCalls" (VArr l)] l a eq_refl Hl).
  split; [reflexivity|]. split; [apply preserves_act_messages|].
  split; [apply goes_on_act|]. split.
  - intros r a' H. split.
    + pose proof (goes_on_act world env i l a) as Hg. rewrite H in Hg. cbn [fst] in Hg.
      destruct r; [reflexivity | congruence].
    + exact (act_turns world env i l a r a' H).
  - intros Hr Hreg. exact (act_completes (registry a) Hreg i l a Hr eq_refl).
Qed.

(** *** Tools that fail *)

(** What the [catch] of line 153 makes of a failure: the timeout of
    [runWithTimeout], or the message of what the tool threw. *)
Lemma registry_get_string (a : agent) n fn :
  registry_get a n = Some fn -> exists s, n = VStr s.
Proof. destruct n; try discriminate. eauto. Qed.

Lemma execute_failed (fn : tool_function world) c (a : agent) o w' reason :
  printable (name c) = true ->
  implementation fn (args c) (w a) = (o, w') ->
  (o = Pending /\
   reason = js "tool timeout after " ++ of_N (toolTimeoutMs a) ++ js "ms") \/
  (exists e, o = Rejected e /\ nullish e = false /\
             printable (getq e (js "message")) = true /\
             reason = to_string (getq e (js "message"))) ->
  execute fn c a =
  (Normal (∅, HStr (js "Tool '" ++ to_string (name c) ++ js "' failed: " ++ reason)),
   set_world w' a).
Proof.
  intros Hname Himpl Ho. unfold execute, mbind, read, lift, ToString.
  rewrite Himpl, Hname.
  destruct Ho as [(-> & ->)|(e & -> & He & Hm & ->)].
  - reflexivity.
  - rewrite (get_getq e) by exact He. rewrite Hm. reflexivity.
Qed.

(** X10. A tool that fails does not end the run. When the promise of a
    registered tool is still pending at the timeout, or is rejected with
    a value other than [null] and [undefined] whose message has a string
    form, the dispatch completes and appends exactly one tool turn, whose
    text says that the tool failed and why: the timeout with its
    milliseconds, or the message of what was thrown. *)
Theorem tool_failure_is_observed (fn : tool_function world) c (a : agent) o w' reason :
  registry_get a (name c) = Some fn ->
  implementation fn (args c) (w a) = (o, w') ->
  (o = Pending /\
   reason = js "tool timeout after " ++ of_N (toolTimeoutMs a) ++ js "ms") \/
  (exists e, o = Rejected e /\ nullish e = false /\
             printable (getq e (js "message")) = true /\
             reason = to_string (getq e (js "message"))) ->
  exists a',
    dispatch env c a = (Normal tt, a') /\
    history a' =
      history a ++
      [tool_turn c
         (escAndTrunc (obsTruncateChars a)
            (Some (js "Tool '" ++ to_string (name c) ++ js "' failed: " ++ reason)))] /\
    messages a' = messages a /\ w a' = w'.
Proof.
  intros Hfn Himpl Ho.
  destruct (registry_get_string a _ _ Hfn) as (n & Hn).
  assert (Hname : printable (name c) = true) by (rewrite Hn; reflexivity).
  unfold dispatch. unfold mbind at 1. unfold read at 1.
  rewrite Hfn. unfold mbind at 1. unfold lift at 1, ToString at 1. rewrite Hname.
  unfold mbind at 1. unfold onThought at 1, modify at 1.
  unfold mbind at 1.
  match goal with |- context [execute fn c ?a1] =>
    rewrite (execute_failed fn c a1 o w' reason Hname Himpl Ho) end.
  eexists. split; [reflexivity|]. repeat split.
Qed.

(** X11. A tool that rejects with [null] or [undefined] does end the run:
    reading the message of what was thrown throws a TypeError inside the
    [catch], the dispatch throws it on, no tool turn is appended, and the
    calls after it are not dispatched. *)
Theorem nullish_rejection_escapes (fn : tool_function world) c (a : agent) e w' :
  registry_get a (name c) = Some fn ->
  implementation fn (args c) (w a) = (Rejected e, w') ->
  nullish e = true ->
  forall rest,
    (for_each (dispatch env) (c :: rest) a).1 = Throw TypeError /\
    history (for_each (dispatch env) (c :: rest) a).2 = history a.
Proof.
  intros Hfn Himpl He rest. cbn [for_each].
  assert (Hd : exists a', dispatch env c a = (Throw TypeError, a') /\ history a' = history a).
  { destruct (registry_get_string a _ _ Hfn) as (n & Hn).
    unfold dispatch. unfold mbind at 1. unfold read at 1. rewrite Hfn.
    unfold mbind at 1. unfold lift at 1, ToString at 1. rewrite Hn. cbn [printable].
    unfold mbind at 1. unfold onThought at 1, modify at 1.
    unfold mbind at 1. unfold execute, mbind, read. cbn [w set_thoughts].
    rewrite Himpl. unfold lift, ToString. rewrite Hn. cbn [printable].
    destruct e; try discriminate; eexists; split; reflexivity. }
  destruct Hd as (a1 & Hd & Hh). unfold mbind at 1 2. rewrite Hd.
  split; [reflexivity | exact Hh].
Qed.


(** *** The shape of the turns *)

Section Turns.

Variable P : value -> Prop.
Hypothesis P_calls : forall ncs, P (assistant_calls ncs).
Hypothesis P_tool : forall c text, P (tool_turn c text).
Hypothesis P_content : forall content, P (content_turn content).
Hypothesis P_replanning : P replanning_turn.

Local Abbreviation all_P := (fun a : agent => Forall P (history a)).

Lemma all_quiet {A} (c : M A) : preserves history c -> Agent.keeps all_P c.
Proof. intros Hc a Ha. cbv beta. rewrite Hc. exact Ha. Qed.

Lemma all_push t : P t -> Agent.keeps all_P (push t).
Proof.
  intros Ht a Ha. cbv beta.
  change (history (push t a).2) with (history a ++ [t]).
  apply Forall_app. split; [exact Ha | repeat constructor; exact Ht].
Qed.

Lemma all_dispatch c : Agent.keeps all_P (dispatch env c).
Proof.
  unfold dispatch.
  apply keeps_bind; [apply keeps_read|intros [fn|]];
    (apply keeps_bind; [apply keeps_lift|intros n]).
  - apply keeps_bind; [apply all_quiet, preserves_onThought, quiet_history|intros _].
    apply keeps_bind; [apply all_quiet, preserves_execute, quiet_history|intros r].
    apply keeps_bind; [apply keeps_read|intros limit].
    apply keeps_bind; [apply all_quiet, preserves_onThought, quiet_history|intros _].
    apply all_push, P_tool.
  - apply keeps_bind; [apply all_quiet, preserves_onThought, quiet_history|intros _].
    apply all_push, P_tool.
Qed.

Lemma all_handle i step : Agent.keeps all_P (handle env i step).
Proof.
  unfold handle.
  do 5 (apply keeps_bind; [apply keeps_lift|intros ?]).
  apply keeps_bind; [destruct (truthy _); [apply keeps_lift | apply keeps_ret]|intros [|]].
  - apply keeps_bind; [apply keeps_lift|intros n].
    apply keeps_bind; [apply all_quiet, preserves_onThought, quiet_history|intros _].
    destruct (or_ _ _); try apply keeps_lift.
    apply keeps_bind; [apply all_quiet, preserves_map_idx, quiet_history|intros mapped].
    apply keeps_bind; [apply all_push, P_calls|intros _].
    apply keeps_bind; [|intros _; apply keeps_ret].
    apply keeps_for_each. intros c _. apply all_dispatch.
  - match goal with |- context [match ?c with _ => _ end] => destruct c as [| | | |[|c cs]| |] end;
      try (apply keeps_bind; [apply all_quiet, preserves_onThought, quiet_history|intros _];
           apply keeps_bind; [apply all_push, P_replanning|intros _];
           apply keeps_ret).
    apply keeps_bind; [apply keeps_lift|intros reason].
    apply keeps_bind; [apply all_quiet, preserves_onThought, quiet_history|intros _].
    apply keeps_bind; [apply all_quiet; intros a; reflexivity|intros _].
    apply keeps_bind; [apply all_push, P_content|intros _].
    apply keeps_bind; [apply keeps_lift|intros fin].
    destruct fin; apply keeps_ret.
Qed.

Lemma all_rounds n : forall i, Agent.keeps all_P (rounds env n i).
Proof.
  induction n as [|n IH]; intros i; cbn [rounds].
  - apply all_quiet. intros a. reflexivity.
  - apply keeps_bind.
    + unfold round. apply keeps_bind; [apply all_quiet, preserves_plan, quiet_history|].
      intros step. apply all_handle.
    + intros [|]; [apply IH | apply keeps_ret].
Qed.

End Turns.

(** X12. However the run ends, its history holds turns of five shapes only:
    the user turn, first; an assistant turn with tool calls and an empty
    content; a tool turn that answers a call; an assistant turn with a
    content; and the replanning turn. So every turn is an object with a
    role and a string as content. *)
Theorem run_history_shapes userInput a :
  Forall run_turn (history (run env userInput a).2) /\
  Forall (fun t => nullish t = false /\ is_string (getq t (js "content")) = true /\
                   turn_role t ∈ [js "user"; js "assistant"; js "tool"])
         (history (run env userInput a).2).
Proof.
  set (a0 := set_messages (fun l => l ++ [(js "user", userInput)])
               (set_history (fun _ => [user_turn userInput]) a)).
  change (run env userInput a) with (rounds env (maxTurns a0) 0 a0).
  assert (Hshapes : Forall run_turn (history (rounds env (maxTurns a0) 0 a0).2)).
  { apply (all_rounds run_turn).
    - intros ncs. right; left. eauto.
    - intros c text. right; right; left. eauto.
    - intros content. right; right; right; left. eauto.
    - right; right; right; right. reflexivity.
    - constructor; [left; eauto | constructor]. }
  split; [exact Hshapes|].
  eapply Forall_impl; [exact Hshapes|].
  intros t [(u & ->)|[(ncs & ->)|[(c & text & ->)|[(s & ->)| ->]]]];
    (split; [reflexivity|]); (split; [reflexivity|]);
    cbv [turn_role user_turn assistant_calls tool_turn content_turn replanning_turn];
    rewrite ?elem_of_cons; auto.
Qed.

End AgentMore.

(** ** The parser: plain texts, fences and embedded answers *)

Section ParserMore.

Context {NO : NumberOps}.

(** *** Texts that are not an object *)

Lemma skip_ws_suffix s : JSON.skip_ws s `suffix_of` s.
Proof.
  induction s as [|c s IH]; cbn [JSON.skip_ws]; [reflexivity|].
  destruct (JSON.is_ws c); [apply suffix_cons_r, IH | reflexivity].
Qed.

Lemma skip_ws_head s c s1 : JSON.skip_ws s = c :: s1 -> c ∈ s.
Proof.
  intros H. destruct (skip_ws_suffix s) as (k & Hk). rewrite H in Hk.
  rewrite Hk. apply elem_of_app. right. left.
Qed.

Lemma parse_elements_array f : forall s acc v r,
  JSON.parse_elements f s acc = Some (v, r) -> exists l, v = VArr l.
Proof.
  induction f as [|f IH]; intros s acc v r H; [discriminate|].
  cbn [JSON.parse_elements] in H.
  destruct (JSON.parse_value f s) as [[x s1]|]; [|discriminate].
  destruct (JSON.skip_ws s1) as [|c s2]; [discriminate|].
  destruct (c =? 44); [eapply IH, H|].
  destruct (c =? 93); [|discriminate]. injection H as <- <-. eauto.
Qed.

Lemma parse_value_plain f s v r :
  123 ∉ s -> 34 ∉ s ->
  JSON.parse_value f s = Some (v, r) -> scalar_or_array v.
Proof.
  intros Hb Hq H. destruct f as [|f]; [discriminate|].
  cbn [JSON.parse_value] in H.
  destruct (JSON.skip_ws s) as [|c s1] eqn:E; [discriminate|].
  apply skip_ws_head in E.
  destruct (c =? 123) eqn:E1; [apply N.eqb_eq in E1; subst c; contradiction|].
  destruct (c =? 91).
  { destruct (JSON.skip_ws s1) as [|c2 s2]; [discriminate|].
    destruct (c2 =? 93); [injection H as <- <-; exact I|].
    apply parse_elements_array in H as (l & ->). exact I. }
  destruct (c =? 34) eqn:E2; [apply N.eqb_eq in E2; subst c; contradiction|].
  destruct (isPrefixOf _ _); [injection H as <- <-; exact I|].
  destruct (isPrefixOf _ _); [injection H as <- <-; exact I|].
  destruct (isPrefixOf _ _); [injection H as <- <-; exact I|].
  destruct (JSON.parse_number _) as [[tok r']|]; [|discriminate].
  injection H as <- <-. exact I.
Qed.

Lemma parse_plain s v :
  123 ∉ s -> 34 ∉ s -> JSON.parse s = Normal v -> scalar_or_array v.
Proof.
  intros Hb Hq. unfold JSON.parse.
  destruct (JSON.parse_value _ s) as [[x r]|] eqn:E; [|discriminate].
  destruct (JSON.skip_ws r); [|discriminate].
  intros H. injection H as <-. eapply parse_value_plain; eassumption.
Qed.

(** The strict parse gives nothing for a text whose value is neither an
    object nor a string. *)
Lemma strict_plain now s :
  (forall v, JSON.parse s = Normal v -> scalar_or_array v) ->
  try_catch (strict now s) (Normal None) = Normal None.
Proof.
  intros Hs. unfold strict.
  destruct (JSON.parse s) as [v|e] eqn:E; [|reflexivity].
  specialize (Hs v eq_refl). destruct v; try contradiction; reflexivity.
Qed.

(** A pattern that begins with a character the text does not have matches
    nowhere. *)
Lemma exec_from_head_none c r s : forall i,
  c ∉ s -> exec_from (Seq (lit c) r) s i = None.
Proof.
  induction s as [|x s IH]; intros i Hc; cbn [exec_from].
  - reflexivity.
  - unfold match_at, lit. cbn [m rest].
    replace (c =? x) with false
      by (symmetry; apply N.eqb_neq; intros ->; apply Hc; left).
    apply IH. intros H. apply Hc. right. exact H.
Qed.

Lemma trim_sublist text c : c ∈ trim text -> c ∈ text.
Proof.
  intros H. destruct (trim_spec text) as (sp1 & sp2 & Hs & _).
  rewrite Hs. rewrite !elem_of_app. auto.
Qed.

(** X13. A text without a brace and without a double quote, and without two
    runs of three backticks, is content: [tryParseToolCall] returns it
    trimmed, with the stopReason [continue]; a text of white space only is
    returned as it is. *)
Theorem plain_text_is_content (now : N) (text : jsstring) :
  123 ∉ text -> 34 ∉ text -> (fence_count text < 2)%nat ->
  tryParseToolCall now text =
  Normal (decision VNull
            (VStr (match trim text with [] => text | _ :: _ => trim text end))
            "continue").
Proof.
  intros Hb Hq Hf. unfold tryParseToolCall, attempts.
  rewrite cleaned_no_fence by exact Hf.
  assert (Hb' : 123 ∉ trim text) by (intros H; apply Hb, trim_sublist, H).
  assert (Hq' : 34 ∉ trim text) by (intros H; apply Hq, trim_sublist, H).
  rewrite strict_plain by (intros v; apply parse_plain; assumption).
  cbn [bind].
  unfold match_, exec.
  change final_re with (Seq (lit 123) (seqs [ws; lit 34; word lit (js "final"); lit 34; ws;
                          lit 58; ws; lit 34; Group 1 (Star false any); lit 34; ws; lit 125])).
  rewrite exec_from_head_none by exact Hb'.
  unfold heuristic_tool, match_, exec.
  unfold tool_re. cbn [seqs foldr]. rewrite exec_from_head_none by exact Hb'.
  cbn [bind]. destruct (trim text); reflexivity.
Qed.

(** *** A text that is a JSON string *)

Lemma trim_ends c d s :
  is_space c = false -> is_space d = false -> trim (c :: s ++ [d]) = c :: s ++ [d].
Proof.
  intros Hc Hd. unfold trim, trimEnd. cbn [trimStart]. rewrite Hc.
  change (c :: s ++ [d]) with ((c :: s) ++ [d]).
  rewrite rev_app_distr. cbn [rev app trimStart]. rewrite Hd.
  change (d :: rev s ++ [c]) with ([d] ++ rev ((c :: s))).
  rewrite rev_app_distr, rev_involutive. reflexivity.
Qed.

Lemma fence_count_quote X : fence_count (JSON.quote X) = fence_count X.
Proof.
  unfold fence_count, JSON.quote.
  change (34 :: JSON.quote_body X ++ [34]) with ([34] ++ JSON.quote_body X ++ [34]).
  rewrite fences_block by (try discriminate; intros H; apply list_elem_of_singleton in H; discriminate).
  destruct (fences_quote_body X) as (Hq & _). rewrite Hq.
  apply fences_app_no_tick. intros H. apply list_elem_of_singleton in H. discriminate.
Qed.

Lemma parse_quote X : JSON.parse (JSON.quote X) = Normal (VStr X).
Proof.
  unfold JSON.parse, JSON.quote.
  destruct (parse_chars_quote_body X) as (Hp & _).
  cbn [Nat.add].
  change (JSON.quote_body X ++ [34]) with (JSON.quote_body X ++ 34 :: []).
  rewrite (parse_value_string _ _ X [] (Hp [])). reflexivity.
Qed.

(** X14. A text that is one JSON string is content: for a string [X] that
    is not white space only, [tryParseToolCall] applied to [X] written as
    a JSON string returns [X], decoded and trimmed, with the stopReason
    [continue]. *)
Theorem json_string_is_content (now : N) (X : jsstring) :
  (fence_count X < 2)%nat -> trim X <> [] ->
  tryParseToolCall now (JSON.quote X) =
  Normal (decision VNull (VStr (trim X)) "continue").
Proof.
  intros Hf Hx. unfold tryParseToolCall, attempts.
  rewrite cleaned_no_fence by (rewrite fence_count_quote; exact Hf).
  unfold JSON.quote at 1. rewrite trim_ends by reflexivity.
  fold (JSON.quote X). unfold strict. rewrite parse_quote.
  cbn [bind get]. destruct (trim X) as [|c t]; [congruence|]. reflexivity.
Qed.

End ParserMore.

Section ParserFences.

Context {NO : NumberOps}.

Ltac same_state Hk :=
  first [ exact Hk
        | rewrite <- Hk; reflexivity
        | rewrite <- Hk; f_equal; f_equal; lia
        | rewrite <- Hk; f_equal; f_equal; cbn; lia ].

(** *** A fence around the whole text *)

Lemma closing_fence_then sp2 post p cs k x :
  Forall (fun c => is_space c = true) sp2 ->
  k (MState post (p + length sp2 + 3) cs) = Some x ->
  m (seqs [ws; backticks]) (MState (sp2 ++ js "```" ++ post) p cs) k = Some x.
Proof.
  intros Hsp2 Hk. cbn [seqs foldr]. rewrite m_seq, m_ws.
  apply greedy_ws_all; [assumption | reflexivity | rewrite length_app; lia |].
  rewrite m_seq, m_backticks, isPrefixOf_app.
  rewrite (drop_app_length (js "```")). cbn [m].
  same_state Hk.
Qed.

Lemma fence_tail_then body post p cs k x :
  96 ∉ body ->
  k (MState post (p + length body + 3) ((1%nat, trim body) :: cs)) = Some x ->
  m fence_tail (MState (body ++ js "```" ++ post) p cs) k = Some x.
Proof.
  intros Hb Hk.
  destruct (trim_spec body) as (sp1 & sp2 & Hs & Hsp1 & Hsp2 & Hstart & Hcore).
  assert (Hlen : length body = (length sp1 + length (trim body) + length sp2)%nat).
  { rewrite Hs at 1. rewrite !length_app. lia. }
  rewrite Hlen in Hk. remember (trim body) as core eqn:Ec. clear Ec Hlen. subst body.
  unfold fence_tail. cbn [seqs foldr]. rewrite <- !app_assoc.
  rewrite m_seq, m_ws.
  apply greedy_ws_all; [assumption | | rewrite length_app; lia |].
  { destruct core as [|c core]; [|exact Hstart].
    destruct sp2 as [|c sp2]; [reflexivity | exact Hstart]. }
  rewrite m_seq. cbn [m].
  apply lazy_any_first.
  - intros j Hj.
    change (m (Seq ws (Seq backticks Eps)) ?st k)
      with (m ws st (fun st2 => m backticks st2 (fun st3 => m Eps st3 k))).
    unfold capture. cbn [rest pos caps].
    rewrite m_ws. apply ws_ticks_none.
    destruct Hcore as [->|(core0 & z & -> & Hz)]; [simpl in Hj; lia|].
    rewrite length_app in Hj. simpl in Hj.
    rewrite <- !app_assoc. rewrite drop_app_le by lia.
    cbn [app].
    match goal with
    | |- context [trimStart (_ ++ z :: ?t)] =>
        destruct (trimStart_head (drop j core0) z t Hz) as (c & r & Hc & Hin)
    end.
    rewrite Hc. apply ticks_head_false.
    intros ->. apply Hb.
    rewrite !elem_of_app. right. left.
    destruct Hin as [Hin| <-]; [left | right; left].
    apply (subseteq_drop j core0), Hin.
  - cbn [rest]. rewrite !length_app. lia.
  - unfold capture. cbn [rest pos caps].
    replace (p + length sp1 + length core - (p + length sp1))%nat
      with (length core) by lia.
    rewrite take_app_length.
    apply (closing_fence_then sp2 post _ _ _ _ Hsp2).
    same_state Hk.
Qed.

Lemma fence_then tag body post i k x :
  96 ∉ body -> tag_ok tag body ->
  k (MState post (i + 3 + length tag + length body + 3) [(1%nat, trim body)]) = Some x ->
  m fence (MState (js "```" ++ tag ++ body ++ js "```" ++ post) i []) k = Some x.
Proof.
  intros Hb Htag Hk. unfold fence. cbn [seqs foldr].
  rewrite m_seq, m_backticks, isPrefixOf_app.
  rewrite (drop_app_length (js "```")).
  rewrite m_seq, m_opt.
  change (foldr Seq Eps [ws; Group 1 (Star false any); ws; backticks]) with fence_tail.
  change (word lit_i) with (word (lit_by (fun c x => upper x =? upper c))).
  rewrite m_word.
  destruct Htag as [(-> & Ht)|(Ht & Hl)].
  - unfold json_tagged in Ht. cbn [app].
    rewrite (prefix_by_app_false _ _ 96 body (js "``" ++ post)); [|repeat constructor|exact Ht].
    change (body ++ 96 :: js "``" ++ post) with (body ++ js "```" ++ post).
    apply fence_tail_then; [assumption|].
    same_state Hk.
  - unfold json_tagged in Ht. rewrite (prefix_by_app_true _ _ _ _ Ht).
    rewrite (drop_app_length' tag) by (rewrite Hl; reflexivity).
    rewrite (fence_tail_then body post _ _ k x Hb); [reflexivity|].
    rewrite Hl in *. same_state Hk.
Qed.

Lemma exec_from_bol_none r s : forall i, exec_from (Seq Bol r) s (S i) = None.
Proof.
  induction s as [|c s IH]; intros i; cbn [exec_from]; unfold match_at.
  - reflexivity.
  - change (m (Seq Bol r) (MState (c :: s) (S i) []) Some) with (@None mstate).
    apply IH.
Qed.

Lemma exec_fence_whole s :
  exec fence_whole s =
  match m fence (MState s 0 []) (fun st => m (Seq Eol Eps) st Some) with
  | Some st => Some (MResult 0 (pos st) (caps st))
  | None => None
  end.
Proof.
  unfold exec, fence_whole. cbn [seqs foldr].
  destruct s as [|c s]; cbn [exec_from]; unfold match_at;
    change (m (Seq Bol (Seq fence (Seq Eol Eps))) ?st Some)
      with (m fence st (fun st1 => m (Seq Eol Eps) st1 Some)).
  - destruct (m fence _ _); reflexivity.
  - destruct (m fence _ _); [reflexivity|]. apply exec_from_bol_none.
Qed.

(** A fence around the whole text is replaced by its body. *)
Lemma replace_fence_whole tag body :
  96 ∉ body -> tag_ok tag body ->
  replace fence_whole [RCap 1] (js "```" ++ tag ++ body ++ js "```") = trim body.
Proof.
  intros Hb Ht. unfold replace. rewrite exec_fence_whole.
  pose proof (fence_then tag body [] 0 (fun st => m (Seq Eol Eps) st Some)
                (MState [] (0 + 3 + length tag + length body + 3) [(1%nat, trim body)])
                Hb Ht eq_refl) as H.
  rewrite app_nil_r in H. rewrite H. cbn [m_start m_end pos caps take].
  rewrite drop_ge by (rewrite !length_app; cbn; lia).
  unfold expand, cap. cbn [m_caps map filter]. simpl concat.
  rewrite !app_nil_r. reflexivity.
Qed.

(** A text without a backtick has no fence. *)
Lemma replace_fence_whole_none s :
  96 ∉ s -> replace fence_whole [RCap 1] s = s.
Proof.
  intros Hs. unfold replace. rewrite exec_fence_whole.
  destruct (m fence _ _) eqn:E; [|reflexivity].
  apply fence_match_inv in E as (a & b & ->).
  exfalso. apply Hs. left.
Qed.

Lemma trimStart_blank sp t :
  blank sp -> trimStart (sp ++ t) = trimStart t.
Proof.
  induction 1 as [|c sp Hc _ IH]; [reflexivity|].
  cbn [app trimStart]. rewrite Hc. exact IH.
Qed.

Lemma trimStart_nonspace c t : is_space c = false -> trimStart (c :: t) = c :: t.
Proof. intros H. cbn [trimStart]. rewrite H. reflexivity. Qed.

Lemma blank_rev sp : blank sp -> blank (rev sp).
Proof. apply Forall_rev. Qed.

(** White space around a text that begins and ends with other characters
    is what [trim] removes. *)
Lemma trim_padded sp1 c core d sp2 :
  blank sp1 -> blank sp2 -> is_space c = false -> is_space d = false ->
  trim (sp1 ++ (c :: core ++ [d]) ++ sp2) = c :: core ++ [d].
Proof.
  intros H1 H2 Hc Hd. unfold trim, trimEnd.
  rewrite trimStart_blank by exact H1.
  cbn [app]. rewrite trimStart_nonspace by exact Hc.
  change (c :: (core ++ [d]) ++ sp2) with ((c :: core ++ [d]) ++ sp2).
  rewrite rev_app_distr.
  rewrite trimStart_blank by (apply blank_rev, H2).
  change (c :: core ++ [d]) with ((c :: core) ++ [d]).
  rewrite rev_app_distr. cbn [rev app].
  rewrite trimStart_nonspace by exact Hd.
  change (d :: rev core ++ [c]) with ([d] ++ rev (c :: core)).
  rewrite rev_app_distr, rev_involutive. reflexivity.
Qed.

Lemma trim_idempotent s : trim (trim s) = trim s.
Proof.
  destruct (trim_spec s) as (sp1 & sp2 & _ & _ & _ & _ & Hcore).
  destruct Hcore as [->|(core & z & Hs & Hz)]; [reflexivity|].
  rewrite Hs. destruct core as [|c core].
  - cbn [app]. unfold trim, trimEnd. cbn [trimStart]. rewrite Hz. cbn [rev app trimStart].
    rewrite Hz. reflexivity.
  - assert (Hc : is_space c = false).
    { destruct (trim_spec s) as (a & b & _ & _ & _ & Hstart & _).
      rewrite Hs in Hstart. exact Hstart. }
    pose proof (trim_padded [] c core z [] (List.Forall_nil _) (List.Forall_nil _) Hc Hz) as H.
    cbn [app] in H. rewrite app_nil_r in H. exact H.
Qed.

Lemma unfenced_fenced sp1 tag body sp2 :
  blank sp1 -> blank sp2 -> 96 ∉ body -> tag_ok tag body ->
  unfenced (sp1 ++ js "```" ++ tag ++ body ++ js "```" ++ sp2) = trim body.
Proof.
  intros H1 H2 Hb Ht. unfold unfenced.
  assert (Htrim : trim (sp1 ++ js "```" ++ tag ++ body ++ js "```" ++ sp2) =
                  js "```" ++ tag ++ body ++ js "```").
  { pose proof (trim_padded sp1 96 (js "``" ++ tag ++ body ++ js "``") 96 sp2
                  H1 H2 eq_refl eq_refl) as H.
    replace (sp1 ++ js "```" ++ tag ++ body ++ js "```" ++ sp2)
      with (sp1 ++ (96 :: (js "``" ++ tag ++ body ++ js "``") ++ [96]) ++ sp2)
      by (cbn [app]; rewrite <- !app_assoc; reflexivity).
    rewrite H. cbn [app]. rewrite <- !app_assoc. reflexivity. }
  rewrite Htrim, replace_fence_whole by assumption.
  apply trim_idempotent.
Qed.

Lemma unfenced_plain body : 96 ∉ body -> unfenced body = trim body.
Proof.
  intros Hb. unfold unfenced. rewrite replace_fence_whole_none.
  - apply trim_idempotent.
  - intros H. apply Hb. destruct (trim_spec body) as (a & b & Hs & _).
    rewrite Hs, !elem_of_app. auto.
Qed.

(** X15. [robustParseArgs] on an argument text: a text without a backtick
    is trimmed and parsed once, and a text that does not parse gives the
    empty object, so that the second parse of line 39 never gives a value;
    and the same text inside a fence that encloses it all, with white space
    around, gives the same result. *)
Theorem robustParseArgs_parses_once (sp1 tag body sp2 : jsstring) :
  blank sp1 -> blank sp2 -> 96 ∉ body -> tag_ok tag body ->
  robustParseArgs (VStr body) =
    Normal (match JSON.parse (trim body) with
            | Normal x => x
            | Throw _ => VObj []
            end) /\
  robustParseArgs (VStr (sp1 ++ js "```" ++ tag ++ body ++ js "```" ++ sp2)) =
    robustParseArgs (VStr body).
Proof.
  intros H1 H2 Hb Ht.
  assert (Hr : forall v, robustParseArgs (VStr v) =
                         Normal (match JSON.parse (unfenced v) with
                                 | Normal x => x
                                 | Throw _ => VObj []
                                 end)).
  { intros v. unfold robustParseArgs. cbn [nullish typeof_object].
    fold (unfenced v). destruct (JSON.parse (unfenced v)); reflexivity. }
  rewrite !Hr, unfenced_fenced, unfenced_plain by assumption. split; reflexivity.
Qed.


(** *** A final answer among other text *)

Lemma m_lit_head c s i cs k :
  m (lit c) (MState (c :: s) i cs) k = k (MState s (S i) cs).
Proof. unfold lit. cbn [m rest pos caps]. rewrite N.eqb_refl. reflexivity. Qed.

Lemma m_lit_other c d s i cs k :
  c <> d -> m (lit c) (MState (d :: s) i cs) k = None.
Proof.
  intros H. unfold lit. cbn [m rest].
  replace (c =? d) with false by (symmetry; apply N.eqb_neq, H). reflexivity.
Qed.

Lemma m_ws_none t p cs k x :
  starts_nonspace t -> k (MState t p cs) = Some x -> m ws (MState t p cs) k = Some x.
Proof.
  intros Ht Hk. rewrite m_ws.
  apply (greedy_ws_all [] t p cs k x); [constructor | exact Ht | cbn; lia |].
  cbn [length]. rewrite Nat.add_0_r. exact Hk.
Qed.

Lemma exec_from_skip_head c r pre : forall s i,
  c ∉ pre ->
  exec_from (Seq (lit c) r) (pre ++ s) i = exec_from (Seq (lit c) r) s (i + length pre).
Proof.
  induction pre as [|x pre IH]; intros s i Hc; cbn [app].
  - rewrite Nat.add_0_r. reflexivity.
  - cbn [exec_from]. unfold match_at. rewrite m_seq.
    rewrite m_lit_other by (intros ->; apply Hc; left).
    rewrite IH by (intros H; apply Hc; right; exact H).
    cbn [length]. f_equal. lia.
Qed.

(** The pattern of line 95 at the object of a final answer whose text has
    no double quote. *)
Lemma final_re_match X post i :
  34 ∉ X ->
  match_at final_re (jsq "{'final':'" ++ X ++ jsq "'}" ++ post) i =
  Some (MResult i (i + 10 + length X + 2) [(1%nat, X)]).
Proof.
  intros HX. unfold match_at.
  assert (H : m final_re (MState (jsq "{'final':'" ++ X ++ jsq "'}" ++ post) i []) Some =
              Some (MState post (i + 10 + length X + 2) [(1%nat, X)]));
    [|rewrite H; reflexivity].
  unfold final_re. cbn [seqs foldr].
  change (jsq "{'final':'" ++ X ++ jsq "'}" ++ post)
    with (123 :: 34 :: js "final" ++ 34 :: 58 :: 34 :: X ++ 34 :: 125 :: post).
  rewrite m_seq, m_lit_head.
  rewrite m_seq. apply m_ws_none; [reflexivity|].
  rewrite m_seq, m_lit_head.
  rewrite m_seq. change (word lit) with (word (lit_by N.eqb)).
  rewrite m_word, prefix_by_eqb, isPrefixOf_app.
  rewrite (drop_app_length (js "final")).
  rewrite m_seq, m_lit_head.
  rewrite m_seq. apply m_ws_none; [reflexivity|].
  rewrite m_seq, m_lit_head.
  rewrite m_seq. apply m_ws_none; [reflexivity|].
  rewrite m_seq, m_lit_head.
  rewrite m_seq. cbn [m].
  apply lazy_any_first.
  - intros j Hj. unfold capture. cbn [rest pos caps].
    destruct (drop j (X ++ 34 :: 125 :: post)) as [|d t] eqn:E.
    + reflexivity.
    + apply m_lit_other. intros <-. apply HX.
      assert (Hd : (X ++ 34 :: 125 :: post) !! j = Some 34).
      { rewrite <- (Nat.add_0_r j), <- lookup_drop, E. reflexivity. }
      rewrite lookup_app_l in Hd by exact Hj.
      eapply list_elem_of_lookup_2, Hd.
  - cbn [rest length]. rewrite length_app. lia.
  - unfold capture. cbn [rest pos caps].
    rewrite m_lit_head. apply m_ws_none; [reflexivity|].
    rewrite m_lit_head.
    change (length (js "final")) with 5%nat.
    f_equal. f_equal; [lia|].
    f_equal. f_equal.
    match goal with |- take (?a - ?b) _ = _ => replace (a - b)%nat with (length X) by lia end.
    apply take_app_length.
Qed.

Lemma trimStart_nonspace_app pre c t :
  is_space c = false -> trimStart (pre ++ c :: t) = trimStart pre ++ c :: t.
Proof.
  intros Hc. induction pre as [|x pre IH]; cbn [app trimStart].
  - rewrite Hc. reflexivity.
  - destruct (is_space x); [exact IH | reflexivity].
Qed.

Lemma trimStart_sublist s c : c ∈ trimStart s -> c ∈ s.
Proof.
  induction s as [|x s IH]; cbn [trimStart]; [auto|].
  destruct (is_space x); [|auto]. intros H. right. apply IH, H.
Qed.

(** The trimmed text still has the object, after a text without a brace. *)
Lemma trim_with_final pre X post :
  123 ∉ pre ->
  exists pre' post',
    (123 ∉ pre') /\
    trim (with_final pre X post) = with_final pre' X post'.
Proof.
  intros Hp.
  assert (Hshape : forall a b,
            with_final a X b =
            a ++ 123 :: (34 :: js "final" ++ 34 :: 58 :: 34 :: X ++ [34]) ++ 125 :: b).
  { intros a b. unfold with_final.
    change (jsq "{'final':'") with [123; 34; 102; 105; 110; 97; 108; 34; 58; 34].
    change (jsq "'}") with [34; 125].
    change (js "final") with [102; 105; 110; 97; 108].
    cbn [app]. rewrite <- app_assoc. reflexivity. }
  exists (trimStart pre), (rev (trimStart (rev post))).
  split; [intros H; apply Hp, trimStart_sublist, H|].
  rewrite !Hshape. unfold trim, trimEnd.
  set (inner := 34 :: js "final" ++ 34 :: 58 :: 34 :: X ++ [34]).
  rewrite trimStart_nonspace_app by reflexivity.
  replace (trimStart pre ++ 123 :: inner ++ 125 :: post)
    with ((trimStart pre ++ 123 :: inner) ++ 125 :: post)
    by (rewrite <- app_assoc; reflexivity).
  rewrite rev_app_distr. cbn [rev]. rewrite <- app_assoc. cbn [app].
  rewrite trimStart_nonspace_app by reflexivity.
  rewrite rev_app_distr. cbn [rev]. rewrite rev_involutive.
  rewrite <- !app_assoc. reflexivity.
Qed.

(** X16. A final answer among other text is found by the pattern of line
    95: when the text as a whole is not JSON, holds the object of a final
    answer after a text without a brace, and the answer holds no double
    quote, [tryParseToolCall] returns the answer as it is written there,
    its escapes not decoded, with the stopReason [final]. *)
Theorem embedded_final_is_found (now : N) (pre X post : jsstring) e :
  123 ∉ pre -> 34 ∉ X ->
  (fence_count (with_final pre X post) < 2)%nat ->
  JSON.parse (trim (with_final pre X post)) = Throw e ->
  tryParseToolCall now (with_final pre X post) =
  Normal (decision VNull (VStr X) "final").
Proof.
  intros Hp HX Hf He. unfold tryParseToolCall, attempts.
  rewrite cleaned_no_fence by exact Hf.
  unfold strict. rewrite He. cbn [bind try_catch].
  destruct (trim_with_final pre X post Hp) as (pre' & post' & Hp' & ->).
  unfold match_, exec, with_final.
  change final_re with (Seq (lit 123) (seqs [ws; lit 34; word lit (js "final"); lit 34; ws;
                          lit 58; ws; lit 34; Group 1 (Star false any); lit 34; ws; lit 125])).
  rewrite exec_from_skip_head by exact Hp'.
  change (Seq (lit 123) (seqs [ws; lit 34; word lit (js "final"); lit 34; ws;
                          lit 58; ws; lit 34; Group 1 (Star false any); lit 34; ws; lit 125]))
    with final_re.
  rewrite (exec_from_here _ _ _ _ (final_re_match X post' _ HX)).
  reflexivity.
Qed.

End ParserFences.

(** ** The prompt and the providers *)

Section LlmFacts.

Import Llm.

Context {NO : NumberOps}.
Variable engine_message : site -> jsstring.

(** *** The prompt *)

Lemma tool_description_shapes n d u :
  tool_description engine_message (full_tool n d u) =
  tool_description engine_message (tool_spec n d u).
Proof.
  assert (Hor : forall x dflt : value, or_ (or_ x VUndef) dflt = or_ x dflt).
  { intros x dflt. unfold or_. destruct (truthy x) eqn:E; [rewrite E|]; reflexivity. }
  unfold tool_description, tool_member, full_tool, tool_spec, and_. cbn [truthy getq get].
  change (assoc (js "name") [prop "type" _; prop "function" _]) with (@VUndef NO).
  change (assoc (js "description") [prop "type" _; prop "function" _]) with (@VUndef NO).
  change (assoc (js "usage") [prop "type" _; prop "function" _]) with (@VUndef NO).
  change (assoc (js "function") [prop "type" _; prop "function" ?f]) with f.
  change (assoc (js "function") [prop "name" _; _; _]) with (@VUndef NO).
  cbn [or_ truthy getq get].
  change (assoc (js "name") [prop "name" ?x; _; _]) with x.
  change (assoc (js "description") [prop "name" _; prop "description" ?x; _]) with x.
  change (assoc (js "usage") [prop "name" _; prop "description" _; prop "usage" ?x]) with x.
  fold (or_ n (@VUndef NO)). fold (or_ d (@VUndef NO)). fold (or_ u (@VUndef NO)).
  rewrite !Hor. reflexivity.
Qed.

(** X17. [buildSystemPrompt] reads a tool given as a full tool object and
    the same tool given as a sanitized spec alike: the two lists give the
    same prompt, also where a name, a description or a usage is missing,
    and the same failure where one of them has no string form. *)
Theorem buildSystemPrompt_accepts_both_shapes (ts : list (value * value * value)) :
  buildSystemPrompt engine_message (VArr (map (fun t => full_tool t.1.1 t.1.2 t.2) ts)) =
  buildSystemPrompt engine_message (VArr (map (fun t => tool_spec t.1.1 t.1.2 t.2) ts)).
Proof.
  unfold buildSystemPrompt, tools_or_empty. cbn [truthy rbind].
  replace (map_result (tool_description engine_message)
             (map (fun t => full_tool t.1.1 t.1.2 t.2) ts))
    with (map_result (tool_description engine_message)
            (map (fun t => tool_spec t.1.1 t.1.2 t.2) ts)); [reflexivity|].
  induction ts as [|[[n d] u] ts IH]; [reflexivity|].
  cbn [map map_result fst snd]. rewrite IH, tool_description_shapes. reflexivity.
Qed.


(** *** The providers *)

Lemma tryParseToolCall_decision now text :
  exists d, tryParseToolCall now text = Normal d /\ (is_tool_calls d \/ is_content d).
Proof.
  unfold tryParseToolCall.
  destruct (try_catch_total (attempts now text) None) as (r & Hr).
  rewrite Hr. cbn [bind]. destruct r as [d|].
  - exists d. split; [reflexivity|].
    apply try_catch_Normal in Hr as [Hr|Hr]; [|discriminate].
    eapply attempts_shape, Hr.
  - eexists. split; [reflexivity|]. right. apply content_shape.
Qed.

Lemma provider_error_content name lastErr :
  exists c, c <> [] /\ provider_error name lastErr = decision VNull (VStr c) "continue".
Proof.
  unfold provider_error. eexists. split; [|reflexivity]. discriminate.
Qed.

Section Attempts.

Context {world : Type} (net : network world) (name : string).
Variable request : world -> result jsstring * world.

Lemma attempts_from_decision n : forall attempt lastErr w,
  is_tool_calls (attempts_from engine_message net name request n attempt lastErr w).1 \/
  is_content (attempts_from engine_message net name request n attempt lastErr w).1.
Proof.
  induction n as [|n IH]; intros attempt lastErr w; cbn [attempts_from].
  - right. apply content_shape.
  - destruct (request w) as [[text|e] w1]; [|apply IH].
    destruct (tryParseToolCall_decision (Date_now net w1) text) as (d & -> & Hd).
    exact Hd.
Qed.

(** With every request failing, the decision is the provider error. *)
Lemma attempts_from_down n : forall attempt lastErr w,
  (forall w0, exists m w1, request w0 = (Err m, w1)) ->
  exists c w',
    c <> [] /\
    attempts_from engine_message net name request n attempt lastErr w =
    (decision VNull (VStr c) "continue", w').
Proof.
  induction n as [|n IH]; intros attempt lastErr w Hdown; cbn [attempts_from].
  - destruct (provider_error_content name lastErr) as (c & Hc & ->). eauto.
  - destruct (Hdown w) as (m & w1 & ->). apply IH, Hdown.
Qed.

End Attempts.

Lemma text_of_printable v :
  printable v = true -> text_of engine_message v = Ok (to_string v).
Proof. unfold text_of, ToString. intros ->. reflexivity. Qed.


Lemma tool_description_describable t :
  describable t = true -> exists text, tool_description engine_message t = Ok text.
Proof.
  unfold describable, tool_description. intros H.
  apply andb_prop in H as [H Hu]. apply andb_prop in H as [Hn Hd].
  rewrite (text_of_printable _ Hn). cbn [rbind].
  rewrite (text_of_printable _ Hd). cbn [rbind].
  rewrite (text_of_printable _ Hu). cbn [rbind]. eauto.
Qed.

Lemma map_result_total {A B} (f : A -> result B) (P : A -> Prop) l :
  (forall x, P x -> exists y, f x = Ok y) -> Forall P l ->
  exists ys, map_result f l = Ok ys.
Proof.
  intros Hf. induction 1 as [|x l Hx _ (ys & IH)]; cbn [map_result]; [eauto|].
  destruct (Hf x Hx) as (y & ->). cbn [rbind]. rewrite IH. cbn [rbind]. eauto.
Qed.

Lemma buildSystemPrompt_listed tools :
  listed tools -> exists prompt, buildSystemPrompt engine_message tools = Ok prompt.
Proof.
  unfold buildSystemPrompt, tools_or_empty.
  intros [->|(l & -> & Hl)]; [eexists; reflexivity|].
  cbn [truthy rbind].
  destruct (map_result_total _ _ l tool_description_describable Hl) as (ds & ->).
  cbn [rbind]. eauto.
Qed.

Lemma openai_lines_total history :
  Forall (fun h => quotable h = true) history ->
  exists lines, openai_lines engine_message history = Ok lines.
Proof.
  induction 1 as [|h history Hh _ (lines & IH)]; cbn [openai_lines]; [eauto|].
  unfold quotable in Hh.
  apply andb_prop in Hh as [Hh Hc]. apply andb_prop in Hh as [Hn Hr].
  apply negb_true_iff in Hn.
  unfold openai_line, read_member. rewrite (get_getq h) by exact Hn. cbn [rbind].
  rewrite (text_of_printable _ Hr). cbn [rbind].
  rewrite (text_of_printable _ Hc). cbn [rbind]. rewrite IH. eauto.
Qed.

(** X18. [getCompletion] does not reject, whatever the network does, when
    the tools are an array of tools the prompt can describe, or nothing: a
    Gemini provider resolves to a tool-calls or a content decision for
    every history, and an OpenAI provider for every history whose turns
    are neither [null] nor [undefined] and have a role and a content with
    a string form. *)
Theorem getCompletion_never_rejects {world : Type} (net : network world)
        (p : llm_provider) (history : list value) (tools : value) (w : world) :
  listed tools ->
  (kind p = OpenAi -> Forall (fun h => quotable h = true) history) ->
  exists d w',
    getCompletion engine_message net p history tools w = (Ok d, w') /\
    (is_tool_calls d \/ is_content d).
Proof.
  intros Ht Hh. unfold getCompletion.
  destruct (buildSystemPrompt_listed tools Ht) as (prompt & Hp).
  destruct (kind p).
  - unfold gemini_getCompletion. rewrite Hp.
    pose proof (attempts_from_decision net "Gemini"
                  (requestOnce net "Gemini" (gemini_text engine_message) (apiUrl p)
                     (gemini_init prompt history)) 3 0 None w) as Hd.
    destruct (attempts_from _ _ _ _ _ _ _ _) as [d w'].
    exists d, w'. split; [reflexivity | exact Hd].
  - unfold openai_getCompletion. rewrite Hp.
    destruct (openai_lines_total history (Hh eq_refl)) as (lines & ->).
    match goal with |- context [attempts_from ?em ?n ?nm ?rq 3 0 None w] =>
      pose proof (attempts_from_decision n nm rq 3 0 None w) as Hd;
      destruct (attempts_from em n nm rq 3 0 None w) as [d w'] end.
    exists d, w'. split; [reflexivity | exact Hd].
Qed.

(** An OpenAI provider does reject for a history with an entry that is
    [null] or [undefined], before any request. *)
Lemma openai_rejects_nullish {world : Type} (net : network world)
      (p : llm_provider) (history : list value) (tools : value) (w : world) h :
  listed tools -> h ∈ history -> nullish h = true ->
  exists m, openai_getCompletion engine_message net p history tools w = (Err m, w).
Proof.
  intros Ht Hin Hn. unfold openai_getCompletion.
  destruct (buildSystemPrompt_listed tools Ht) as (prompt & ->).
  assert (Hl : exists m, openai_lines engine_message history = Err m).
  { induction history as [|x history IH]; [inversion Hin|].
    cbn [openai_lines]. apply elem_of_cons in Hin as [<-|Hin].
    - unfold openai_line, read_member. destruct h; try discriminate; cbn [get rbind]; eauto.
    - destruct (IH Hin) as (m & ->). destruct (openai_line _ x); eauto. }
  destruct Hl as (m & ->). eauto.
Qed.

(** X19. Three requests that fail end the attempts: when [fetch] rejects
    three times in a row, [GeminiProvider.getCompletion] has waited 200,
    400 and 800 milliseconds, the last wait after the last failure, and
    resolves to the content decision that reports the message of the last
    failure, with the stopReason [continue]. *)
Theorem gemini_three_failures {world : Type} (net : network world)
        (p : llm_provider) (history : list value) (tools : value) prompt
        (w0 w1 w2 w3 : world) (m1 m2 m3 : jsstring) :
  buildSystemPrompt engine_message tools = Ok prompt ->
  let request := fetch net (apiUrl p) (gemini_init prompt history) in
  request w0 = (Err m1, w1) ->
  request (sleep net 200 w1) = (Err m2, w2) ->
  request (sleep net 400 w2) = (Err m3, w3) ->
  gemini_getCompletion engine_message net p history tools w0 =
  (Ok (decision VNull
         (VStr (js "[ProviderError Gemini] "
                   ++ match m3 with [] => js "unknown error" | _ :: _ => m3 end))
         "continue"),
   sleep net 800 w3).
Proof.
  intros Hp request H1 H2 H3. unfold gemini_getCompletion. rewrite Hp.
  cbn [attempts_from]. unfold requestOnce at 1. fold request. rewrite H1.
  change (200 * 2 ^ N.of_nat 0) with 200.
  unfold requestOnce at 1. fold request. rewrite H2.
  change (200 * 2 ^ N.of_nat 1) with 400.
  unfold requestOnce at 1. fold request. rewrite H3.
  change (200 * 2 ^ N.of_nat 2) with 800.
  unfold provider_error. destruct m3; reflexivity.
Qed.

(** *** The factory *)



(** *** A provider behind an agent *)

(** X22. With a Gemini provider, tools the prompt can describe and a
    network on which every [fetch] rejects, [run] still completes normally:
    each of the [maxTurns] rounds gets the provider error as content, and
    the run ends with the stuck-run message. *)
Theorem dead_network_ends_stuck {world : Type} (net : network world)
        (p : llm_provider) (specs : value) uuid rnd String_ userInput
        (a : Agent.agent world) :
  kind p = Gemini -> listed specs ->
  (forall url init w, exists m w', fetch net url init w = (Err m, w')) ->
  exists a',
    Agent.run (provider_environment engine_message net p specs uuid rnd String_)
      userInput a = (Normal tt, a') /\
    Agent.planned a' = (Agent.planned a + Agent.maxTurns a)%nat /\
    exists ms, Agent.messages a' = ms ++ [(js "agent", Agent.stuck)].
Proof.
  intros Hk Hs Hdown.
  set (env := provider_environment engine_message net p specs uuid rnd String_).
  set (a0 := Agent.set_messages (fun l => l ++ [(js "user", userInput)])
               (Agent.set_history
                  (fun _ => [VObj [prop "role" (VStr (js "user"));
                                   prop "content" (VStr userInput)]]) a)).
  change (Agent.run env userInput a) with (Agent.rounds env (Agent.maxTurns a) 0 a0).
  assert (Hplain : forall (h : list value) (w0 : world), exists c w', c <> [] /\
            Agent.getCompletion env h w0 =
            (Normal (decision VNull (VStr c) "continue"), w')).
  { intros h w0. unfold env, provider_environment. cbn [Agent.getCompletion].
    unfold getCompletion. rewrite Hk. unfold gemini_getCompletion.
    destruct (buildSystemPrompt_listed specs Hs) as (prompt & ->).
    destruct (attempts_from_down net "Gemini"
                (requestOnce net "Gemini" (gemini_text engine_message) (apiUrl p)
                   (gemini_init prompt h)) 3 0 None w0) as (c & w' & Hc & ->).
    - intros w1. unfold requestOnce.
      destruct (Hdown (apiUrl p) (gemini_init prompt h) w1) as (m & w2 & ->). eauto.
    - exists c, w'. split; [exact Hc | reflexivity]. }
  destruct (rounds_content world env Hplain (Agent.maxTurns a) 0%nat a0)
    as (a' & Hr & Hp & Hm).
  exists a'. split; [exact Hr|]. split; [exact Hp | exact Hm].
Qed.

End LlmFacts.

(** ** The tools *)

Section ToolsFacts.

Import Tools.

Context {NO : NumberOps}.
Variable engine_message : Llm.site -> jsstring.

(** *** The pattern of the calculator *)

Lemma star_to_the_end p s : forall i cs n,
  (length s <= n)%nat ->
  star_loop true (m (Chr p)) (fun st => m (Seq Eol Eps) st Some) n (MState s i cs) =
  if forallb p s then Some (MState [] (i + length s) cs) else None.
Proof.
  induction s as [|c s IH]; intros i cs n Hn.
  - rewrite star_chr_nil. cbn. rewrite Nat.add_0_r. reflexivity.
  - destruct n as [|n]; [cbn in Hn; lia|].
    rewrite star_chr_cons. cbv zeta. cbn [forallb].
    destruct (p c); cbn [andb]; [|reflexivity].
    rewrite IH by (cbn in Hn; lia).
    destruct (forallb p s); [|reflexivity].
    cbn [length]. do 2 f_equal. lia.
Qed.

Lemma test_allowed s :
  test allowed s = forallb allowed_char s && negb (bool_decide (s = [])).
Proof.
  unfold test, exec, allowed, plus. cbn [seqs foldr].
  destruct s as [|c s].
  - reflexivity.
  - cbn [exec_from]. rewrite exec_from_bol_none. unfold match_at.
    change (m (Seq Bol (Seq (Seq (Chr allowed_char) (Star true (Chr allowed_char)))
                            (Seq Eol Eps))) (MState (c :: s) 0 []) Some)
      with (if allowed_char c
            then star_loop true (m (Chr allowed_char)) (fun st => m (Seq Eol Eps) st Some)
                   (S (length s)) (MState s 1 [])
            else None).
    cbn [forallb].
    destruct (allowed_char c); cbn [andb]; [|reflexivity].
    rewrite star_to_the_end by lia.
    destruct (forallb allowed_char s); reflexivity.
Qed.

(** X23. The calculator evaluates an expression only when it is a non-empty
    string of digits, the operators [+ - * / %], parentheses, points,
    spaces and tabs: such an expression gives the text of its result, or of
    the error it raised; an expression that is empty, that holds any other
    character, or that is no string, is refused with the fixed message and
    is not evaluated. *)
Theorem calculator_evaluates_only_arithmetic
        (evaluate : jsstring -> Llm.result jsstring) (args : value) :
  nullish args = false ->
  (forall s, getq args (js "expression") = VStr s ->
     s <> [] -> forallb allowed_char s = true ->
     calculator engine_message evaluate args =
     match evaluate s with
     | Llm.Ok result => Agent.Resolved ∅ (HStr (js "Result: " ++ result))
     | Llm.Err message => Agent.Resolved ∅ (HStr (js "Calculator error: " ++ message))
     end) /\
  ((forall s, getq args (js "expression") = VStr s ->
      s = [] \/ exists c, c ∈ s /\ allowed_char c = false) ->
   forall evaluate',
     calculator engine_message evaluate' args = Agent.Resolved ∅ (HStr calculator_refusal)).
Proof.
  intros Hn.
  assert (Hget : get args (js "expression") = Normal (getq args (js "expression")))
    by (destruct args; try discriminate; reflexivity).
  unfold calculator. rewrite Hget. clear Hget.
  generalize (getq args (js "expression")). intros e. split.
  - intros s -> Hs Hall. rewrite test_allowed, Hall.
    replace (bool_decide (s = [])) with false
      by (symmetry; apply bool_decide_eq_false, Hs).
    reflexivity.
  - intros Hbad evaluate'.
    destruct e as [| | | |s| |]; try reflexivity.
    rewrite test_allowed.
    destruct (Hbad s eq_refl) as [->|(c & Hc & Hf)]; [reflexivity|].
    replace (forallb allowed_char s) with false; [reflexivity|].
    symmetry. apply not_true_is_false. intros Hall.
    rewrite forallb_forall in Hall. apply list_elem_of_In in Hc.
    rewrite (Hall c Hc) in Hf. discriminate.
Qed.

(** *** The virtual file system *)

Lemma same_key_string same (k : value) f :
  same_key same k (VStr f) = true <-> k = VStr f.
Proof.
  destruct k; cbn [same_key]; try (split; [discriminate | congruence]).
  unfold JsStr.eqb. rewrite bool_decide_eq_true. split; congruence.
Qed.

Lemma Map_set_names same f v fs :
  ((VStr f ∈ file_names fs) /\ file_names (Map_set same (VStr f) v fs) = file_names fs) \/
  ((VStr f ∉ file_names fs) /\
   file_names (Map_set same (VStr f) v fs) = file_names fs ++ [VStr f]).
Proof.
  induction fs as [|[k x] fs IH]; cbn [Map_set file_names map fst].
  - right. split; [apply not_elem_of_nil | reflexivity].
  - destruct (same_key same k (VStr f)) eqn:E.
    + apply same_key_string in E. subst k. left. split; [left | reflexivity].
    + assert (Hk : k <> VStr f).
      { intros H. apply same_key_string with (same := same) in H. congruence. }
      cbn [map fst]. fold (file_names fs). fold (file_names (Map_set same (VStr f) v fs)).
      destruct IH as [(Hin & ->)|(Hout & ->)].
      * left. split; [right; exact Hin | reflexivity].
      * right. split; [|reflexivity].
        intros H. apply elem_of_cons in H as [H|H]; [congruence | contradiction].
Qed.

(** X24. A file that is created is listed, once: after [create_file] with a
    string as file name, the listing of [list_files] is never the one of
    the empty file system; its names are those there were, in their order,
    with the new name at the end when it was not there yet; and no name
    comes twice if none did. *)
Theorem created_file_is_listed same (args : value) (f : jsstring)
        (fs : list (value * value)) :
  get args (js "filename") = Normal (VStr f) ->
  let fs' := (create_file engine_message same args fs).2 in
  list_files fs' = js "Files in virtual system: [" ++ joined_keys fs' ++ js "]" /\
  VStr f ∈ file_names fs' /\
  (((VStr f ∈ file_names fs) /\ file_names fs' = file_names fs) \/
   ((VStr f ∉ file_names fs) /\ file_names fs' = file_names fs ++ [VStr f])) /\
  (NoDup (file_names fs) -> NoDup (file_names fs')).
Proof.
  intros Hf. unfold create_file. rewrite Hf. unfold ToString.
  cbn [printable snd]. cbv zeta.
  pose proof (Map_set_names same f (getq args (js "content")) fs) as Hnames.
  remember (Map_set same (VStr f) (getq args (js "content")) fs) as fs1 eqn:E1.
  split; [|split; [|split; [exact Hnames|]]].
  - destruct fs1 as [|e fs1]; [|reflexivity].
    destruct fs as [|[k x] fs]; [discriminate E1|].
    cbn [Map_set] in E1. destruct (same_key same k (VStr f)); discriminate E1.
  - destruct Hnames as [(Hin & ->)|(_ & ->)]; [exact Hin|].
    apply elem_of_app. right. left.
  - intros Hnd. destruct Hnames as [(_ & ->)|(Hout & ->)]; [exact Hnd|].
    apply NoDup_app. split; [exact Hnd|]. split.
    + intros x Hx Hx'. apply list_elem_of_singleton in Hx'. subst x. contradiction.
    + apply NoDup_singleton.
Qed.

End ToolsFacts.

(** ** The statements at given inputs *)

Lemma final_answer_ends_run_witness :
  let a := new_Agent (NO := DecimalText) [] 0%nat in
  (0 < maxTurns a)%nat /\
  js "All done." <> [] /\
  map lower (js "DONE") ∈ final_words /\
  getCompletion shouting_planner [user_turn (js "hello")] (w a) =
    (Normal (VObj [prop "toolCalls" VNull; prop "content" (VStr (js "All done."));
                   prop "stopReason" (VStr (js "DONE"))]), 1%nat) /\
  exists a',
    run shouting_planner (js "hello") a = (Normal tt, a') /\
    planned a' = S (planned a) /\
    history a' = [user_turn (js "hello"); content_turn (js "All done.")] /\
    messages a' = messages a ++ [(js "user", js "hello"); (js "agent", js "All done.")].
Proof.
  intros a.
  assert (H1 : (0 < maxTurns a)%nat) by (cbn; lia).
  assert (H2 : js "All done." <> []) by discriminate.
  assert (H3 : map lower (js "DONE") ∈ final_words).
  { unfold final_words. do 4 right. left. }
  assert (H4 : getCompletion shouting_planner [user_turn (js "hello")] (w a) =
               (Normal (VObj [prop "toolCalls" VNull; prop "content" (VStr (js "All done."));
                              prop "stopReason" (VStr (js "DONE"))]), 1%nat))
    by reflexivity.
  exact (conj H1 (conj H2 (conj H3 (conj H4
           (final_answer_ends_run nat shouting_planner (js "hello") (js "All done.")
              (js "DONE") 1%nat a H1 H2 H3 H4))))).
Defined.

Lemma silent_planner_is_nudged_witness :
  (forall (h : list value) (w0 : nat), exists d w',
     getCompletion silent_planner h w0 = (Normal d, w') /\
     nullish d = false /\ no_tool_calls d /\ has_content d = false) /\
  exists a',
    run silent_planner (js "hello") (new_Agent [] 0%nat) = (Normal tt, a') /\
    planned a' = (planned (new_Agent (NO := DecimalText) [] 0%nat) + 10)%nat /\
    history a' = user_turn (js "hello") :: replicate 10 replanning_turn /\
    messages a' = [] ++ [(js "user", js "hello"); (js "agent", stuck)].
Proof.
  assert (H : forall (h : list value) (w0 : nat), exists d w',
            getCompletion silent_planner h w0 = (Normal d, w') /\
            nullish d = false /\ no_tool_calls d /\ has_content d = false).
  { intros h w0. exists (decision VNull VNull "final"), (S w0). repeat split. }
  exact (conj H (silent_planner_is_nudged nat silent_planner H (js "hello")
                   (new_Agent [] 0%nat))).
Defined.

Lemma tool_calls_take_precedence_witness :
  let l := [call (VStr (js "c1")) (VStr (js "calculator")) (VObj []);
            VObj [prop "args" (VObj [])]] in
  let props := [prop "toolCalls" (VArr l); prop "content" (VStr (js "All done."));
                prop "stopReason" (VStr (js "final"))] in
  let a := new_Agent (NO := DecimalText) [Some calculator_stub] 0%nat in
  or_ (or_ (assoc (js "toolCalls") props) (assoc (js "tool_calls") props)) (VArr []) = VArr l /\
  l <> [] /\
  handle idle_planner 0 (VObj props) a =
    handle idle_planner 0 (VObj [prop "toolCalls" (VArr l)]) a /\
  messages (handle idle_planner 0 (VObj props) a).2 = messages a /\
  (handle idle_planner 0 (VObj props) a).1 <> Normal Return /\
  Forall (fun c => readable c = true) l /\
  (forall n fn, registry a !! n = Some fn -> reportable fn) /\
  (handle idle_planner 0 (VObj props) a).1 = Normal Continue.
Proof.
  intros l props a.
  assert (H1 : or_ (or_ (assoc (js "toolCalls") props) (assoc (js "tool_calls") props))
                   (VArr []) = VArr l) by reflexivity.
  assert (H2 : l <> []) by discriminate.
  assert (H3 : Forall (fun c => readable c = true) l) by (repeat constructor).
  assert (H4 : forall n fn, registry a !! n = Some fn -> reportable fn).
  { intros n fn H.
    change (registry a) with (<[js "calculator" := calculator_stub]>
                                (∅ : gmap jsstring (tool_function nat))) in H.
    apply lookup_insert_Some in H as [[_ <-]|[_ H]];
      [|rewrite lookup_empty in H; discriminate H].
    intros args0 w0. exact I. }
  destruct (tool_calls_take_precedence nat idle_planner 0 props l a H1 H2)
    as (T1 & T2 & T3 & _ & T5).
  exact (conj H1 (conj H2 (conj T1 (conj T2 (conj T3 (conj H3 (conj H4 (T5 H3 H4)))))))).
Defined.

(** C10 as stated fails: the loop does not return to planning whatever
    the round does. A decision with a named call and the entry [null]
    makes the round throw where the name of the entry is read; and on the
    planner text that calls a tool which rejects with [undefined], [run]
    ends with the exception after one call of the provider, with no tool
    turn. *)
Lemma tool_calls_round_can_abort :
  let l := [call (VStr (js "c1")) (VStr (js "calculator")) (VObj []); VNull] in
  let step := VObj [prop "toolCalls" (VArr l); prop "content" (VStr (js "All done."));
                    prop "stopReason" (VStr (js "final"))] in
  let a := new_Agent (NO := DecimalText) [Some calculator_stub] 0%nat in
  let r := run (scripted [rude_call]) (js "hello") (new_Agent [Some rude_tool] 0%nat) in
  (handle idle_planner 0 step a).1 = Throw TypeError /\
  tryParseToolCall (NO := DecimalText) 0 rude_call =
    Normal (decision (VArr [call (VStr (js "rude")) (VStr (js "rude")) (VObj [])])
                     VNull "continue") /\
  r.1 = Throw TypeError /\
  planned r.2 = 1%nat /\
  map turn_role (history r.2) = [js "user"; js "assistant"].
Proof. vm_compute. repeat split. Qed.

Lemma named_calls_are_recorded_witness :
  let a := new_Agent (NO := DecimalText) [Some calculator_stub] 0%nat in
  let l := [VObj [prop "id" (VStr (js "c1")); prop "tool" (VStr (js "calculator"));
                  prop "arguments" (VStr (jsq "{'expression':'2+2'}"))];
            VObj [prop "args" (VObj [])]] in
  let a' := (handle idle_planner 0 (VObj one_named_call) a).2 in
  or_ (or_ (assoc (js "toolCalls") one_named_call) (assoc (js "tool_calls") one_named_call))
      (VArr []) = VArr l /\
  l <> [] /\
  handle idle_planner 0 (VObj one_named_call) a = (Normal Continue, a') /\
  exists ncs texts,
    history a' = history a ++ assistant_calls ncs :: zip_with tool_turn ncs texts /\
    length texts = length ncs /\
    map name ncs =
      filter (fun n => truthy n = true)
             (map (fun c => or_ (getq c (js "name")) (getq c (js "tool"))) l) /\
    Forall well_formed ncs.
Proof.
  intros a l a'.
  assert (H1 : or_ (or_ (assoc (js "toolCalls") one_named_call)
                        (assoc (js "tool_calls") one_named_call)) (VArr []) = VArr l)
    by reflexivity.
  assert (H2 : l <> []) by discriminate.
  assert (H3 : handle idle_planner 0 (VObj one_named_call) a = (Normal Continue, a'))
    by (vm_compute; reflexivity).
  exact (conj H1 (conj H2 (conj H3
           (named_calls_are_recorded nat idle_planner 0%nat one_named_call l a Continue a'
              H1 H2 H3)))).
Defined.

Lemma tool_failure_is_observed_witness :
  let a := new_Agent (NO := DecimalText) [Some slow_tool; Some failing_tool] 0%nat in
  let c := NCall (VStr (js "c1")) (VStr (js "slow")) (VObj []) in
  let c' := NCall (VStr (js "c2")) (VStr (js "failing")) (VObj []) in
  let late := js "tool timeout after " ++ of_N (toolTimeoutMs a) ++ js "ms" in
  let e := VObj [prop "message" (VStr (js "boom"))] in
  registry_get a (name c) = Some slow_tool /\
  implementation slow_tool (args c) (w a) = (Pending, 1%nat) /\
  registry_get a (name c') = Some failing_tool /\
  implementation failing_tool (args c') (w a) = (Rejected e, 1%nat) /\
  (exists a',
     dispatch idle_planner c a = (Normal tt, a') /\
     history a' =
       history a ++
       [tool_turn c
          (escAndTrunc (obsTruncateChars a)
             (Some (js "Tool '" ++ to_string (name c) ++ js "' failed: " ++ late)))] /\
     messages a' = messages a /\ w a' = 1%nat) /\
  (exists a',
     dispatch idle_planner c' a = (Normal tt, a') /\
     history a' =
       history a ++
       [tool_turn c'
          (escAndTrunc (obsTruncateChars a)
             (Some (js "Tool '" ++ to_string (name c') ++ js "' failed: " ++ js "boom")))] /\
     messages a' = messages a /\ w a' = 1%nat).
Proof.
  intros a c c' late e.
  assert (H1 : registry_get a (name c) = Some slow_tool) by (vm_compute; reflexivity).
  assert (H2 : implementation slow_tool (args c) (w a) = (Pending, 1%nat)) by reflexivity.
  assert (H3 : registry_get a (name c') = Some failing_tool) by (vm_compute; reflexivity).
  assert (H4 : implementation failing_tool (args c') (w a) = (Rejected e, 1%nat))
    by reflexivity.
  exact (conj H1 (conj H2 (conj H3 (conj H4 (conj
           (tool_failure_is_observed nat idle_planner slow_tool c a Pending 1%nat late
              H1 H2 (or_introl (conj eq_refl eq_refl)))
           (tool_failure_is_observed nat idle_planner failing_tool c' a (Rejected e) 1%nat
              (js "boom") H3 H4
              (or_intror (ex_intro _ e
                 (conj eq_refl (conj eq_refl (conj eq_refl eq_refl))))))))))).
Defined.

Lemma nullish_rejection_escapes_witness :
  let a := new_Agent (NO := DecimalText) [Some rude_tool] 0%nat in
  let c := NCall (VStr (js "c1")) (VStr (js "rude")) (VObj []) in
  registry_get a (name c) = Some rude_tool /\
  implementation rude_tool (args c) (w a) = (Rejected VUndef, 1%nat) /\
  nullish (@VUndef DecimalText) = true /\
  forall rest,
    (for_each (dispatch idle_planner) (c :: rest) a).1 = Throw TypeError /\
    history (for_each (dispatch idle_planner) (c :: rest) a).2 = history a.
Proof.
  intros a c.
  assert (H1 : registry_get a (name c) = Some rude_tool) by (vm_compute; reflexivity).
  assert (H2 : implementation rude_tool (args c) (w a) = (Rejected VUndef, 1%nat))
    by reflexivity.
  assert (H3 : nullish (@VUndef DecimalText) = true) by reflexivity.
  exact (conj H1 (conj H2 (conj H3
           (nullish_rejection_escapes nat idle_planner rude_tool c a VUndef 1%nat
              H1 H2 H3)))).
Defined.

Lemma shared_object_is_marked_witness :
  plain_data twice_shared /\
  is_Some (twice_shared !! 0%nat) /\
  mentions_twice twice_shared 0 1 /\
  exists json seen,
    stringify_seen twice_shared (HRef 0) = SOk (Some json) seen /\
    includes circular json = true.
Proof.
  assert (H0 : twice_shared !! 0%nat =
               Some (HObject [(js "a", HRef 1); (js "b", HRef 1)]))
    by (unfold twice_shared; apply lookup_insert_eq).
  assert (H1 : is_Some (twice_shared !! 0%nat)) by (rewrite H0; eauto).
  assert (H2 : mentions_twice twice_shared 0 1).
  { unfold mentions_twice. rewrite (deref_Some _ _ _ H0).
    exists (js "a"), (js "b"). split; [discriminate|].
    split; [left | right; left]. }
  assert (Hp : plain_data twice_shared).
  { intros l props H. unfold twice_shared in H.
    apply lookup_insert_Some in H as [[_ H]|[_ H]].
    - injection H as <-. intros Hin.
      repeat (apply elem_of_cons in Hin as [Hin|Hin]; [discriminate Hin|]).
      apply elem_of_nil in Hin. exact Hin.
    - apply lookup_singleton_Some in H as [_ H]. injection H as <-.
      apply not_elem_of_nil. }
  exact (conj Hp (conj H1 (conj H2
           (shared_object_is_marked twice_shared 0%nat 1%nat Hp H1 H2)))).
Defined.

Lemma plain_text_is_content_witness :
  let text := js "  I will look that up, 1 moment [sic].  " in
  (123 ∉ text) /\ (34 ∉ text) /\ (fence_count text < 2)%nat /\
  tryParseToolCall (NO := DecimalText) 0 text =
  Normal (decision VNull
            (VStr (match trim text with [] => text | _ :: _ => trim text end))
            "continue").
Proof.
  intros text.
  assert (H1 : 123 ∉ text) by compute_done.
  assert (H2 : 34 ∉ text) by compute_done.
  assert (H3 : (fence_count text < 2)%nat) by (vm_compute; lia).
  exact (conj H1 (conj H2 (conj H3 (plain_text_is_content 0 text H1 H2 H3)))).
Defined.

Lemma json_string_is_content_witness :
  let X := 32 :: js "Let me think." ++ [10] in
  (fence_count X < 2)%nat /\ trim X <> [] /\
  tryParseToolCall (NO := DecimalText) 0 (JSON.quote X) =
  Normal (decision VNull (VStr (trim X)) "continue").
Proof.
  intros X.
  assert (H1 : (fence_count X < 2)%nat) by (vm_compute; lia).
  assert (H2 : trim X <> []) by (vm_compute; discriminate).
  exact (conj H1 (conj H2 (json_string_is_content 0 X H1 H2))).
Defined.

Lemma robustParseArgs_parses_once_witness :
  let body := 10 :: jsq "{'query':'react'}" ++ [10] in
  blank [32] /\ blank [10] /\ (96 ∉ body) /\ tag_ok (js "json") body /\
  robustParseArgs (NO := DecimalText) (VStr body) =
    Normal (match JSON.parse (NO := DecimalText) (trim body) with
            | Normal x => x
            | Throw _ => VObj []
            end) /\
  robustParseArgs (NO := DecimalText)
      (VStr ([32] ++ js "```" ++ js "json" ++ body ++ js "```" ++ [10])) =
    robustParseArgs (VStr body).
Proof.
  intros body.
  assert (H1 : blank [32]) by (repeat constructor).
  assert (H2 : blank [10]) by (repeat constructor).
  assert (H3 : 96 ∉ body) by compute_done.
  assert (H4 : tag_ok (js "json") body) by (right; split; reflexivity).
  exact (conj H1 (conj H2 (conj H3 (conj H4
           (robustParseArgs_parses_once (NO := DecimalText) [32] (js "json") body [10] H1 H2 H3 H4))))).
Defined.

Lemma embedded_final_is_found_witness :
  let pre := js "Here is my answer: " in
  let X := js "line one\nline two" in
  let post := js " Bye." in
  (123 ∉ pre) /\ (34 ∉ X) /\
  (fence_count (with_final pre X post) < 2)%nat /\
  JSON.parse (NO := DecimalText) (trim (with_final pre X post)) = Throw SyntaxError /\
  tryParseToolCall (NO := DecimalText) 0 (with_final pre X post) =
  Normal (decision VNull (VStr X) "final").
Proof.
  intros pre X post.
  assert (H1 : 123 ∉ pre) by compute_done.
  assert (H2 : 34 ∉ X) by compute_done.
  assert (H3 : (fence_count (with_final pre X post) < 2)%nat) by (vm_compute; lia).
  assert (H4 : JSON.parse (NO := DecimalText) (trim (with_final pre X post)) =
               Throw SyntaxError) by (vm_compute; reflexivity).
  exact (conj H1 (conj H2 (conj H3 (conj H4
           (embedded_final_is_found 0 pre X post SyntaxError H1 H2 H3 H4))))).
Defined.

Lemma getCompletion_never_rejects_witness :
  let history := [user_turn (NO := DecimalText) (js "hello");
                  content_turn (js "Thinking.")] in
  let tools := VArr [Llm.tool_spec (VStr (js "calculator")) (VStr (js "Evaluates."))
                       VUndef;
                     Llm.full_tool VUndef (VStr (js "Nameless.")) (VStr (js "{}"))] in
  Llm.listed tools /\
  (Llm.kind openai_example = Llm.OpenAi ->
   Forall (fun h => Llm.quotable h = true) history) /\
  exists d w',
    Llm.getCompletion engine_text dead_network openai_example history tools 0 =
      (Llm.Ok d, w') /\
    (is_tool_calls d \/ is_content d).
Proof.
  intros history tools.
  assert (H1 : Llm.listed tools)
    by (right; eexists; split; [reflexivity | repeat constructor]).
  assert (H2 : Llm.kind openai_example = Llm.OpenAi ->
               Forall (fun h => Llm.quotable h = true) history)
    by (intros _; repeat constructor).
  exact (conj H1 (conj H2
           (getCompletion_never_rejects engine_text dead_network openai_example history
              tools 0 H1 H2))).
Defined.

Lemma gemini_three_failures_witness :
  let request := Llm.fetch dead_network (Llm.apiUrl gemini_example)
                   (Llm.gemini_init bare_prompt []) in
  Llm.buildSystemPrompt engine_text (VArr []) = Llm.Ok bare_prompt /\
  request 0 = (Llm.Err (js "Failed to fetch"), 0) /\
  request (Llm.sleep dead_network 200 0) = (Llm.Err (js "Failed to fetch"), 200) /\
  request (Llm.sleep dead_network 400 200) = (Llm.Err (js "Failed to fetch"), 600) /\
  Llm.gemini_getCompletion engine_text dead_network gemini_example [] (VArr []) 0 =
  (Llm.Ok (decision VNull
             (VStr (js "[ProviderError Gemini] " ++ js "Failed to fetch")) "continue"),
   Llm.sleep dead_network 800 600).
Proof.
  intros request.
  assert (H0 : Llm.buildSystemPrompt engine_text (VArr []) = Llm.Ok bare_prompt)
    by reflexivity.
  assert (H1 : request 0 = (Llm.Err (js "Failed to fetch"), 0)) by reflexivity.
  assert (H2 : request (Llm.sleep dead_network 200 0) = (Llm.Err (js "Failed to fetch"), 200))
    by reflexivity.
  assert (H3 : request (Llm.sleep dead_network 400 200) =
               (Llm.Err (js "Failed to fetch"), 600)) by reflexivity.
  exact (conj H0 (conj H1 (conj H2 (conj H3
           (gemini_three_failures engine_text dead_network gemini_example [] (VArr [])
              bare_prompt 0 0 200 600 (js "Failed to fetch") (js "Failed to fetch")
              (js "Failed to fetch") H0 H1 H2 H3))))).
Defined.

Lemma dead_network_ends_stuck_witness :
  let a := new_Agent (NO := DecimalText) (world := N) [] 0 in
  let env := Llm.provider_environment engine_text dead_network gemini_example (VArr [])
               None (fun w => (js "r", w)) no_String in
  Llm.kind gemini_example = Llm.Gemini /\
  Llm.listed (@VArr DecimalText []) /\
  (forall url init w, exists m w', Llm.fetch dead_network url init w = (Llm.Err m, w')) /\
  exists a',
    run env (js "hello") a = (Normal tt, a') /\
    planned a' = (planned a + maxTurns a)%nat /\
    exists ms, messages a' = ms ++ [(js "agent", stuck)].
Proof.
  intros a env.
  assert (H1 : Llm.kind gemini_example = Llm.Gemini) by reflexivity.
  assert (H2 : Llm.listed (@VArr DecimalText []))
    by (right; exists []; split; [reflexivity | constructor]).
  assert (H3 : forall url init w, exists m w',
                 Llm.fetch dead_network url init w = (Llm.Err m, w'))
    by (intros url init w; eexists _, _; reflexivity).
  exact (conj H1 (conj H2 (conj H3
           (dead_network_ends_stuck engine_text dead_network gemini_example (VArr [])
              None (fun w => (js "r", w)) no_String (js "hello") a H1 H2 H3)))).
Defined.

Lemma calculator_evaluates_only_arithmetic_witness :
  let good := VObj [prop (NO := DecimalText) "expression" (VStr (js "1 + 2 * 3"))] in
  let bad := VObj [prop (NO := DecimalText) "expression" (VStr (js "alert(1)"))] in
  nullish good = false /\ nullish bad = false /\
  Tools.calculator engine_text evaluate_stub good =
    Resolved ∅ (HStr (js "Result: " ++ js "7")) /\
  Tools.calculator engine_text evaluate_stub bad =
    Resolved ∅ (HStr Tools.calculator_refusal).
Proof.
  intros good bad.
  assert (H1 : nullish good = false) by reflexivity.
  assert (H2 : nullish bad = false) by reflexivity.
  refine (conj H1 (conj H2 (conj
            (proj1 (calculator_evaluates_only_arithmetic engine_text evaluate_stub good H1)
               (js "1 + 2 * 3") eq_refl _ _)
            (proj2 (calculator_evaluates_only_arithmetic engine_text evaluate_stub bad H2)
               _ evaluate_stub)))).
  - discriminate.
  - reflexivity.
  - intros s Hs. injection Hs as <-. right. exists 97. split; [|reflexivity].
    left.
Defined.

Lemma created_file_is_listed_witness :
  let args := VObj [prop (NO := DecimalText) "filename" (VStr (js "b.txt"));
                    prop "content" (VStr (js "second"))] in
  let fs := [(VStr (js "a.txt"), VStr (js "first"))] in
  let fs' := (Tools.create_file engine_text never_same args fs).2 in
  get args (js "filename") = Normal (VStr (js "b.txt")) /\
  Tools.list_files fs' = js "Files in virtual system: [" ++ Tools.joined_keys fs' ++ js "]" /\
  (VStr (js "b.txt") ∈ Tools.file_names fs') /\
  (((VStr (js "b.txt") ∈ Tools.file_names fs) /\ Tools.file_names fs' = Tools.file_names fs) \/
   ((VStr (js "b.txt") ∉ Tools.file_names fs) /\
    Tools.file_names fs' = Tools.file_names fs ++ [VStr (js "b.txt")])) /\
  (NoDup (Tools.file_names fs) -> NoDup (Tools.file_names fs')).
Proof.
  intros args fs fs'.
  assert (H : get args (js "filename") = Normal (VStr (js "b.txt"))) by reflexivity.
  exact (conj H (created_file_is_listed engine_text never_same args (js "b.txt") fs H)).
Defined.
